(** * Real-root finding for univariate polynomials: transform kernels and orchestrator

    A shallow embedding of
      - [polynomial/evaluation]       (Horner evaluation),
      - [polynomial/transformations]  (Taylor shift, scaling, reversal, the
        composite interval maps and the cached binomial helper),
      - [rootFinding/rootFinding.js]  (the orchestrator).

    JavaScript arrays are objects: a function receives a reference and may
    update the caller's array in place.  Arrays therefore live in a store
    ([heap]), functions that allocate, update or return arrays run in a state
    and exception monad [M] over that store, and the process-wide
    [binomialCache] is part of the same state.

    Numbers are modelled exactly: the transform kernels are written over any
    type with ring operations ([Number]), instantiated at [Z], [Q] and [R];
    the orchestrator works over the rationals [Q].  Rounding errors of IEEE
    doubles, NaN and the infinities are outside the model. *)

From stdpp Require Import base list gmap strings pretty.
From Stdlib Require Import Ascii ZArith QArith Qpower Qabs Qround Qfield Reals Lra Lqa Lia Ring.

Close Scope R_scope.
Close Scope Q_scope.
Close Scope Z_scope.
Open Scope nat_scope.

(* ********************************************************************* *)
(** * Part I: the embedding of the source *)
(* ********************************************************************* *)

(* ===================================================================== *)
(** ** Numbers *)
(* ===================================================================== *)

(** The arithmetic the transform kernels use on a JavaScript [number]. *)
Class Number (A : Type) := {
  zero : A;
  one : A;
  add : A -> A -> A;
  mul : A -> A -> A;
  sub : A -> A -> A;
  opp : A -> A
}.

Declare Scope num_scope.
Delimit Scope num_scope with num.
Notation "x + y" := (add x y) : num_scope.
Notation "x * y" := (mul x y) : num_scope.
Notation "x - y" := (sub x y) : num_scope.
Notation "- x" := (opp x) : num_scope.

#[export] Instance Number_Z : Number Z :=
  {| zero := 0%Z; one := 1%Z; add := Z.add; mul := Z.mul; sub := Z.sub; opp := Z.opp |}.

#[export] Instance Number_Q : Number Q :=
  {| zero := 0%Q; one := 1%Q; add := Qplus; mul := Qmult; sub := Qminus; opp := Qopp |}.

#[export] Instance Number_R : Number R :=
  {| zero := 0%R; one := 1%R; add := Rplus; mul := Rmult; sub := Rminus; opp := Ropp |}.

(** The ring laws, for the instances whose equality is Leibniz equality. *)
Class NumberRing (A : Type) `{Number A} : Prop :=
  number_ring : ring_theory zero one add mul sub opp (@eq A).

#[export] Instance NumberRing_Z : NumberRing Z.
Proof.
  constructor; simpl; intros; lia.
Qed.

#[export] Instance NumberRing_R : NumberRing R.
Proof.
  constructor; simpl; intros; Lra.lra.
Qed.

Section NumberOps.
Context {A : Type} `{Number A}.

(** [Math.pow(x, n)] for an exponent that is a non-negative integer. *)
Fixpoint Math_pow (x : A) (n : nat) : A :=
  match n with
  | O => one
  | S m => (x * Math_pow x m)%num
  end.

(** A non-negative integer (a binomial coefficient) as a [number]. *)
Fixpoint fromNat (n : nat) : A :=
  match n with
  | O => zero
  | S m => (one + fromNat m)%num
  end.
End NumberOps.

(* ===================================================================== *)
(** ** The store, exceptions and the monad *)
(* ===================================================================== *)

(** What a JavaScript call can throw here.  [ReadUndefined] stands for a read
    of a missing array or of an index outside it ([undefined], and [NaN] once
    used in arithmetic), which the exact number model has no value for; the
    theorems below show that it does not arise. *)
Inductive exn :=
| Error (message : string)
| RangeError
| ReadUndefined.

Inductive outcome (X : Type) :=
| Normal (x : X)
| Throw (e : exn).
Arguments Normal {X} x.
Arguments Throw {X} e.

(** An array reference. *)
Definition loc := nat.

(** The array store, indexed by reference, and the binomial cache, an object
    used as a map from strings to numbers. *)
Record state (A : Type) := State {
  heap : list (list A);
  binomialCache : gmap string nat
}.
Arguments State {A} heap binomialCache.
Arguments heap {A} s.
Arguments binomialCache {A} s.

Definition M (A X : Type) : Type := state A -> outcome X * state A.

Section Monad.
Context {A : Type}.

Definition ret {X} (x : X) : M A X := fun st => (Normal x, st).

Definition bind {X Y} (m : M A X) (f : X -> M A Y) : M A Y :=
  fun st =>
    match m st with
    | (Normal x, st') => f x st'
    | (Throw e, st') => (Throw e, st')
    end.

Definition throw {X} (e : exn) : M A X := fun st => (Throw e, st).

(** [for (let i = lo; i < hi; i++) body(i)], for a bound [hi] that the body
    does not change. *)
Fixpoint for_count (count i : nat) (body : nat -> M A unit) : M A unit :=
  match count with
  | O => ret tt
  | S c => bind (body i) (fun _ => for_count c (S i) body)
  end.

Definition for_range (lo hi : nat) (body : nat -> M A unit) : M A unit :=
  for_count (hi - lo) lo body.
End Monad.

Notation "'let!' x ':=' m 'in' k" := (bind m (fun x => k))
  (at level 10, x name, m at level 200, k at level 200).

(* ===================================================================== *)
(** ** Array primitives *)
(* ===================================================================== *)

Section Arrays.
Context {A : Type}.

(** An array literal or any other fresh array with the given contents. *)
Definition newArray (v : list A) : M A loc :=
  fun st => (Normal (length (heap st)), State (heap st ++ [v]) (binomialCache st)).

Definition readArray (l : loc) : M A (list A) :=
  fun st =>
    match heap st !! l with
    | Some v => (Normal v, st)
    | None => (Throw ReadUndefined, st)
    end.

Definition writeArray (l : loc) (v : list A) : M A unit :=
  fun st => (Normal tt, State (<[l := v]> (heap st)) (binomialCache st)).

(** [[...a]] *)
Definition spread (a : loc) : M A loc :=
  let! v := readArray a in newArray v.

(** [a.length] *)
Definition arrayLength (a : loc) : M A nat :=
  let! v := readArray a in ret (length v).

(** [a[i]] *)
Definition getIndex (a : loc) (i : nat) : M A A :=
  let! v := readArray a in
  match v !! i with
  | Some x => ret x
  | None => throw ReadUndefined
  end.

(** [a[i] = x] for an index inside the array (the only use in the source). *)
Definition setIndex (a : loc) (i : nat) (x : A) : M A unit :=
  let! v := readArray a in
  if decide (i < length v) then writeArray a (<[i := x]> v)
  else throw ReadUndefined.

(** [a.reverse()]: in place. *)
Definition reverseInPlace (a : loc) : M A unit :=
  let! v := readArray a in writeArray a (reverse v).

(** [a.splice(start, deleteCount)]: in place. *)
Definition spliceDelete (a : loc) (start deleteCount : nat) : M A unit :=
  let! v := readArray a in writeArray a (take start v ++ drop (start + deleteCount) v).

(** [a.splice(start, 0, x)]: in place. *)
Definition spliceInsert (a : loc) (start : nat) (x : A) : M A unit :=
  let! v := readArray a in writeArray a (take start v ++ x :: drop start v).

(** [a.push(x)]: in place. *)
Definition push (a : loc) (x : A) : M A unit :=
  let! v := readArray a in writeArray a (v ++ [x]).

(** [a.map((x, i) => f(x, i))]: a fresh array. *)
Definition mapArray (f : A -> nat -> A) (a : loc) : M A loc :=
  let! v := readArray a in newArray (imap (fun i x => f x i) v).
End Arrays.

(* ===================================================================== *)
(** ** polynomial/evaluation *)
(* ===================================================================== *)

Section Evaluation.
Context {A : Type} `{Number A}.

(** [evaluatePolynomial(poly, x)]: Horner's scheme.  The loop runs from the
    last coefficient down to the first with [result = result * x + poly[i]];
    it only reads [poly], so the model takes the array's contents. *)
Definition evaluatePolynomial (poly : list A) (x : A) : A :=
  foldr (fun coefficient result => (result * x + coefficient)%num) zero poly.
End Evaluation.

(* ===================================================================== *)
(** ** polynomial/transformations *)
(* ===================================================================== *)

(** The literal table of [binomial]: row [n - 4], column [k - 2]. *)
Definition precomputed : list (list nat) :=
  [ [6];
    [10];
    [15; 20];
    [21; 35];
    [28; 56; 70];
    [36; 84; 126];
    [45; 120; 210; 252] ].

(** [`${n},${k}`] *)
Definition cacheKey (n k : nat) : string := pretty n +:+ "," +:+ pretty k.

Section Binomial.
Context {A : Type}.

(** [binomialCache[cacheKey]] *)
Definition cacheGet (key : string) : M A (option nat) :=
  fun st => (Normal (binomialCache st !! key), st).

(** [binomialCache[cacheKey] = value] *)
Definition cacheSet (key : string) (value : nat) : M A unit :=
  fun st => (Normal tt, State (heap st) (<[key := value]> (binomialCache st))).

(** [n <= 10 && k < precomputed[n - 4].length], then
    [precomputed[n - 4][k - 2]]: [Some] value when the table answers, [None]
    when the guard is false.  A row or an entry that is missing would be
    [undefined] in the source. *)
Definition tableLookup (n k : nat) : M A (option nat) :=
  if n <=? 10 then
    match (if 4 <=? n then precomputed !! (n - 4) else None) with
    | None => throw ReadUndefined
    | Some row =>
        if k <? length row then
          match (if 2 <=? k then row !! (k - 2) else None) with
          | Some value => ret (Some value)
          | None => throw ReadUndefined
          end
        else ret None
    end
  else ret None.

(** [binomial(n, k)] on the non-negative integers its callers pass (loop
    indices), so the test [k < 0] of the source is always false.  The
    recursive calls are on [n - 1]; [n = 0] never reaches them. *)
Fixpoint binomial (n k : nat) {struct n} : M A nat :=
  if n <? k then ret 0
  else if (k =? 0) || (k =? n) then ret 1
  else if (k =? 1) || (k =? n - 1) then ret n
  else
    let k := if n <? 2 * k then n - k else k in
    let! fromTable := tableLookup n k in
    match fromTable with
    | Some value => ret value
    | None =>
        let key := cacheKey n k in
        let! cached := cacheGet key in
        match cached with
        | Some (S v) => ret (S v)
        | _ =>
            match n with
            | O => throw ReadUndefined
            | S n1 =>
                let! left := binomial n1 (k - 1) in
                let! right := binomial n1 k in
                let value := left + right in
                let! _ := cacheSet key value in
                ret value
            end
        end
    end.
End Binomial.

Section Transformations.
Context {A : Type} `{Number A}.

(** [taylorShiftBy1(polynomial)] *)
Definition taylorShiftBy1 (polynomial : loc) : M A loc :=
  let! newCoefficients := spread polynomial in
  let! len := arrayLength newCoefficients in
  let! _ := for_range 1 len (fun i =>
    for_range 0 i (fun k =>
      let! old := getIndex newCoefficients k in
      let! p_i := getIndex polynomial i in
      let! b := binomial i k in
      setIndex newCoefficients k (old + p_i * fromNat b)%num)) in
  ret newCoefficients.

(** [taylorShift(polynomial, shift)] *)
Definition taylorShift (polynomial : loc) (shift : A) : M A loc :=
  let! newCoefficients := spread polynomial in
  let! len := arrayLength newCoefficients in
  let! _ := for_range 1 len (fun i =>
    for_range 0 i (fun k =>
      let! old := getIndex newCoefficients k in
      let! p_i := getIndex polynomial i in
      let! b := binomial i k in
      setIndex newCoefficients k
        (old + p_i * fromNat b * Math_pow shift (i - k))%num)) in
  ret newCoefficients.

(** [reversed(polynomial)] *)
Definition reversed (polynomial : loc) : M A loc :=
  let! copy := spread polynomial in
  let! _ := reverseInPlace copy in
  ret copy.

(** [scaleInput(polynomial, scaleFactor)] *)
Definition scaleInput (polynomial : loc) (scaleFactor : A) : M A loc :=
  mapArray (fun coefficient i => (Math_pow scaleFactor i * coefficient)%num) polynomial.

(** [scaleInputInReverseOrder(polynomial, scaleFactor)].  For the empty
    polynomial the degree is -1 in the source and nothing is mapped. *)
Definition scaleInputInReverseOrder (polynomial : loc) (scaleFactor : A) : M A loc :=
  let! len := arrayLength polynomial in
  let degree := len - 1 in
  mapArray (fun coefficient i => (Math_pow scaleFactor (degree - i) * coefficient)%num)
           polynomial.

(** [scale(coefficients, scaleFactor)]: in place, returns nothing. *)
Definition scale (coefficients : loc) (scaleFactor : A) : M A unit :=
  let! len := arrayLength coefficients in
  for_range 1 len (fun i =>
    let! c := getIndex coefficients i in
    setIndex coefficients i (Math_pow scaleFactor i * c)%num).

(** [scaleCoefficients(coefficients, scaleFactor)]: in place, returns nothing. *)
Definition scaleCoefficients (coefficients : loc) (scaleFactor : A) : M A unit :=
  let! len := arrayLength coefficients in
  for_range 1 len (fun i =>
    let! c := getIndex coefficients i in
    setIndex coefficients i (Math_pow scaleFactor i * c)%num).

(** [mapIntervalToPositiveReals(polynomial, interval)].  The values returned
    by [taylorShift] and [taylorShiftBy1] are dropped, as in the source. *)
Definition mapIntervalToPositiveReals (polynomial : loc) (interval : A * A) : M A loc :=
  let! transformedCoefficients := spread polynomial in
  let '(leftBound, rightBound) := interval in
  let! _ := taylorShift transformedCoefficients leftBound in
  let! _ := scale transformedCoefficients (rightBound - leftBound)%num in
  let! _ := reverseInPlace transformedCoefficients in
  let! _ := taylorShiftBy1 transformedCoefficients in
  ret transformedCoefficients.

(** [mapUnitIntervalToPositiveReals(polynomial)] *)
Definition mapUnitIntervalToPositiveReals (polynomial : loc) : M A loc :=
  let! transformedCoefficients := spread polynomial in
  let! _ := reverseInPlace transformedCoefficients in
  let! _ := taylorShiftBy1 transformedCoefficients in
  ret transformedCoefficients.

(** [transformedForLowerInterval(polynomial, scale)] *)
Definition transformedForLowerInterval (polynomial : loc) (scaleFactor : A) : M A loc :=
  let! transformedCoefficients := spread polynomial in
  let! _ := scaleCoefficients transformedCoefficients scaleFactor in
  let! _ := reverseInPlace transformedCoefficients in
  let! _ := taylorShift transformedCoefficients one in
  ret transformedCoefficients.
End Transformations.

(* ===================================================================== *)
(** ** Built-in operations on numbers used by the orchestrator *)
(* ===================================================================== *)

(** [x < y] on rationals. *)
Definition Qltb (x y : Q) : bool := negb (Qle_bool y x).

(** [Number.EPSILON], 2^-52. *)
Definition EPSILON : Q := (1 # 4503599627370496)%Q.

(** [Math.floor(Math.log10(q))] for [q > 0], exactly: the search goes up from
    exponent 0 when [1 <= q] and down from -1 otherwise.  The bit sizes of the
    numerator and of the denominator bound the number of steps. *)
Fixpoint log10_up (fuel : nat) (q : Q) (e : Z) : Z :=
  match fuel with
  | O => e
  | S f => if Qle_bool (10 ^ (e + 1))%Q q then log10_up f q (e + 1)%Z else e
  end.

Fixpoint log10_down (fuel : nat) (q : Q) (e : Z) : Z :=
  match fuel with
  | O => e
  | S f => if Qle_bool (10 ^ e)%Q q then e else log10_down f q (e - 1)%Z
  end.

Definition Math_floor_log10 (q : Q) : Z :=
  if Qle_bool 1 q then log10_up (Pos.size_nat (Z.to_pos (Qnum q))) q 0
  else log10_down (Pos.size_nat (Qden q)) q (-1).

(** The number that the string [num.toFixed(fractionDigits)] denotes, or the
    RangeError of a digit count outside 0..100.  Below 10^21 the string is the
    decimal with [fractionDigits] digits nearest to [num], ties away from
    zero; from 10^21 on it is the number's own string. *)
Definition toFixed {A : Type} (num : Q) (fractionDigits : Z) : M A Q :=
  if ((fractionDigits <? 0) || (100 <? fractionDigits))%Z then throw RangeError
  else if Qle_bool (10 ^ 21)%Q (Qabs num) then ret num
  else
    let n := Qfloor (Qabs num * inject_Z (10 ^ fractionDigits) + (1 # 2))%Q in
    let signed := if Qltb num 0 then (- n)%Z else n in
    ret (inject_Z signed / inject_Z (10 ^ fractionDigits))%Q.

(** [parseFloat] of such a string: its number, in lowest terms. *)
Definition parseFloat (decimal : Q) : Q := Qred decimal.

(** [Array.prototype.sort()] without a comparator orders the elements by
    their strings, compared by code units, and is stable: an insertion sort
    on the string keys. *)
Section DefaultSort.
Context {X : Type} (toString : X -> string).

Fixpoint sortInsert (x : X) (sorted : list X) : list X :=
  match sorted with
  | [] => [x]
  | y :: rest =>
      if String.leb (toString x) (toString y) then x :: y :: rest
      else y :: sortInsert x rest
  end.

Definition defaultSort (v : list X) : list X := foldr sortInsert [] v.
End DefaultSort.

(** [a.sort()]: in place. *)
Definition sortInPlace {A} (toString : A -> string) (a : loc) : M A unit :=
  let! v := readArray a in writeArray a (defaultSort toString v).

(** [for (const x of xs) body(x)] over a list that the body does not change. *)
Fixpoint forOf {A X} (xs : list X) (body : X -> M A unit) : M A unit :=
  match xs with
  | [] => ret tt
  | x :: rest => let! _ := body x in forOf rest body
  end.

(* ===================================================================== *)
(** ** rootFinding/rootFinding.js *)
(* ===================================================================== *)

(** The functions that [rootFinding.js] imports from files outside the
    modelled ones, and the built-in [String(x)] of a number that the default
    sort uses, are parameters.  As the specification describes the imported
    functions, they read their argument and return a new value: a boolean, a
    new polynomial, a list of intervals, a number. *)
Class Collaborators := {
  hasStrictlyNegativeRoots : list Q -> bool;
  hasStrictlyPositiveRoots : list Q -> bool;
  makeSquareFree : list Q -> list Q;
  isolatePositiveRealRootsContinuedFractions : list Q -> list (Q * Q);
  refineRootIntervalBisection : (Q -> Q) -> Q * Q -> Q -> Q;
  Number_toString : Q -> string
}.

Section RootFinding.
Context {collaborators : Collaborators}.

(** A call of a collaborator that returns a number, a boolean or a list of
    intervals. *)
Definition callOn {X} (f : list Q -> X) (polynomial : loc) : M Q X :=
  let! p := readArray polynomial in ret (f p).

(** A call of a collaborator that returns a new polynomial. *)
Definition callNew (f : list Q -> list Q) (polynomial : loc) : M Q loc :=
  let! p := readArray polynomial in newArray (f p).

(** [calculateDecimalPlacesFromPrecision(precision)] *)
Definition calculateDecimalPlacesFromPrecision (precision : Q) : Z :=
  if Qle_bool precision 0 then 0%Z
  else (- Math_floor_log10 precision)%Z.

(** [roundToPrecisionBasedOnDecimal(num, precision)] *)
Definition roundToPrecisionBasedOnDecimal (num precision : Q) : M Q Q :=
  let decimalPlaces := calculateDecimalPlacesFromPrecision precision in
  let! fixed := toFixed num decimalPlaces in
  ret (parseFloat fixed).

(** The loop of [insertRootSorted] from index [i] on, over the entries
    [rest] from that index: [None] when the function returns inside the
    loop, [Some insertIndex] otherwise. *)
Fixpoint scanRoots (rest : list Q) (i : nat) (newRoot tolerance : Q) : option nat :=
  match rest with
  | [] => Some i
  | r :: rest' =>
      if Qle_bool (Qabs (newRoot - r)) tolerance then None
      else if Qltb newRoot r then Some i
      else scanRoots rest' (S i) newRoot tolerance
  end.

(** [insertRootSorted(roots, newRoot, tolerance)]: in place, returns nothing.
    Every call in the source passes the tolerance. *)
Definition insertRootSorted (roots : loc) (newRoot tolerance : Q) : M Q unit :=
  let! v := readArray roots in
  match scanRoots v 0 newRoot tolerance with
  | None => ret tt
  | Some insertIndex => spliceInsert roots insertIndex newRoot
  end.

(** The closure [processRoots] of [findAllRealRoots]; [roots] and
    [precision] are the variables it captures.  [evaluateFunc] reads the
    polynomial when it is called. *)
Definition processRoots (roots : loc) (precision : Q)
    (polynomial : loc) (isNegative : bool) : M Q unit :=
  let! rootIntervals := callOn isolatePositiveRealRootsContinuedFractions polynomial in
  forOf rootIntervals (fun interval =>
    let! p := readArray polynomial in
    let evaluateFunc := fun x => evaluatePolynomial p x in
    let rawRoot := refineRootIntervalBisection evaluateFunc interval precision in
    let root := if isNegative then (- rawRoot)%Q else rawRoot in
    let! rounded := roundToPrecisionBasedOnDecimal root precision in
    insertRootSorted roots rounded precision).

(** [findAllRealRoots(polynomial, precision)]; a call without precision
    passes [1e-5]. *)
Definition findAllRealRoots (polynomial : loc) (precision : Q) : M Q loc :=
  let! roots := newArray [] in
  let! len := arrayLength polynomial in
  if len =? 0 then throw (Error "The polynomial cannot be empty.")
  else
    let! squareFreePolynomial := callNew makeSquareFree polynomial in
    let! constantTerm := getIndex polynomial 0 in
    let! _ := (if Qltb (Qabs constantTerm) EPSILON
               then let! _ := push roots 0%Q in spliceDelete polynomial 0 1
               else ret tt) in
    let! negative := callOn hasStrictlyNegativeRoots squareFreePolynomial in
    let! _ := (if negative
               then let! negatedPolynomial := scaleInput squareFreePolynomial (-1)%Q in
                    processRoots roots precision negatedPolynomial true
               else ret tt) in
    let! positive := callOn hasStrictlyPositiveRoots squareFreePolynomial in
    let! _ := (if positive
               then processRoots roots precision squareFreePolynomial false
               else ret tt) in
    ret roots.

(** [findStrictlyPositiveRoots(polynomial, precision)] *)
Definition findStrictlyPositiveRoots (polynomial : loc) (precision : Q) : M Q loc :=
  let! positive := callOn hasStrictlyPositiveRoots polynomial in
  if negb positive then newArray []
  else
    let! roots := newArray [] in
    let! squareFreePolynomial := callNew makeSquareFree polynomial in
    let! isolatedRootIntervals :=
      callOn isolatePositiveRealRootsContinuedFractions squareFreePolynomial in
    let! _ := forOf isolatedRootIntervals (fun interval =>
      let! p := readArray squareFreePolynomial in
      let evaluateFunc := fun x => evaluatePolynomial p x in
      let root := refineRootIntervalBisection evaluateFunc interval precision in
      push roots root) in
    ret roots.

(** [findStrictlyNegativeRoots(polynomial, precision)] *)
Definition findStrictlyNegativeRoots (polynomial : loc) (precision : Q) : M Q loc :=
  let! negative := callOn hasStrictlyNegativeRoots polynomial in
  if negb negative then newArray []
  else
    let! negatedNegativeRoots := newArray [] in
    let! squareFreePolynomial := callNew makeSquareFree polynomial in
    let! negatedPolynomial := scaleInput squareFreePolynomial (-1)%Q in
    let! isolatedRootIntervals :=
      callOn isolatePositiveRealRootsContinuedFractions negatedPolynomial in
    let! _ := forOf isolatedRootIntervals (fun interval =>
      let! p := readArray negatedPolynomial in
      let evaluateFunc := fun x => evaluatePolynomial p x in
      let root := refineRootIntervalBisection evaluateFunc interval precision in
      push negatedNegativeRoots root) in
    let! signCorrected := mapArray (fun root _ => (- root)%Q) negatedNegativeRoots in
    let! _ := sortInPlace Number_toString signCorrected in
    ret signCorrected.
End RootFinding.

(** Collaborators to run the orchestrator on concrete inputs: they take
    every polynomial for square-free with roots on both sides, isolate the
    intervals (1/2, 3/2) and (3/2, 5/2), refine to the midpoint, and print a
    number by its numerator (the numbers printed in the examples are
    integers). *)
Definition exampleCollaborators : Collaborators := {|
  hasStrictlyNegativeRoots := fun _ => true;
  hasStrictlyPositiveRoots := fun _ => true;
  makeSquareFree := fun p => p;
  isolatePositiveRealRootsContinuedFractions := fun _ => [(1 # 2, 3 # 2); (3 # 2, 5 # 2)]%Q;
  refineRootIntervalBisection :=
    fun _ interval _ => Qred ((fst interval + snd interval) / 2)%Q;
  Number_toString := fun q => pretty (Qnum q)
|}.

(* ********************************************************************* *)
(** * Part II: properties *)
(* ********************************************************************* *)

(* ===================================================================== *)
(** ** Exact binomial coefficients and finite sums *)
(* ===================================================================== *)

(** The binomial coefficient C(n, k), by Pascal's rule. *)
Fixpoint choose (n k : nat) : nat :=
  match n, k with
  | _, O => 1
  | O, S _ => 0
  | S n1, S k1 => choose n1 k1 + choose n1 k
  end.

Lemma choose_zero n : choose n 0 = 1.
Proof. destruct n; reflexivity. Qed.

Lemma choose_gt n : forall k, n < k -> choose n k = 0.
Proof.
  induction n as [|n IH]; intros [|k] Hk; simpl; try lia.
  rewrite !IH by lia. reflexivity.
Qed.

Lemma choose_diag n : choose n n = 1.
Proof.
  induction n as [|n IH]; simpl; [reflexivity|].
  rewrite IH, choose_gt by lia. reflexivity.
Qed.

Lemma choose_one n : choose n 1 = n.
Proof.
  induction n as [|n IH]; simpl; [reflexivity|].
  rewrite IH. destruct n; simpl; lia.
Qed.

(** [choose] is the quotient of factorials: C(n,k) k! (n-k)! = n!. *)
Lemma choose_fact n : forall k, k <= n ->
  choose n k * (fact k * fact (n - k)) = fact n.
Proof.
  induction n as [|n IH]; intros k Hk.
  - assert (k = 0) by lia. subst. reflexivity.
  - destruct k as [|k].
    + simpl. lia.
    + destruct (decide (k = n)) as [->|Hne].
      * rewrite choose_diag, Nat.sub_diag. simpl. lia.
      * assert (Hk1 : k <= n) by lia. assert (Hk2 : S k <= n) by lia.
        pose proof (IH k Hk1) as IH1. pose proof (IH (S k) Hk2) as IH2.
        change (choose (S n) (S k)) with (choose n k + choose n (S k)).
        replace (S n - S k) with (n - k) by lia.
        replace (n - k) with (S (n - S k)) in * by lia.
        change (fact (S n)) with (S n * fact n).
        change (fact (S k)) with (S k * fact k) in *.
        change (fact (S (n - S k))) with (S (n - S k) * fact (n - S k)) in *.
        replace (S n) with (S k + S (n - S k)) at 2 by lia.
        nia.
Qed.

Lemma choose_sym n k : k <= n -> choose n (n - k) = choose n k.
Proof.
  intros Hk.
  pose proof (choose_fact n k Hk) as H1.
  assert (Hk' : n - k <= n) by lia.
  pose proof (choose_fact n (n - k) Hk') as H2.
  replace (n - (n - k)) with k in H2 by lia.
  assert (Hpos : 0 < fact k * fact (n - k)).
  { pose proof (lt_O_fact k). pose proof (lt_O_fact (n - k)). nia. }
  nia.
Qed.

Lemma choose_pred n : 1 <= n -> choose n (n - 1) = n.
Proof.
  intros Hn. rewrite choose_sym by lia. apply choose_one.
Qed.

(* ===================================================================== *)
(** ** [binomial] returns the exact coefficient *)
(* ===================================================================== *)

(** Every value stored in the cache is the exact coefficient of its key. *)
Definition cache_ok (c : gmap string nat) : Prop :=
  forall n k v, c !! cacheKey n k = Some v -> v = choose n k.

Lemma cache_ok_empty : cache_ok ∅.
Proof. intros n k v Hv. rewrite lookup_empty in Hv. discriminate. Qed.

(** The keys of distinct pairs are distinct: the decimal numerals hold no
    comma, so a key splits at its first comma in one way only. *)
Fixpoint no_comma (s : string) : bool :=
  match s with
  | EmptyString => true
  | String c rest => negb (Ascii.eqb c ","%char) && no_comma rest
  end.

Lemma pretty_N_char_no_comma (x : N) : Ascii.eqb (pretty_N_char x) ","%char = false.
Proof. unfold pretty_N_char. repeat case_match; reflexivity. Qed.

Lemma pretty_N_go_no_comma (x : N) :
  forall s, no_comma s = true -> no_comma (pretty_N_go x s) = true.
Proof.
  induction (N.lt_wf_0 x) as [x _ IH]; intros s Hs.
  destruct (decide (x = 0)%N) as [->|Hx].
  - rewrite pretty_N_go_0. exact Hs.
  - rewrite pretty_N_go_step by lia. apply IH.
    + apply N.div_lt; lia.
    + simpl. rewrite pretty_N_char_no_comma. exact Hs.
Qed.

Lemma pretty_nat_no_comma (n : nat) : no_comma (pretty n) = true.
Proof.
  unfold pretty, pretty_nat, pretty, pretty_N.
  destruct (decide (N.of_nat n = 0%N)); [reflexivity|].
  apply pretty_N_go_no_comma. reflexivity.
Qed.

Lemma append_comma_inj (s1 : string) :
  forall s2 t1 t2 : string,
    no_comma s1 = true -> no_comma s2 = true ->
    s1 +:+ "," +:+ t1 = s2 +:+ "," +:+ t2 -> s1 = s2 /\ t1 = t2.
Proof.
  induction s1 as [|c1 s1 IH]; intros [|c2 s2] t1 t2 H1 H2 Heq; simpl in *.
  - inversion Heq. auto.
  - inversion Heq; subst c2. simpl in H2. discriminate.
  - inversion Heq; subst c1. simpl in H1. discriminate.
  - inversion Heq; subst c2.
    apply andb_true_iff in H1 as [_ H1]. apply andb_true_iff in H2 as [_ H2].
    destruct (IH s2 t1 t2 H1 H2) as [-> ->]; auto.
Qed.

Lemma cacheKey_inj (n k n' k' : nat) :
  cacheKey n k = cacheKey n' k' -> n = n' /\ k = k'.
Proof.
  unfold cacheKey. intros Heq.
  apply append_comma_inj in Heq as [Hn Hk]; try apply pretty_nat_no_comma.
  split; eapply pretty_nat_inj; eassumption.
Qed.

Lemma cache_ok_insert c n k :
  cache_ok c -> cache_ok (<[cacheKey n k := choose n k]> c).
Proof.
  intros Hc n' k' v Hv.
  destruct (decide (cacheKey n k = cacheKey n' k')) as [Heq|Hne].
  - rewrite Heq, lookup_insert_eq in Hv.
    apply cacheKey_inj in Heq as [-> ->]. congruence.
  - rewrite lookup_insert_ne in Hv by exact Hne. eauto.
Qed.

Section BinomialCorrect.
Context {A : Type}.

Lemma binomial_unfold (n k : nat) :
  @binomial A n k =
  if n <? k then ret 0
  else if (k =? 0) || (k =? n) then ret 1
  else if (k =? 1) || (k =? n - 1) then ret n
  else
    let k := if n <? 2 * k then n - k else k in
    let! fromTable := tableLookup n k in
    match fromTable with
    | Some value => ret value
    | None =>
        let key := cacheKey n k in
        let! cached := cacheGet key in
        match cached with
        | Some (S v) => ret (S v)
        | _ =>
            match n with
            | O => throw ReadUndefined
            | S n1 =>
                let! left := binomial n1 (k - 1) in
                let! right := binomial n1 k in
                let value := left + right in
                let! _ := cacheSet key value in
                ret value
            end
        end
    end.
Proof. destruct n; reflexivity. Qed.

(** Where the table is consulted it never reads a missing entry, and an
    entry it returns is the exact coefficient. *)
Lemma tableLookup_spec (n k : nat) (st : state A) :
  4 <= n -> 2 <= k -> 2 * k <= n ->
  tableLookup n k st = (Normal None, st) \/
  tableLookup n k st = (Normal (Some (choose n k)), st).
Proof.
  intros Hn Hk Hkn.
  destruct (decide (n <= 10)) as [Hle|Hgt].
  - do 11 (destruct n as [|n];
           [try lia; do 6 (try (destruct k as [|k]; try lia)); vm_compute; auto|]).
    lia.
  - unfold tableLookup.
    destruct (n <=? 10) eqn:E; [apply Nat.leb_le in E; lia|].
    left. reflexivity.
Qed.

Lemma binomial_correct (n : nat) :
  forall (k : nat) (st : state A),
    cache_ok (binomialCache st) ->
    exists c', binomial n k st = (Normal (choose n k), State (heap st) c')
               /\ cache_ok c'.
Proof.
  induction n as [|n1 IH]; intros k st Hc; rewrite binomial_unfold.
  - destruct k as [|k]; simpl.
    + exists (binomialCache st). destruct st; auto.
    + exists (binomialCache st). destruct st; auto.
  - destruct (S n1 <? k) eqn:E1.
    { apply Nat.ltb_lt in E1. rewrite choose_gt by lia.
      exists (binomialCache st). destruct st; auto. }
    apply Nat.ltb_ge in E1.
    destruct ((k =? 0) || (k =? S n1)) eqn:E2.
    { apply orb_true_iff in E2. destruct E2 as [E2|E2]; apply Nat.eqb_eq in E2; subst k.
      - exists (binomialCache st). destruct st; auto.
      - rewrite choose_diag. exists (binomialCache st). destruct st; auto. }
    apply orb_false_iff in E2. destruct E2 as [E2a E2b].
    apply Nat.eqb_neq in E2a, E2b.
    destruct ((k =? 1) || (k =? S n1 - 1)) eqn:E3.
    { apply orb_true_iff in E3. destruct E3 as [E3|E3]; apply Nat.eqb_eq in E3; subst k.
      - rewrite choose_one. exists (binomialCache st). destruct st; auto.
      - rewrite choose_pred by lia. exists (binomialCache st). destruct st; auto. }
    apply orb_false_iff in E3. destruct E3 as [E3a E3b].
    apply Nat.eqb_neq in E3a, E3b.
    set (k' := if S n1 <? 2 * k then S n1 - k else k).
    assert (Hk' : 2 <= k' /\ 2 * k' <= S n1 /\ choose (S n1) k' = choose (S n1) k).
    { subst k'. destruct (S n1 <? 2 * k) eqn:E4.
      - apply Nat.ltb_lt in E4. rewrite choose_sym by lia. lia.
      - apply Nat.ltb_ge in E4. lia. }
    destruct Hk' as (Hk2 & Hkn & Hch). rewrite <- Hch.
    cbv zeta. unfold bind at 1.
    destruct (tableLookup_spec (S n1) k' st) as [Ht|Ht]; try lia; rewrite Ht.
    2:{ exists (binomialCache st). destruct st; auto. }
    unfold bind at 1, cacheGet at 1.
    destruct (binomialCache st !! cacheKey (S n1) k') as [[|v]|] eqn:Hget.
    + apply Hc in Hget.
      destruct (IH (k' - 1) st Hc) as (c1 & Hrun1 & Hc1).
      destruct (IH k' (State (heap st) c1) Hc1) as (c2 & Hrun2 & Hc2).
      unfold bind. rewrite Hrun1, Hrun2. unfold cacheSet, ret. simpl.
      assert (Hv : choose n1 (k' - 1) + choose n1 k' = choose (S n1) k').
      { destruct k' as [|k'']; [lia|]. simpl. rewrite Nat.sub_0_r. reflexivity. }
      rewrite Hv. eexists. split; [reflexivity|]. apply cache_ok_insert, Hc2.
    + apply Hc in Hget. rewrite Hget.
      exists (binomialCache st). destruct st; auto.
    + destruct (IH (k' - 1) st Hc) as (c1 & Hrun1 & Hc1).
      destruct (IH k' (State (heap st) c1) Hc1) as (c2 & Hrun2 & Hc2).
      unfold bind. rewrite Hrun1, Hrun2. unfold cacheSet, ret. simpl.
      assert (Hv : choose n1 (k' - 1) + choose n1 k' = choose (S n1) k').
      { destruct k' as [|k'']; [lia|]. simpl. rewrite Nat.sub_0_r. reflexivity. }
      rewrite Hv. eexists. split; [reflexivity|]. apply cache_ok_insert, Hc2.
Qed.
End BinomialCorrect.

(* ===================================================================== *)
(** ** Polynomial algebra over a commutative ring *)
(* ===================================================================== *)

Section Algebra.
Context {A : Type} `{NumberRing A}.

Add Ring number_ring_inst : number_ring.

(** The sum of [f j] for [lo <= j < lo + count]. *)
Fixpoint sum_range (lo count : nat) (f : nat -> A) : A :=
  match count with
  | O => zero
  | S c => (f lo + sum_range (S lo) c f)%num
  end.

(** The coefficient of index [i], zero beyond the end. *)
Definition coef (p : list A) (i : nat) : A := default zero (p !! i).

Lemma sum_range_ext lo count f g :
  (forall j, lo <= j < lo + count -> f j = g j) ->
  sum_range lo count f = sum_range lo count g.
Proof.
  revert lo. induction count as [|c IH]; intros lo Hfg; simpl; [reflexivity|].
  rewrite (Hfg lo) by lia. rewrite (IH (S lo)); [reflexivity|].
  intros j Hj. apply Hfg. lia.
Qed.

Lemma sum_range_snoc lo count f :
  sum_range lo (S count) f = (sum_range lo count f + f (lo + count)%nat)%num.
Proof.
  revert lo. induction count as [|c IH]; intros lo.
  - simpl. rewrite Nat.add_0_r. ring.
  - change (sum_range lo (S (S c)) f) with (f lo + sum_range (S lo) (S c) f)%num.
    rewrite IH. simpl. replace (S (lo + c)%nat) with (lo + S c)%nat by lia. ring.
Qed.

Lemma sum_range_shift lo count f :
  sum_range (S lo) count f = sum_range lo count (fun j => f (S j)).
Proof.
  revert lo. induction count as [|c IH]; intros lo; simpl; [reflexivity|].
  rewrite IH. reflexivity.
Qed.

Lemma sum_range_add lo count f g :
  sum_range lo count (fun j => (f j + g j)%num) =
  (sum_range lo count f + sum_range lo count g)%num.
Proof.
  revert lo. induction count as [|c IH]; intros lo; simpl; [ring|].
  rewrite IH. ring.
Qed.

Lemma sum_range_scale lo count a f :
  sum_range lo count (fun j => (a * f j)%num) = (a * sum_range lo count f)%num.
Proof.
  revert lo. induction count as [|c IH]; intros lo; simpl; [ring|].
  rewrite IH. ring.
Qed.

Lemma fromNat_add m n : fromNat (m + n) = (fromNat m + fromNat n)%num :> A.
Proof. induction m as [|m IH]; simpl; [ring|]. rewrite IH. ring. Qed.

Lemma fromNat_one : fromNat 1 = one :> A.
Proof. simpl. ring. Qed.

Lemma Math_pow_S x n : Math_pow x (S n) = (x * Math_pow x n)%num.
Proof. reflexivity. Qed.

(** The binomial theorem, with the summand in the shape [taylorShift] uses. *)
Lemma binomial_theorem (x s : A) (n : nat) :
  sum_range 0 (S n)
    (fun k => (fromNat (choose n k) * Math_pow s (n - k)%nat * Math_pow x k)%num)
  = Math_pow (x + s)%num n.
Proof.
  induction n as [|n IH].
  - simpl. ring.
  - rewrite Math_pow_S, <- IH.
    change (sum_range 0 (S (S n)) ?f) with (f 0 + sum_range 1 (S n) f)%num.
    rewrite sum_range_shift. cbv beta.
    rewrite (sum_range_ext 0 (S n) _
      (fun k => (x * (fromNat (choose n k) * Math_pow s (n - k)%nat * Math_pow x k)
                 + fromNat (choose n (S k)) * Math_pow s (S n - S k)%nat
                   * Math_pow x (S k))%num)).
    2:{ intros j Hj. simpl choose. rewrite fromNat_add.
        replace (S n - S j)%nat with (n - j)%nat by lia. rewrite Math_pow_S. ring. }
    rewrite sum_range_add, sum_range_scale.
    pose (G' := fun k => (fromNat (choose n k) * Math_pow s (S n - k)%nat * Math_pow x k)%num).
    assert (Hs : (s * sum_range 0 (S n)
                    (fun k => fromNat (choose n k) * Math_pow s (n - k)%nat * Math_pow x k)
                 = fromNat (choose (S n) 0) * Math_pow s (S n - 0)%nat * Math_pow x 0
                   + sum_range 0 (S n)
                       (fun k => fromNat (choose n (S k)) * Math_pow s (S n - S k)%nat
                                 * Math_pow x (S k)))%num).
    { rewrite <- sum_range_scale.
      rewrite (sum_range_ext 0 (S n) _ G').
      2:{ intros j Hj. unfold G'. replace (S n - j)%nat with (S (n - j)) by lia.
          rewrite Math_pow_S. ring. }
      change (sum_range 0 (S n) G') with (G' 0 + sum_range 1 n G')%num.
      rewrite (sum_range_shift 0 n G').
      rewrite (sum_range_snoc 0 n
         (fun k => (fromNat (choose n (S k)) * Math_pow s (S n - S k)%nat
                    * Math_pow x (S k))%num)).
      rewrite (choose_gt n (S (0 + n)%nat)) by lia.
      unfold G'. cbv beta. rewrite !choose_zero, Nat.sub_0_r. simpl fromNat. ring. }
    rewrite Nat.sub_0_r in Hs.
    transitivity
      (x * sum_range 0 (S n)
             (fun k => fromNat (choose n k) * Math_pow s (n - k)%nat * Math_pow x k)
       + s * sum_range 0 (S n)
             (fun k => fromNat (choose n k) * Math_pow s (n - k)%nat * Math_pow x k))%num;
      [|ring].
    rewrite Hs. rewrite Nat.sub_0_r. ring.
Qed.
End Algebra.

Section Horner.
Context {A : Type} `{NumberRing A}.

Add Ring number_ring_horner : number_ring.

Lemma evaluatePolynomial_cons (a : A) (q : list A) (x : A) :
  evaluatePolynomial (a :: q) x = (evaluatePolynomial q x * x + a)%num.
Proof. reflexivity. Qed.

(** Horner's scheme computes the sum of the monomials. *)
Lemma evaluatePolynomial_sum (p : list A) (x : A) :
  evaluatePolynomial p x
  = sum_range 0 (length p) (fun i => (coef p i * Math_pow x i)%num).
Proof.
  induction p as [|a q IH]; [reflexivity|].
  rewrite evaluatePolynomial_cons, IH. simpl length.
  change (sum_range 0 (S (length q)) ?f) with (f 0 + sum_range 1 (length q) f)%num.
  rewrite sum_range_shift.
  rewrite (sum_range_ext 0 (length q) (fun j => (coef (a :: q) (S j) * Math_pow x (S j))%num)
             (fun j => (x * (coef q j * Math_pow x j))%num)).
  2:{ intros j _. unfold coef. simpl. ring. }
  rewrite sum_range_scale. unfold coef at 2. simpl. ring.
Qed.

(** Adding [d] to the coefficient of index [k] adds [d * x^k] to the value. *)
Lemma evaluatePolynomial_insert (cur : list A) (k : nat) (old d x : A) :
  cur !! k = Some old ->
  evaluatePolynomial (<[k := (old + d)%num]> cur) x
  = (evaluatePolynomial cur x + d * Math_pow x k)%num.
Proof.
  revert k. induction cur as [|a q IH]; intros k Hk; [discriminate|].
  destruct k as [|k]; simpl in Hk.
  - inversion Hk; subst. simpl. ring.
  - change (<[S k := (old + d)%num]> (a :: q)) with (a :: <[k := (old + d)%num]> q).
    rewrite !evaluatePolynomial_cons, (IH k Hk). simpl. ring.
Qed.
End Horner.

(* ===================================================================== *)
(** ** Running the array primitives and the loops *)
(* ===================================================================== *)

Section Runs.
Context {A : Type}.
Implicit Types (st : state A) (v : list A).

Lemma readArray_run st l v :
  heap st !! l = Some v -> readArray l st = (Normal v, st).
Proof. intros Hl. unfold readArray. rewrite Hl. reflexivity. Qed.

Lemma spread_run st l v :
  heap st !! l = Some v ->
  spread l st = (Normal (length (heap st)), State (heap st ++ [v]) (binomialCache st)).
Proof. intros Hl. unfold spread, bind. rewrite (readArray_run _ _ _ Hl). reflexivity. Qed.

Lemma arrayLength_run st l v :
  heap st !! l = Some v -> arrayLength l st = (Normal (length v), st).
Proof. intros Hl. unfold arrayLength, bind. rewrite (readArray_run _ _ _ Hl). reflexivity. Qed.

Lemma getIndex_run st l v i x :
  heap st !! l = Some v -> v !! i = Some x -> getIndex l i st = (Normal x, st).
Proof.
  intros Hl Hi. unfold getIndex, bind. rewrite (readArray_run _ _ _ Hl), Hi. reflexivity.
Qed.

Lemma setIndex_run st l v i x :
  heap st !! l = Some v -> i < length v ->
  setIndex l i x st
  = (Normal tt, State (<[l := <[i := x]> v]> (heap st)) (binomialCache st)).
Proof.
  intros Hl Hi. unfold setIndex, bind. rewrite (readArray_run _ _ _ Hl).
  destruct (decide (i < length v)); [reflexivity|lia].
Qed.

Lemma reverseInPlace_run st l v :
  heap st !! l = Some v ->
  reverseInPlace l st
  = (Normal tt, State (<[l := reverse v]> (heap st)) (binomialCache st)).
Proof. intros Hl. unfold reverseInPlace, bind. rewrite (readArray_run _ _ _ Hl). reflexivity. Qed.

Lemma spliceDelete_run st l v start deleteCount :
  heap st !! l = Some v ->
  spliceDelete l start deleteCount st
  = (Normal tt,
     State (<[l := take start v ++ drop (start + deleteCount) v]> (heap st))
           (binomialCache st)).
Proof. intros Hl. unfold spliceDelete, bind. rewrite (readArray_run _ _ _ Hl). reflexivity. Qed.

Lemma spliceInsert_run st l v start x :
  heap st !! l = Some v ->
  spliceInsert l start x st
  = (Normal tt, State (<[l := take start v ++ x :: drop start v]> (heap st))
                      (binomialCache st)).
Proof. intros Hl. unfold spliceInsert, bind. rewrite (readArray_run _ _ _ Hl). reflexivity. Qed.

Lemma push_run st l v x :
  heap st !! l = Some v ->
  push l x st = (Normal tt, State (<[l := v ++ [x]]> (heap st)) (binomialCache st)).
Proof. intros Hl. unfold push, bind. rewrite (readArray_run _ _ _ Hl). reflexivity. Qed.

Lemma mapArray_run st l v f :
  heap st !! l = Some v ->
  mapArray f l st
  = (Normal (length (heap st)),
     State (heap st ++ [imap (fun i x => f x i) v]) (binomialCache st)).
Proof. intros Hl. unfold mapArray, bind. rewrite (readArray_run _ _ _ Hl). reflexivity. Qed.

(** A loop whose body keeps an invariant runs to the end and keeps it. *)
Lemma for_count_inv (Inv : nat -> state A -> Prop) (body : nat -> M A unit) :
  forall count i st,
    Inv i st ->
    (forall j st1, i <= j < i + count -> Inv j st1 ->
       exists st2, body j st1 = (Normal tt, st2) /\ Inv (S j) st2) ->
    exists st', for_count count i body st = (Normal tt, st') /\ Inv (i + count) st'.
Proof.
  induction count as [|c IH]; intros i st Hinv Hbody.
  - exists st. rewrite Nat.add_0_r. split; [reflexivity|exact Hinv].
  - destruct (Hbody i st) as (st2 & Hrun & Hinv2); [lia|exact Hinv|].
    destruct (IH (S i) st2 Hinv2) as (st' & Hrun' & Hinv').
    { intros j st1 Hj. apply Hbody. lia. }
    exists st'. simpl. unfold bind. rewrite Hrun.
    replace (i + S c) with (S i + c) by lia. auto.
Qed.

(** The store just after a fresh array: the old arrays are in place. *)
Lemma lookup_heap_old (h : list (list A)) (cur : list A) l v :
  h !! l = Some v -> (h ++ [cur]) !! l = Some v.
Proof. intros Hl. rewrite lookup_app_l; [exact Hl|]. eapply lookup_lt_Some, Hl. Qed.

Lemma lookup_heap_new (h : list (list A)) (cur : list A) :
  (h ++ [cur]) !! length h = Some cur.
Proof. apply list_lookup_middle. reflexivity. Qed.

Lemma insert_heap_new (h : list (list A)) (cur cur' : list A) :
  <[length h := cur']> (h ++ [cur]) = h ++ [cur'].
Proof.
  rewrite insert_app_r_alt by lia. rewrite Nat.sub_diag. reflexivity.
Qed.
End Runs.

(* ===================================================================== *)
(** ** The Taylor shift *)
(* ===================================================================== *)

Section TaylorShift.
Context {A : Type} `{NumberRing A}.

Add Ring number_ring_taylor : number_ring.

(** The common shape of [taylorShift] and [taylorShiftBy1]: [update] is the
    right-hand side of the assignment to [newCoefficients[k]]. *)
Definition taylorLoop (update : A -> A -> nat -> nat -> nat -> A)
    (polynomial : loc) : M A loc :=
  let! newCoefficients := spread polynomial in
  let! len := arrayLength newCoefficients in
  let! _ := for_range 1 len (fun i =>
    for_range 0 i (fun k =>
      let! old := getIndex newCoefficients k in
      let! p_i := getIndex polynomial i in
      let! b := binomial i k in
      setIndex newCoefficients k (update old p_i b i k))) in
  ret newCoefficients.

Lemma taylorShift_loop polynomial shift :
  taylorShift polynomial shift
  = taylorLoop (fun old p_i b i k =>
                  (old + p_i * fromNat b * Math_pow shift (i - k)%nat)%num) polynomial.
Proof. reflexivity. Qed.

Lemma taylorShiftBy1_loop polynomial :
  taylorShiftBy1 polynomial
  = taylorLoop (fun old p_i b i k => (old + p_i * fromNat b)%num) polynomial.
Proof. reflexivity. Qed.

Section Loop.
Variable update : A -> A -> nat -> nat -> nat -> A.
Variable term : nat -> nat -> A.
Hypothesis update_term : forall old p_i i k,
  update old p_i (choose i k) i k = (old + p_i * term i k)%num.

Variable h : list (list A).
Variable l : loc.
Variable p : list A.
Hypothesis Hl : h !! l = Some p.

(** What the inner loop has added to the value for the term [i] once [k]
    entries are done, and what the outer loop has added before the term
    [i]. *)
Definition inner_sum (i k : nat) (x : A) : A :=
  sum_range 0 k (fun k' => (term i k' * Math_pow x k')%num).

Definition outer_sum (i : nat) (x : A) : A :=
  sum_range 1 (i - 1) (fun i' => (coef p i' * inner_sum i' i' x)%num).

(** The same coefficient by coefficient. *)
Definition inner_coef (start : list A) (i k j : nat) : A :=
  if j <? k then (coef start j + coef p i * term i j)%num else coef start j.

Definition outer_coef (i j : nat) : A :=
  (coef p j + sum_range (S j) (i - S j) (fun i' => coef p i' * term i' j))%num.

Definition inner_inv (start : list A) (i k : nat) (st : state A) : Prop :=
  exists cur c,
    st = State (h ++ [cur]) c /\ cache_ok c /\ length cur = length p /\
    (forall x, evaluatePolynomial cur x
               = (evaluatePolynomial start x + coef p i * inner_sum i k x)%num) /\
    (forall j, coef cur j = inner_coef start i k j).

Definition outer_inv (i : nat) (st : state A) : Prop :=
  exists cur c,
    st = State (h ++ [cur]) c /\ cache_ok c /\ length cur = length p /\
    (forall x, evaluatePolynomial cur x
               = (evaluatePolynomial p x + outer_sum i x)%num) /\
    (forall j, coef cur j = outer_coef i j).

Lemma inner_body_run start i k st :
  i < length p -> k < i -> inner_inv start i k st ->
  exists st2,
    (let! old := getIndex (length h) k in
     let! p_i := getIndex l i in
     let! b := binomial i k in
     setIndex (length h) k (update old p_i b i k)) st = (Normal tt, st2)
    /\ inner_inv start i (S k) st2.
Proof.
  intros Hi Hk (cur & c & -> & Hc & Hlen & Heval & Hcoef).
  destruct (lookup_lt_is_Some_2 cur k) as [old Hold]; [lia|].
  destruct (lookup_lt_is_Some_2 p i) as [p_i Hp_i]; [lia|].
  destruct (binomial_correct i k (State (h ++ [cur]) c) Hc) as (c' & Hb & Hc').
  unfold bind at 1.
  rewrite (getIndex_run _ (length h) cur k old); [|apply lookup_heap_new|exact Hold].
  unfold bind at 1.
  rewrite (getIndex_run _ l p i p_i); [|apply lookup_heap_old, Hl|exact Hp_i].
  unfold bind at 1. rewrite Hb.
  rewrite (setIndex_run _ (length h) cur); [|apply lookup_heap_new|lia].
  simpl heap. simpl binomialCache. rewrite insert_heap_new.
  eexists. split; [reflexivity|].
  exists (<[k := update old p_i (choose i k) i k]> cur), c'.
  split; [reflexivity|]. split; [exact Hc'|]. split; [rewrite length_insert; exact Hlen|].
  assert (Hp : coef p i = p_i) by (unfold coef; rewrite Hp_i; reflexivity).
  split.
  - intros x. rewrite update_term, (evaluatePolynomial_insert cur k old _ x Hold), Heval.
    unfold inner_sum. rewrite sum_range_snoc, Hp. simpl. ring.
  - intros j. unfold inner_coef. rewrite update_term.
    destruct (decide (j = k)) as [->|Hne].
    + unfold coef at 1. rewrite list_lookup_insert_eq by lia. simpl.
      assert (Hold' : coef cur k = old) by (unfold coef; rewrite Hold; reflexivity).
      rewrite Hcoef in Hold'. unfold inner_coef in Hold'.
      rewrite Nat.ltb_irrefl in Hold'. rewrite <- Hold', Hp.
      destruct (Nat.ltb_spec k (S k)); [reflexivity|lia].
    + unfold coef at 1. rewrite list_lookup_insert_ne by congruence.
      fold (coef cur j). rewrite Hcoef. unfold inner_coef.
      destruct (Nat.ltb_spec j k), (Nat.ltb_spec j (S k)); try reflexivity; lia.
Qed.

Lemma outer_body_run i st :
  1 <= i < length p -> outer_inv i st ->
  exists st2,
    for_range 0 i (fun k =>
      let! old := getIndex (length h) k in
      let! p_i := getIndex l i in
      let! b := binomial i k in
      setIndex (length h) k (update old p_i b i k)) st = (Normal tt, st2)
    /\ outer_inv (S i) st2.
Proof.
  intros Hi (cur & c & -> & Hc & Hlen & Heval & Hcoef).
  unfold for_range. rewrite Nat.sub_0_r.
  destruct (for_count_inv (inner_inv cur i)
              (fun k =>
                 let! old := getIndex (length h) k in
                 let! p_i := getIndex l i in
                 let! b := binomial i k in
                 setIndex (length h) k (update old p_i b i k))
              i 0 (State (h ++ [cur]) c)) as (st2 & Hrun & Hinv).
  - exists cur, c. repeat split; auto.
    intros x. unfold inner_sum. simpl. ring.
  - intros k st1 Hk Hinv1. apply inner_body_run; [lia|lia|exact Hinv1].
  - exists st2. split; [exact Hrun|].
    change (0 + i) with i in Hinv.
    destruct Hinv as (cur' & c' & -> & Hc' & Hlen' & Heval' & Hcoef').
    exists cur', c'. split; [reflexivity|]. split; [exact Hc'|]. split; [exact Hlen'|].
    split.
    + intros x. rewrite Heval', Heval. unfold outer_sum.
      replace (S i - 1) with (S (i - 1)) by lia.
      rewrite sum_range_snoc. replace (1 + (i - 1)) with i by lia. ring.
    + intros j. rewrite Hcoef'. unfold inner_coef. rewrite Hcoef. unfold outer_coef.
      destruct (Nat.ltb_spec j i) as [Hlt|Hge].
      * replace (S i - S j) with (S (i - S j)) by lia.
        rewrite sum_range_snoc. replace (S j + (i - S j)) with i by lia. ring.
      * replace (S i - S j) with 0 by lia. replace (i - S j) with 0 by lia. reflexivity.
Qed.

Lemma taylorLoop_run (c : gmap string nat) :
  cache_ok c ->
  exists q c',
    taylorLoop update l (State h c) = (Normal (length h), State (h ++ [q]) c')
    /\ cache_ok c' /\ length q = length p
    /\ (forall x, evaluatePolynomial q x
                  = (evaluatePolynomial p x + outer_sum (length p) x)%num)
    /\ (forall j, coef q j = outer_coef (length p) j).
Proof.
  intros Hc. unfold taylorLoop.
  unfold bind at 1. rewrite (spread_run _ l p) by exact Hl. simpl heap. simpl binomialCache.
  unfold bind at 1.
  rewrite (arrayLength_run _ (length h) p) by apply lookup_heap_new.
  unfold for_range at 1.
  destruct (for_count_inv outer_inv
              (fun i => for_range 0 i (fun k =>
                 let! old := getIndex (length h) k in
                 let! p_i := getIndex l i in
                 let! b := binomial i k in
                 setIndex (length h) k (update old p_i b i k)))
              (length p - 1) 1 (State (h ++ [p]) c)) as (st2 & Hrun & Hinv).
  - exists p, c. split; [reflexivity|]. split; [exact Hc|]. split; [reflexivity|]. split.
    + intros x. unfold outer_sum. simpl. ring.
    + intros j. unfold outer_coef. simpl. ring.
  - intros i st1 Hi Hinv1. apply outer_body_run; [lia|exact Hinv1].
  - unfold bind at 1. rewrite Hrun.
    destruct Hinv as (q & c' & -> & Hc' & Hlen' & Heval' & Hcoef').
    exists q, c'. split; [reflexivity|]. split; [exact Hc'|]. split; [exact Hlen'|]. split.
    + intros x. rewrite Heval'. unfold outer_sum.
      destruct (length p) as [|n]; [reflexivity|].
      replace (1 + (S n - 1) - 1) with (S n - 1) by lia. reflexivity.
    + intros j. rewrite Hcoef'. unfold outer_coef.
      destruct (length p) as [|n]; [reflexivity|].
      replace (1 + (S n - 1)) with (S n) by lia. reflexivity.
Qed.
End Loop.
End TaylorShift.

Section TaylorShiftCorrect.
Context {A : Type} `{NumberRing A}.

Add Ring number_ring_shift : number_ring.

(** The terms [k < i] of the binomial expansion of [(x + s)^i] are all of
    it but [x^i]. *)
Lemma expansion_below (x s : A) (i : nat) :
  (sum_range 0 i
     (fun k => fromNat (choose i k) * Math_pow s (i - k)%nat * Math_pow x k)
   + Math_pow x i)%num
  = Math_pow (x + s)%num i.
Proof.
  rewrite <- binomial_theorem, sum_range_snoc.
  change (0 + i)%nat with i. rewrite choose_diag, Nat.sub_diag. simpl. ring.
Qed.

Lemma shifted_value (p : list A) (term : nat -> nat -> A) (x y : A) :
  (forall i, (sum_range 0 i (fun k => term i k * Math_pow x k) + Math_pow x i
              = Math_pow y i)%num) ->
  (evaluatePolynomial p x + outer_sum term p (length p) x)%num
  = evaluatePolynomial p y.
Proof.
  intros Hterm. rewrite !evaluatePolynomial_sum. unfold outer_sum, inner_sum.
  destruct (length p) as [|m]; [simpl; ring|].
  change (sum_range 0 (S m) ?f) with (f 0 + sum_range 1 m f)%num.
  replace (S m - 1)%nat with m by lia.
  rewrite (sum_range_ext 1 m (fun i => (coef p i * Math_pow y i)%num)
             (fun i => (coef p i * Math_pow x i
                        + coef p i * sum_range 0 i (fun k => term i k * Math_pow x k))%num)).
  2:{ intros i _. rewrite <- Hterm. ring. }
  rewrite sum_range_add. simpl. ring.
Qed.

(** The coefficient of index [k] of the expansion: the sum over the terms
    [i >= k] of [p[i] * C(i,k) * shift^(i-k)]. *)
Definition shiftedCoefficient (p : list A) (shift : A) (k : nat) : A :=
  sum_range k (length p - k)
    (fun i => (coef p i * fromNat (choose i k) * Math_pow shift (i - k)%nat)%num).

Lemma outer_coef_shifted (p : list A) (shift : A) (k : nat) :
  outer_coef (fun i k => (fromNat (choose i k) * Math_pow shift (i - k)%nat)%num) p
    (length p) k
  = shiftedCoefficient p shift k.
Proof.
  unfold outer_coef, shiftedCoefficient.
  rewrite (sum_range_ext (S k) (length p - S k) _
             (fun i => (coef p i * fromNat (choose i k) * Math_pow shift (i - k)%nat)%num))
    by (intros; ring).
  destruct (Nat.lt_ge_cases k (length p)) as [Hlt|Hge].
  - replace (length p - k)%nat with (S (length p - S k)) by lia.
    cbn [sum_range]. rewrite choose_diag, Nat.sub_diag. simpl. ring.
  - replace (length p - k)%nat with 0%nat by lia.
    replace (length p - S k)%nat with 0%nat by lia.
    unfold coef. rewrite lookup_ge_None_2 by lia. simpl. ring.
Qed.

(** [taylorShift] leaves the store as it was, adds one fresh array and
    returns it; the new polynomial takes at [x] the value of the old one
    at [x + shift], and its coefficients are those of the expansion. *)
Lemma taylorShift_run (st : state A) (polynomial : loc) (p : list A) (shift : A) :
  heap st !! polynomial = Some p ->
  cache_ok (binomialCache st) ->
  exists q c',
    taylorShift polynomial shift st
    = (Normal (length (heap st)), State (heap st ++ [q]) c')
    /\ cache_ok c' /\ length q = length p
    /\ (forall x, evaluatePolynomial q x = evaluatePolynomial p (x + shift)%num)
    /\ (forall k, coef q k = shiftedCoefficient p shift k).
Proof.
  intros Hl Hc. destruct st as [h c]. simpl in *.
  rewrite taylorShift_loop.
  assert (Hupdate : forall (old p_i : A) (i k : nat),
            (old + p_i * fromNat (choose i k) * Math_pow shift (i - k)%nat
             = old + p_i * (fromNat (choose i k) * Math_pow shift (i - k)%nat))%num)
    by (intros; ring).
  destruct (taylorLoop_run
              (fun old p_i b i k =>
                 (old + p_i * fromNat b * Math_pow shift (i - k)%nat)%num)
              (fun i k => (fromNat (choose i k) * Math_pow shift (i - k)%nat)%num)
              Hupdate h polynomial p Hl c Hc)
    as (q & c' & Hrun & Hc' & Hlen & Heval & Hcoef).
  exists q, c'. split; [exact Hrun|]. split; [exact Hc'|]. split; [exact Hlen|]. split.
  - intros x. rewrite Heval. apply shifted_value.
    intros i. apply expansion_below.
  - intros k. rewrite Hcoef. apply outer_coef_shifted.
Qed.

Lemma taylorShiftBy1_run (st : state A) (polynomial : loc) (p : list A) :
  heap st !! polynomial = Some p ->
  cache_ok (binomialCache st) ->
  exists q c',
    taylorShiftBy1 polynomial st
    = (Normal (length (heap st)), State (heap st ++ [q]) c')
    /\ cache_ok c' /\ length q = length p
    /\ forall x, evaluatePolynomial q x = evaluatePolynomial p (x + one)%num.
Proof.
  intros Hl Hc. destruct st as [h c]. simpl in *.
  rewrite taylorShiftBy1_loop.
  destruct (taylorLoop_run
              (fun old p_i b i k => (old + p_i * fromNat b)%num)
              (fun i k => fromNat (choose i k))
              (fun old p_i i k => eq_refl) h polynomial p Hl c Hc)
    as (q & c' & Hrun & Hc' & Hlen & Heval & _).
  exists q, c'. repeat split; auto.
  intros x. rewrite Heval. apply shifted_value.
  intros i. rewrite <- expansion_below.
  f_equal. apply sum_range_ext. intros k _.
  assert (Hone : forall n, Math_pow (one : A) n = one).
  { induction n as [|n IH]; simpl; [reflexivity|]. rewrite IH. ring. }
  rewrite Hone. ring.
Qed.
End TaylorShiftCorrect.

(** C8. For every polynomial [p], real [shift] and real [x], the polynomial
    returned by [taylorShift(p, shift)] takes at [x] the value of [p] at
    [x + shift], and its coefficient of index [k] is the sum over the terms
    [i >= k] of [p[i] * C(i,k) * shift^(i-k)]; [p] itself is untouched and the
    result is a fresh array.  Along the way every [binomial(n, k)] with
    [0 <= k <= n] is the exact coefficient C(n, k), the one with
    C(n,k) k! (n-k)! = n!.  The cache holds exact coefficients before and
    after. *)
Theorem taylorShift_evaluates_shifted
    (st : state R) (polynomial : loc) (p : list R) (shift : R) :
  heap st !! polynomial = Some p ->
  cache_ok (binomialCache st) ->
  (forall n k, k <= n ->
     fst (binomial n k st) = Normal (choose n k)
     /\ choose n k * (fact k * fact (n - k)) = fact n)
  /\ exists q c',
       taylorShift polynomial shift st
       = (Normal (length (heap st)), State (heap st ++ [q]) c')
       /\ cache_ok c'
       /\ length q = length p
       /\ (forall x : R, evaluatePolynomial q x = evaluatePolynomial p (x + shift)%R)
       /\ (forall k, k < length p -> q !! k = Some (shiftedCoefficient p shift k)).
Proof.
  intros Hl Hc. split.
  - intros n k Hk. split; [|apply choose_fact, Hk].
    destruct (binomial_correct n k st Hc) as (c' & Hrun & _). rewrite Hrun. reflexivity.
  - destruct (taylorShift_run st polynomial p shift Hl Hc)
      as (q & c' & Hrun & Hc' & Hlen & Hev & Hcoef).
    exists q, c'. split; [exact Hrun|]. split; [exact Hc'|]. split; [exact Hlen|].
    split; [exact Hev|].
    intros k Hk. rewrite <- Hcoef. unfold coef.
    destruct (lookup_lt_is_Some_2 q k) as [v Hv]; [lia|]. rewrite Hv. reflexivity.
Qed.

Lemma taylorShift_evaluates_shifted_witness :
  (forall n k, k <= n ->
     fst (binomial n k (State [[1; 2; 3]%R] ∅)) = Normal (choose n k)
     /\ choose n k * (fact k * fact (n - k)) = fact n)
  /\ exists q c',
       taylorShift 0 2%R (State [[1; 2; 3]%R] ∅)
       = (Normal 1, State ([[1; 2; 3]%R] ++ [q]) c')
       /\ cache_ok c'
       /\ length q = 3
       /\ (forall x : R, evaluatePolynomial q x = evaluatePolynomial [1; 2; 3]%R (x + 2)%R)
       /\ (forall k, k < 3 -> q !! k = Some (shiftedCoefficient [1; 2; 3]%R 2%R k)).
Proof.
  apply (taylorShift_evaluates_shifted (State [[1; 2; 3]%R] ∅) 0 [1; 2; 3]%R 2%R).
  - reflexivity.
  - apply cache_ok_empty.
Defined.

(** [binomial] at work: C(10, 3) comes from the table, C(12, 6) from Pascal's
    rule, and is found in the cache under its key afterwards. *)
Example binomial_example :
  fst (binomial (A := Z) 10 3 (State [] ∅)) = Normal 120
  /\ fst (binomial (A := Z) 12 6 (State [] ∅)) = Normal 924
  /\ binomialCache (snd (binomial (A := Z) 12 6 (State [] ∅))) !! "12,6"%string = Some 924.
Proof. repeat split; vm_compute; reflexivity. Qed.

(** On integers the same run can be computed: 1 + 2x + 3x^2 + 4x^3 shifted by
    2 is 49 + 62x + 27x^2 + 4x^3. *)
Example taylorShift_example :
  taylorShift 0 2%Z (State [[1; 2; 3; 4]%Z] ∅)
  = (Normal 1, State [[1; 2; 3; 4]%Z; [49; 62; 27; 4]%Z] ∅).
Proof. reflexivity. Qed.

(* ===================================================================== *)
(** ** Scaling, reversal and the composite maps *)
(* ===================================================================== *)

Section Scaling.
Context {A : Type} `{Number A}.

(** The contents [scale] leaves in its array: every coefficient but the
    constant one is multiplied by the power of the factor. *)
Definition scaleContents (scaleFactor : A) (v : list A) : list A :=
  imap (fun i c => if 1 <=? i then (Math_pow scaleFactor i * c)%num else c) v.

(** The same with only the indices below [j] done. *)
Definition scaledBelow (scaleFactor : A) (j : nat) (v : list A) : list A :=
  imap (fun i c => if (1 <=? i) && (i <? j) then (Math_pow scaleFactor i * c)%num else c) v.

Lemma scaledBelow_start s v : scaledBelow s 1 v = v.
Proof.
  apply list_eq. intros i. unfold scaledBelow. rewrite list_lookup_imap.
  destruct (v !! i) as [c|]; [|reflexivity]. cbv beta.
  destruct (Nat.leb_spec 1 i), (Nat.ltb_spec i 1); simpl; try reflexivity; lia.
Qed.

Lemma scaledBelow_end s j v : length v <= j -> scaledBelow s j v = scaleContents s v.
Proof.
  intros Hj. apply list_eq. intros i. unfold scaledBelow, scaleContents.
  rewrite !list_lookup_imap.
  destruct (v !! i) as [c|] eqn:Hi; [|reflexivity]. cbv beta.
  apply lookup_lt_Some in Hi.
  destruct (Nat.leb_spec 1 i), (Nat.ltb_spec i j); simpl; try reflexivity; lia.
Qed.

Lemma scaledBelow_step s j v c :
  v !! j = Some c -> 1 <= j ->
  <[j := (Math_pow s j * c)%num]> (scaledBelow s j v) = scaledBelow s (S j) v.
Proof.
  intros Hj Hj1. apply list_eq. intros i.
  destruct (decide (i = j)) as [->|Hne].
  - rewrite list_lookup_insert_eq.
    2:{ unfold scaledBelow. rewrite length_imap. eapply lookup_lt_Some, Hj. }
    unfold scaledBelow. rewrite list_lookup_imap, Hj. cbv beta.
    destruct (Nat.leb_spec 1 j), (Nat.ltb_spec j (S j)); simpl; try reflexivity; lia.
  - rewrite list_lookup_insert_ne by congruence.
    unfold scaledBelow. rewrite !list_lookup_imap.
    destruct (v !! i) as [d|]; [|reflexivity]. cbv beta.
    destruct (Nat.leb_spec 1 i), (Nat.ltb_spec i j), (Nat.ltb_spec i (S j));
      simpl; try reflexivity; lia.
Qed.

Lemma scaledBelow_lookup_self s j v c :
  v !! j = Some c -> scaledBelow s j v !! j = Some c.
Proof.
  intros Hj. unfold scaledBelow. rewrite list_lookup_imap, Hj. cbv beta.
  destruct (Nat.leb_spec 1 j), (Nat.ltb_spec j j); simpl; try reflexivity; lia.
Qed.

(** [scale] rewrites its argument in place. *)
Lemma scale_run (st : state A) (l : loc) (v : list A) (s : A) :
  heap st !! l = Some v ->
  scale l s st
  = (Normal tt, State (<[l := scaleContents s v]> (heap st)) (binomialCache st)).
Proof.
  intros Hl. destruct st as [h c]. simpl in *.
  unfold scale. unfold bind at 1. rewrite (arrayLength_run _ l v) by exact Hl.
  unfold for_range.
  destruct (for_count_inv
              (fun j st1 => st1 = State (<[l := scaledBelow s j v]> h) c)
              (fun i => let! c0 := getIndex l i in
                        setIndex l i (Math_pow s i * c0)%num)
              (length v - 1) 1 (State h c)) as (st' & Hrun & Hinv).
  - rewrite scaledBelow_start, list_insert_id by exact Hl. reflexivity.
  - intros j st1 Hj ->.
    destruct (lookup_lt_is_Some_2 v j) as [cj Hcj]; [lia|].
    assert (Hll : l < length h) by (eapply lookup_lt_Some, Hl).
    unfold bind.
    rewrite (getIndex_run _ l (scaledBelow s j v) j cj);
      [|simpl; apply list_lookup_insert_eq, Hll|apply scaledBelow_lookup_self, Hcj].
    rewrite (setIndex_run _ l (scaledBelow s j v));
      [|simpl; apply list_lookup_insert_eq, Hll
       |unfold scaledBelow; rewrite length_imap; lia].
    simpl. rewrite list_insert_insert_eq, scaledBelow_step by (auto; lia).
    eexists. split; reflexivity.
  - rewrite Hrun, Hinv. rewrite scaledBelow_end by lia. reflexivity.
Qed.

Lemma scaleCoefficients_run (st : state A) (l : loc) (v : list A) (s : A) :
  heap st !! l = Some v ->
  scaleCoefficients l s st
  = (Normal tt, State (<[l := scaleContents s v]> (heap st)) (binomialCache st)).
Proof. apply scale_run. Qed.

Lemma scaleInput_run (st : state A) (l : loc) (v : list A) (s : A) :
  heap st !! l = Some v ->
  scaleInput l s st
  = (Normal (length (heap st)),
     State (heap st ++ [imap (fun i c => (Math_pow s i * c)%num) v]) (binomialCache st)).
Proof. intros Hl. unfold scaleInput. apply mapArray_run, Hl. Qed.

Lemma scaleInputInReverseOrder_run (st : state A) (l : loc) (v : list A) (s : A) :
  heap st !! l = Some v ->
  scaleInputInReverseOrder l s st
  = (Normal (length (heap st)),
     State (heap st ++ [imap (fun i c => (Math_pow s (length v - 1 - i) * c)%num) v])
           (binomialCache st)).
Proof.
  intros Hl. unfold scaleInputInReverseOrder, bind.
  rewrite (arrayLength_run _ l v) by exact Hl. apply mapArray_run, Hl.
Qed.

Lemma reversed_run (st : state A) (l : loc) (v : list A) :
  heap st !! l = Some v ->
  reversed l st
  = (Normal (length (heap st)), State (heap st ++ [reverse v]) (binomialCache st)).
Proof.
  intros Hl. unfold reversed. unfold bind at 1. rewrite (spread_run _ l v) by exact Hl.
  unfold bind. rewrite (reverseInPlace_run _ (length (heap st)) v).
  - simpl. rewrite insert_heap_new. reflexivity.
  - simpl. apply lookup_heap_new.
Qed.
End Scaling.

Section CompositeMaps.
Context {A : Type} `{NumberRing A}.

(** The compositions that the specification names for the composite maps:
    each kernel applied to the result of the one before. *)
Definition composedIntervalMap (polynomial : loc) (interval : A * A) : M A loc :=
  let '(a, b) := interval in
  let! shifted := taylorShift polynomial a in
  let! scaled := scaleInput shifted (b - a)%num in
  let! flipped := reversed scaled in
  taylorShiftBy1 flipped.

Definition composedUnitIntervalMap (polynomial : loc) : M A loc :=
  let! flipped := reversed polynomial in
  taylorShiftBy1 flipped.

Lemma insert_heap_below (h : list (list A)) (cur cur' : list A) (later : list (list A)) :
  <[length h := cur']> ((h ++ [cur]) ++ later) = (h ++ [cur']) ++ later.
Proof.
  rewrite insert_app_l by (rewrite length_app; simpl; lia).
  rewrite insert_heap_new. reflexivity.
Qed.

Lemma lookup_heap_below (h : list (list A)) (cur : list A) (later : list (list A)) :
  ((h ++ [cur]) ++ later) !! length h = Some cur.
Proof.
  rewrite lookup_app_l by (rewrite length_app; simpl; lia). apply lookup_heap_new.
Qed.

(** What [mapIntervalToPositiveReals] returns: the scaled coefficients in
    reverse order.  The two Taylor shifts only leave two more arrays
    behind. *)
Lemma mapIntervalToPositiveReals_run (st : state A) (l : loc) (p : list A) (a b : A) :
  heap st !! l = Some p ->
  cache_ok (binomialCache st) ->
  exists q1 q2 c',
    mapIntervalToPositiveReals l (a, b) st
    = (Normal (length (heap st)),
       State (heap st ++ [reverse (scaleContents (b - a)%num p); q1; q2]) c')
    /\ cache_ok c'.
Proof.
  intros Hl Hc. destruct st as [h c]. simpl in *.
  unfold mapIntervalToPositiveReals.
  unfold bind at 1. rewrite (spread_run _ l p) by exact Hl. simpl heap. simpl binomialCache.
  destruct (taylorShift_run (State (h ++ [p]) c) (length h) p a)
    as (q1 & c1 & Hrun1 & Hc1 & _); [apply lookup_heap_new|exact Hc|].
  unfold bind at 1. rewrite Hrun1. simpl heap.
  unfold bind at 1. rewrite (scale_run _ (length h) p) by apply lookup_heap_below.
  simpl heap. simpl binomialCache. rewrite insert_heap_below.
  unfold bind at 1.
  rewrite (reverseInPlace_run _ (length h) (scaleContents (b - a)%num p))
    by apply lookup_heap_below.
  simpl heap. simpl binomialCache. rewrite insert_heap_below.
  destruct (taylorShiftBy1_run
              (State ((h ++ [reverse (scaleContents (b - a)%num p)]) ++ [q1]) c1)
              (length h) (reverse (scaleContents (b - a)%num p)))
    as (q2 & c2 & Hrun2 & Hc2 & _); [apply lookup_heap_below|exact Hc1|].
  unfold bind. rewrite Hrun2. simpl heap.
  exists q1, q2, c2. split; [|exact Hc2].
  unfold ret. rewrite <- !app_assoc. reflexivity.
Qed.

(** What [mapUnitIntervalToPositiveReals] returns: the coefficients in
    reverse order. *)
Lemma mapUnitIntervalToPositiveReals_run (st : state A) (l : loc) (p : list A) :
  heap st !! l = Some p ->
  cache_ok (binomialCache st) ->
  exists q c',
    mapUnitIntervalToPositiveReals l st
    = (Normal (length (heap st)), State (heap st ++ [reverse p; q]) c')
    /\ cache_ok c'.
Proof.
  intros Hl Hc. destruct st as [h c]. simpl in *.
  unfold mapUnitIntervalToPositiveReals.
  unfold bind at 1. rewrite (spread_run _ l p) by exact Hl. simpl heap. simpl binomialCache.
  unfold bind at 1.
  rewrite (reverseInPlace_run _ (length h) p) by apply lookup_heap_new.
  simpl heap. simpl binomialCache. rewrite insert_heap_new.
  destruct (taylorShiftBy1_run (State (h ++ [reverse p]) c) (length h) (reverse p))
    as (q & c' & Hrun & Hc' & _); [apply lookup_heap_new|exact Hc|].
  unfold bind. rewrite Hrun. simpl heap.
  exists q, c'. split; [|exact Hc'].
  unfold ret. rewrite <- !app_assoc. reflexivity.
Qed.

Lemma transformedForLowerInterval_run (st : state A) (l : loc) (p : list A) (s : A) :
  heap st !! l = Some p ->
  cache_ok (binomialCache st) ->
  exists q c',
    transformedForLowerInterval l s st
    = (Normal (length (heap st)), State (heap st ++ [reverse (scaleContents s p); q]) c')
    /\ cache_ok c'.
Proof.
  intros Hl Hc. destruct st as [h c]. simpl in *.
  unfold transformedForLowerInterval.
  unfold bind at 1. rewrite (spread_run _ l p) by exact Hl. simpl heap. simpl binomialCache.
  unfold bind at 1.
  rewrite (scaleCoefficients_run _ (length h) p) by apply lookup_heap_new.
  simpl heap. simpl binomialCache. rewrite insert_heap_new.
  unfold bind at 1.
  rewrite (reverseInPlace_run _ (length h) (scaleContents s p)) by apply lookup_heap_new.
  simpl heap. simpl binomialCache. rewrite insert_heap_new.
  destruct (taylorShift_run (State (h ++ [reverse (scaleContents s p)]) c) (length h)
              (reverse (scaleContents s p)) one)
    as (q & c' & Hrun & Hc' & _); [apply lookup_heap_new|exact Hc|].
  unfold bind. rewrite Hrun. simpl heap.
  exists q, c'. split; [|exact Hc'].
  unfold ret. rewrite <- !app_assoc. reflexivity.
Qed.

(** A call returns a fresh array and leaves every array of the caller as it
    was: the store only grows at its end and the result is the first new
    reference. *)
Definition returns_fresh (m : M A loc) (st : state A) : Prop :=
  exists result later c',
    m st = (Normal (length (heap st)), State (heap st ++ result :: later) c').

(** The exported transform kernels do not touch their argument. *)
Lemma transform_kernels_return_fresh (st : state A) (l : loc) (p : list A) (s a b : A) :
  heap st !! l = Some p ->
  cache_ok (binomialCache st) ->
  returns_fresh (taylorShift l s) st /\
  returns_fresh (taylorShiftBy1 l) st /\
  returns_fresh (reversed l) st /\
  returns_fresh (scaleInput l s) st /\
  returns_fresh (scaleInputInReverseOrder l s) st /\
  returns_fresh (mapIntervalToPositiveReals l (a, b)) st /\
  returns_fresh (mapUnitIntervalToPositiveReals l) st /\
  returns_fresh (transformedForLowerInterval l s) st.
Proof.
  intros Hl Hc. unfold returns_fresh. repeat split.
  - destruct (taylorShift_run st l p s Hl Hc) as (q & c' & Hrun & _). eauto.
  - destruct (taylorShiftBy1_run st l p Hl Hc) as (q & c' & Hrun & _). eauto.
  - rewrite (reversed_run st l p Hl). eauto.
  - rewrite (scaleInput_run st l p s Hl). eauto.
  - rewrite (scaleInputInReverseOrder_run st l p s Hl). eauto.
  - destruct (mapIntervalToPositiveReals_run st l p a b Hl Hc) as (q1 & q2 & c' & Hrun & _).
    eauto.
  - destruct (mapUnitIntervalToPositiveReals_run st l p Hl Hc) as (q & c' & Hrun & _). eauto.
  - destruct (transformedForLowerInterval_run st l p s Hl Hc) as (q & c' & Hrun & _). eauto.
Qed.
End CompositeMaps.

(** C1, on the polynomial 3 + 2x and the interval [-2, -1].  The call returns
    the array 1, which holds 2 + 3x: the coefficients scaled by the width 1
    and reversed; the two Taylor shifts went into the arrays 2 and 3 that
    nobody reads.  The composition that the claim names gives 1 - x.  The
    root -3/2 of the input lies in the interval, yet the returned polynomial
    has no positive root. *)
Theorem mapIntervalToPositiveReals_drops_the_shifts :
  mapIntervalToPositiveReals 0 (-2, -1)%Q (State [[3; 2]%Q] ∅)
  = (Normal 1, State [[3; 2]; [2; 3]; [-1; 2]; [5; 3]]%Q ∅)
  /\ composedIntervalMap 0 (-2, -1)%Q (State [[3; 2]%Q] ∅)
     = (Normal 4, State [[3; 2]; [-1; 2]; [-1; 2]; [2; -1]; [1; -1]]%Q ∅)
  /\ (evaluatePolynomial [3; 2] (-3 # 2) == 0 /\ -2 < -3 # 2 /\ -3 # 2 < -1)%Q
  /\ (forall x : Q, 0 < x -> ~ evaluatePolynomial [2; 3] x == 0)%Q.
Proof.
  split; [reflexivity|]. split; [reflexivity|]. split.
  - split; [reflexivity|]. split; reflexivity.
  - intros x Hx Hroot.
    change (evaluatePolynomial [2; 3] x)%Q with ((0 * x + 3) * x + 2)%Q in Hroot. lra.
Qed.

(** C2, on the polynomial -2 + x.  The call returns the array 1, which holds
    the reversed coefficients 1 - 2x; the Taylor shift by 1 went into the
    array 2 that nobody reads.  [taylorShiftBy1(reversed(p))] is -1 - 2x.
    The input has no root in (0, 1), yet the returned polynomial has the
    positive root 1/2. *)
Theorem mapUnitIntervalToPositiveReals_drops_the_shift :
  mapUnitIntervalToPositiveReals 0 (State [[-2; 1]%Q] ∅)
  = (Normal 1, State [[-2; 1]; [1; -2]; [-1; -2]]%Q ∅)
  /\ composedUnitIntervalMap 0 (State [[-2; 1]%Q] ∅)
     = (Normal 2, State [[-2; 1]; [1; -2]; [-1; -2]]%Q ∅)
  /\ (forall x : Q, 0 < x -> x < 1 -> ~ evaluatePolynomial [-2; 1] x == 0)%Q
  /\ (evaluatePolynomial [1; -2] (1 # 2) == 0)%Q.
Proof.
  split; [reflexivity|]. split; [reflexivity|]. split.
  - intros x Hx0 Hx1 Hroot.
    change (evaluatePolynomial [-2; 1] x)%Q with ((0 * x + 1) * x + -2)%Q in Hroot. lra.
  - reflexivity.
Qed.

(* ===================================================================== *)
(** ** The decimal logarithm and the rounding step *)
(* ===================================================================== *)

Lemma pos_lt_pow10 (p : positive) : (Zpos p < 10 ^ Z.of_nat (Pos.size_nat p))%Z.
Proof.
  induction p as [p IH|p IH|]; simpl Pos.size_nat.
  - rewrite Nat2Z.inj_succ, Z.pow_succ_r by lia. lia.
  - rewrite Nat2Z.inj_succ, Z.pow_succ_r by lia. lia.
  - reflexivity.
Qed.

Lemma Qpow10_nat (s : nat) : (10 ^ Z.of_nat s == inject_Z (10 ^ Z.of_nat s))%Q.
Proof. rewrite Zpower_Qpower by lia. reflexivity. Qed.

Lemma Qpow10_pos (e : Z) : (0 < 10 ^ e)%Q.
Proof. apply Qpower_0_lt. reflexivity. Qed.

Lemma Qpow10_le (a b : Z) : (a <= b)%Z -> (10 ^ a <= 10 ^ b)%Q.
Proof. intros Hab. apply Qpower_le_compat_l; [exact Hab|discriminate]. Qed.

Lemma log10_up_spec (fuel : nat) (q : Q) :
  forall e : Z,
    (10 ^ e <= q)%Q -> (q < 10 ^ (e + Z.of_nat fuel + 1))%Q ->
    (10 ^ log10_up fuel q e <= q /\ q < 10 ^ (log10_up fuel q e + 1))%Q.
Proof.
  induction fuel as [|f IH]; intros e Hlo Hhi; simpl log10_up.
  - rewrite Z.add_0_r in Hhi. auto.
  - destruct (Qle_bool (10 ^ (e + 1)) q) eqn:E.
    + apply Qle_bool_iff in E. apply IH; [exact E|].
      replace (e + 1 + Z.of_nat f + 1)%Z with (e + Z.of_nat (S f) + 1)%Z by lia. exact Hhi.
    + split; [exact Hlo|]. apply Qnot_le_lt. intros Hle.
      apply Qle_bool_iff in Hle. congruence.
Qed.

Lemma log10_down_spec (fuel : nat) (q : Q) :
  forall e : Z,
    (q < 10 ^ (e + 1))%Q -> (10 ^ (e - Z.of_nat fuel) <= q)%Q ->
    (10 ^ log10_down fuel q e <= q /\ q < 10 ^ (log10_down fuel q e + 1))%Q.
Proof.
  induction fuel as [|f IH]; intros e Hhi Hlo; simpl log10_down.
  - rewrite Z.sub_0_r in Hlo. auto.
  - destruct (Qle_bool (10 ^ e) q) eqn:E.
    + apply Qle_bool_iff in E. auto.
    + apply IH.
      * replace (e - 1 + 1)%Z with e by lia. apply Qnot_le_lt. intros Hle.
        apply Qle_bool_iff in Hle. congruence.
      * replace (e - 1 - Z.of_nat f)%Z with (e - Z.of_nat (S f))%Z by lia. exact Hlo.
Qed.

(** [Math_floor_log10 q] is the exponent of the decade of [q]. *)
Lemma Math_floor_log10_spec (q : Q) :
  (0 < q)%Q ->
  (10 ^ Math_floor_log10 q <= q /\ q < 10 ^ (Math_floor_log10 q + 1))%Q.
Proof.
  intros Hq. unfold Math_floor_log10.
  destruct q as [n d]. unfold Qlt in Hq. simpl in Hq. rewrite Z.mul_1_r in Hq.
  destruct n as [|n|n]; try lia.
  destruct (Qle_bool 1 (Zpos n # d)) eqn:E.
  - apply Qle_bool_iff in E.
    apply log10_up_spec; [exact E|]. simpl Qnum. simpl Z.to_pos.
    apply Qle_lt_trans with (inject_Z (Zpos n)).
    + unfold Qle. simpl. nia.
    + apply Qlt_le_trans with (10 ^ Z.of_nat (Pos.size_nat n))%Q.
      * rewrite Qpow10_nat. rewrite <- Zlt_Qlt. apply pos_lt_pow10.
      * apply Qpow10_le. lia.
  - assert (Hlt : (Zpos n # d < 1)%Q).
    { apply Qnot_le_lt. intros Hle. apply Qle_bool_iff in Hle. congruence. }
    apply log10_down_spec; [exact Hlt|]. simpl Qden.
    apply Qle_trans with (10 ^ (- Z.of_nat (Pos.size_nat d)))%Q; [apply Qpow10_le; lia|].
    rewrite Qpower_opp, Qpow10_nat.
    pose proof (pos_lt_pow10 d) as Hd.
    destruct (10 ^ Z.of_nat (Pos.size_nat d))%Z as [|t|t] eqn:Et; try lia.
    unfold Qle. simpl. nia.
Qed.

Lemma Math_floor_log10_nonpos (q : Q) :
  (0 < q)%Q -> ((Math_floor_log10 q <= 0)%Z <-> (q < 10)%Q).
Proof.
  intros Hq. destruct (Math_floor_log10_spec q Hq) as [Hlo Hhi]. split.
  - intros He. apply Qlt_le_trans with (10 ^ (Math_floor_log10 q + 1))%Q; [exact Hhi|].
    change 10%Q with (10 ^ 1)%Q at 2. apply Qpow10_le. lia.
  - intros Hlt.
    assert (H1 : (10 ^ Math_floor_log10 q < 10 ^ 1)%Q)
      by (apply Qle_lt_trans with q; [exact Hlo|exact Hlt]).
    apply Qpower_lt_compat_l_inv in H1; [lia|reflexivity].
Qed.

Lemma Math_floor_log10_ge (q : Q) (m : Z) :
  (0 < q)%Q -> ((m <= Math_floor_log10 q)%Z <-> (10 ^ m <= q)%Q).
Proof.
  intros Hq. destruct (Math_floor_log10_spec q Hq) as [Hlo Hhi]. split.
  - intros He. apply Qle_trans with (10 ^ Math_floor_log10 q)%Q; [|exact Hlo].
    apply Qpow10_le. exact He.
  - intros Hle.
    assert (H1 : (10 ^ m < 10 ^ (Math_floor_log10 q + 1))%Q)
      by (apply Qle_lt_trans with q; [exact Hle|exact Hhi]).
    apply Qpower_lt_compat_l_inv in H1; [lia|reflexivity].
Qed.

(** [r] is [num] rounded to [digits] decimal places the way [toFixed] does
    it: below 10^21 a multiple of 10^-digits at most half a unit of the last
    place away, from 10^21 on the number itself. *)
Definition rounded_to (num : Q) (digits : Z) (r : Q) : Prop :=
  ((Qabs num < 10 ^ 21 ->
      (exists n : Z, r == inject_Z n / 10 ^ digits)
      /\ Qabs (r - num) <= (1 # 2) / 10 ^ digits)
   /\ (10 ^ 21 <= Qabs num -> r == num))%Q.

Section ToFixed.
Local Open Scope Q_scope.

Lemma toFixed_out_of_range {A : Type} (num : Q) (digits : Z) (st : state A) :
  (digits < 0 \/ 100 < digits)%Z -> toFixed num digits st = (Throw RangeError, st).
Proof.
  intros Hd. unfold toFixed.
  destruct (Z.ltb_spec digits 0), (Z.ltb_spec 100 digits); simpl; try reflexivity; lia.
Qed.

Lemma toFixed_in_range {A : Type} (num : Q) (digits : Z) (st : state A) :
  (0 <= digits <= 100)%Z ->
  exists r, toFixed num digits st = (Normal r, st) /\ rounded_to num digits r.
Proof.
  intros Hd. unfold toFixed.
  destruct (Z.ltb_spec digits 0), (Z.ltb_spec 100 digits); simpl orb; cbv iota; try lia.
  destruct (Qle_bool (10 ^ 21) (Qabs num)) eqn:Ebig.
  - apply Qle_bool_iff in Ebig. exists num. split; [reflexivity|]. split.
    + intros Hsmall. exfalso. apply (Qlt_irrefl (Qabs num)).
      apply Qlt_le_trans with (10 ^ 21)%Q; assumption.
    + reflexivity.
  - assert (Hsmall : (Qabs num < 10 ^ 21)%Q).
    { apply Qnot_le_lt. intros Hle. apply Qle_bool_iff in Hle. congruence. }
    eexists. split; [reflexivity|]. split.
    2:{ intros Hbig. exfalso. apply (Qlt_irrefl (Qabs num)).
        apply Qlt_le_trans with (10 ^ 21)%Q; assumption. }
    intros _.
    assert (Hpow : (inject_Z (10 ^ digits) == 10 ^ digits)%Q)
      by (rewrite Zpower_Qpower by lia; reflexivity).
    pose proof (Qpow10_pos digits) as Hpos.
    set (S := (10 ^ digits)%Q) in *.
    set (n := Qfloor (Qabs num * inject_Z (10 ^ digits) + (1 # 2))).
    pose proof (Qfloor_le (Qabs num * inject_Z (10 ^ digits) + (1 # 2))) as Hlo.
    pose proof (Qlt_floor (Qabs num * inject_Z (10 ^ digits) + (1 # 2))) as Hhi.
    fold n in Hlo, Hhi. rewrite inject_Z_plus in Hhi. rewrite Hpow in Hlo, Hhi.
    change (inject_Z 1) with 1 in Hhi. clearbody n.
    split.
    + exists (if Qltb num 0 then (- n)%Z else n). rewrite Hpow. reflexivity.
    + rewrite Hpow. apply Qabs_Qle_condition.
      assert (Hne : ~ S == 0) by (intros Hz; rewrite Hz in Hpos; discriminate).
      clear Hpow. clearbody S.
      unfold Qltb. destruct (Qle_bool 0 num) eqn:Esign; simpl negb; cbv iota.
      * apply Qle_bool_iff in Esign. rewrite (Qabs_pos num Esign) in Hlo, Hhi.
        split; apply (Qmult_le_r _ _ S Hpos).
        -- setoid_replace (- ((1 # 2) / S) * S) with (- (1 # 2))
             using relation Qeq by (field; exact Hne).
           setoid_replace ((inject_Z n / S - num) * S) with (inject_Z n - num * S)
             using relation Qeq by (field; exact Hne).
           lra.
        -- setoid_replace ((1 # 2) / S * S) with (1 # 2)
             using relation Qeq by (field; exact Hne).
           setoid_replace ((inject_Z n / S - num) * S) with (inject_Z n - num * S)
             using relation Qeq by (field; exact Hne).
           lra.
      * assert (Hneg : num <= 0).
        { apply Qlt_le_weak, Qnot_le_lt. intros Hle. apply Qle_bool_iff in Hle. congruence. }
        rewrite (Qabs_neg num Hneg) in Hlo, Hhi. rewrite inject_Z_opp.
        split; apply (Qmult_le_r _ _ S Hpos).
        -- setoid_replace (- ((1 # 2) / S) * S) with (- (1 # 2))
             using relation Qeq by (field; exact Hne).
           setoid_replace ((- inject_Z n / S - num) * S) with (- inject_Z n - num * S)
             using relation Qeq by (field; exact Hne).
           lra.
        -- setoid_replace ((1 # 2) / S * S) with (1 # 2)
             using relation Qeq by (field; exact Hne).
           setoid_replace ((- inject_Z n / S - num) * S) with (- inject_Z n - num * S)
             using relation Qeq by (field; exact Hne).
           lra.
Qed.
End ToFixed.

Section RoundingStep.
Local Open Scope Q_scope.

Lemma rounded_to_Qeq (num : Q) (digits : Z) (r r' : Q) :
  r == r' -> rounded_to num digits r -> rounded_to num digits r'.
Proof.
  intros Heq [Hsmall Hbig]. split.
  - intros Hlt. destruct (Hsmall Hlt) as [[n Hn] Hnear]. split.
    + exists n. rewrite <- Heq. exact Hn.
    + rewrite <- Heq. exact Hnear.
  - intros Hge. rewrite <- Heq. apply Hbig, Hge.
Qed.

Lemma roundToPrecisionBasedOnDecimal_in_range (num precision : Q) (st : state Q) :
  (0 <= calculateDecimalPlacesFromPrecision precision <= 100)%Z ->
  exists r, roundToPrecisionBasedOnDecimal num precision st = (Normal r, st)
            /\ rounded_to num (calculateDecimalPlacesFromPrecision precision) r.
Proof.
  intros Hd. unfold roundToPrecisionBasedOnDecimal, bind.
  destruct (toFixed_in_range num _ st Hd) as (r & Hrun & Hr). rewrite Hrun.
  exists (parseFloat r). split; [reflexivity|].
  apply (rounded_to_Qeq num _ r); [|exact Hr].
  unfold parseFloat. symmetry. apply Qred_correct.
Qed.

Lemma roundToPrecisionBasedOnDecimal_out_of_range (num precision : Q) (st : state Q) :
  (calculateDecimalPlacesFromPrecision precision < 0
   \/ 100 < calculateDecimalPlacesFromPrecision precision)%Z ->
  roundToPrecisionBasedOnDecimal num precision st = (Throw RangeError, st).
Proof.
  intros Hd. unfold roundToPrecisionBasedOnDecimal, bind.
  rewrite (toFixed_out_of_range num _ st Hd). reflexivity.
Qed.

(** The rounding step never reads or writes the store. *)
Lemma roundToPrecisionBasedOnDecimal_state (num precision : Q) (st : state Q) :
  roundToPrecisionBasedOnDecimal num precision st
  = (fst (roundToPrecisionBasedOnDecimal num precision (State [] ∅)), st).
Proof.
  unfold roundToPrecisionBasedOnDecimal, bind, toFixed.
  destruct ((_ <? 0)%Z || (100 <? _)%Z); [reflexivity|].
  destruct (Qle_bool _ _); reflexivity.
Qed.

(** C9, as the code has it.  A precision [<= 0] means zero decimal places and
    the rounding succeeds.  For a positive precision the number of places is
    [-floor(log10(precision))], the exponent of the decade of the precision
    negated; the rounding succeeds when the precision lies in
    [10^-100, 10), where that number is between 0 and 100, and raises the
    RangeError of [toFixed] for every other positive precision. *)
Theorem rounding_total_between_decades (num precision : Q) (st : state Q) :
  let decimalPlaces := calculateDecimalPlacesFromPrecision precision in
  (precision <= 0 ->
     decimalPlaces = 0%Z
     /\ exists r, roundToPrecisionBasedOnDecimal num precision st = (Normal r, st)
                  /\ rounded_to num 0 r)
  /\ (0 < precision ->
      (10 ^ (- decimalPlaces) <= precision /\ precision < 10 ^ (- decimalPlaces + 1))
      /\ (10 ^ (-100) <= precision -> precision < 10 ->
          (0 <= decimalPlaces <= 100)%Z
          /\ exists r, roundToPrecisionBasedOnDecimal num precision st = (Normal r, st)
                       /\ rounded_to num decimalPlaces r)
      /\ (10 <= precision \/ precision < 10 ^ (-100) ->
          roundToPrecisionBasedOnDecimal num precision st = (Throw RangeError, st))).
Proof.
  intros decimalPlaces. split.
  - intros Hle.
    assert (Hd : decimalPlaces = 0%Z).
    { subst decimalPlaces. unfold calculateDecimalPlacesFromPrecision.
      apply Qle_bool_iff in Hle. rewrite Hle. reflexivity. }
    split; [exact Hd|].
    destruct (roundToPrecisionBasedOnDecimal_in_range num precision st) as (r & Hrun & Hr).
    { fold decimalPlaces. lia. }
    fold decimalPlaces in Hr. rewrite Hd in Hr. eauto.
  - intros Hpos.
    assert (Hd : decimalPlaces = (- Math_floor_log10 precision)%Z).
    { subst decimalPlaces. unfold calculateDecimalPlacesFromPrecision.
      destruct (Qle_bool precision 0) eqn:E; [|reflexivity].
      apply Qle_bool_iff in E. exfalso. apply (Qlt_irrefl 0).
      apply Qlt_le_trans with precision; assumption. }
    pose proof (Math_floor_log10_spec precision Hpos) as [Hlo Hhi].
    pose proof (Math_floor_log10_nonpos precision Hpos) as Hten.
    pose proof (Math_floor_log10_ge precision (-100) Hpos) as Hsmall.
    split; [|split].
    + rewrite Hd, Z.opp_involutive. auto.
    + intros H100 H10.
      assert (Hrange : (0 <= decimalPlaces <= 100)%Z).
      { apply Hten in H10. apply Hsmall in H100. lia. }
      split; [exact Hrange|].
      apply roundToPrecisionBasedOnDecimal_in_range. exact Hrange.
    + intros Hout. apply roundToPrecisionBasedOnDecimal_out_of_range.
      fold decimalPlaces. destruct Hout as [H10|H100].
      * left. rewrite Hd.
        assert (~ (Math_floor_log10 precision <= 0)%Z); [|lia].
        intros He. apply Hten in He. apply (Qlt_irrefl 10).
        apply Qle_lt_trans with precision; assumption.
      * right. rewrite Hd.
        assert (~ (-100 <= Math_floor_log10 precision)%Z); [|lia].
        intros He. apply Hsmall in He. apply (Qlt_irrefl precision).
        apply Qlt_le_trans with (10 ^ (-100)); assumption.
Qed.

Lemma rounding_total_between_decades_witness :
  (0 <= calculateDecimalPlacesFromPrecision (1 # 100000) <= 100)%Z
  /\ exists r,
       roundToPrecisionBasedOnDecimal (1234567 # 1000000) (1 # 100000) (State [] ∅)
       = (Normal r, State [] ∅)
       /\ rounded_to (1234567 # 1000000) (calculateDecimalPlacesFromPrecision (1 # 100000)) r.
Proof.
  destruct (rounding_total_between_decades (1234567 # 1000000) (1 # 100000) (State [] ∅))
    as [_ Hpos].
  destruct (Hpos eq_refl) as (_ & Hin & _).
  apply Hin; [discriminate|reflexivity].
Defined.

(** C9 as stated fails: with the precision 10 the number of decimal places
    is -1 and [toFixed] raises a RangeError, which leaves [findAllRealRoots]
    with the first root it tries to round. *)
Lemma rounding_throws_at_precision_10 :
  calculateDecimalPlacesFromPrecision 10 = (-1)%Z
  /\ roundToPrecisionBasedOnDecimal 1 10 (State [] ∅) = (Throw RangeError, State [] ∅)
  /\ fst (findAllRealRoots (collaborators := exampleCollaborators) 0%nat 10
            (State [[-1; 1]] ∅)) = Throw RangeError.
Proof. repeat split. Qed.

Example rounding_example :
  roundToPrecisionBasedOnDecimal (1234567 # 1000000) (1 # 100000) (State [] ∅)
  = (Normal (123457 # 100000), State [] ∅).
Proof. reflexivity. Qed.
End RoundingStep.

(* ===================================================================== *)
(** ** The sorted root list *)
(* ===================================================================== *)

Section RootList.
Local Open Scope Q_scope.

(** The contents [insertRootSorted] leaves in [roots]. *)
Definition insertedRoots (v : list Q) (newRoot tolerance : Q) : list Q :=
  match scanRoots v 0 newRoot tolerance with
  | None => v
  | Some insertIndex => take insertIndex v ++ newRoot :: drop insertIndex v
  end.

Lemma insertRootSorted_run (st : state Q) (roots : loc) (v : list Q) (newRoot tolerance : Q) :
  heap st !! roots = Some v ->
  insertRootSorted roots newRoot tolerance st
  = (Normal tt,
     State (<[roots := insertedRoots v newRoot tolerance]> (heap st)) (binomialCache st)).
Proof.
  intros Hl. unfold insertRootSorted, insertedRoots, bind.
  rewrite (readArray_run _ _ _ Hl).
  destruct (scanRoots v 0 newRoot tolerance) as [i|].
  - apply spliceInsert_run, Hl.
  - rewrite list_insert_id by exact Hl. destruct st; reflexivity.
Qed.

(** A root list: strictly increasing, neighbours more than the tolerance
    apart. *)
Fixpoint root_list (tolerance : Q) (v : list Q) : Prop :=
  match v with
  | a :: rest =>
      match rest with
      | b :: _ => a < b /\ tolerance < b - a
      | [] => True
      end /\ root_list tolerance rest
  | [] => True
  end.

Lemma Qabs_gt (x t : Q) : t < Qabs x <-> x < - t \/ t < x.
Proof.
  destruct (Qlt_le_dec x 0) as [Hneg|Hpos].
  - rewrite (Qabs_neg x) by lra. split; [intros; left; lra|intros [?|?]; lra].
  - rewrite (Qabs_pos x) by lra. split; [intros; right; lra|intros [?|?]; lra].
Qed.

Lemma Qltb_true (x y : Q) : Qltb x y = true <-> x < y.
Proof.
  unfold Qltb. rewrite negb_true_iff. split.
  - intros E. apply Qnot_le_lt. intros Hle. apply Qle_bool_iff in Hle. congruence.
  - intros Hlt. destruct (Qle_bool y x) eqn:E; [|reflexivity].
    apply Qle_bool_iff in E. lra.
Qed.

Lemma Qltb_false (x y : Q) : Qltb x y = false <-> y <= x.
Proof.
  unfold Qltb. rewrite negb_false_iff. apply Qle_bool_iff.
Qed.

Section Scan.
Variables newRoot tolerance : Q.

Lemma scanRoots_Some (rest : list Q) :
  forall i insertIndex,
    scanRoots rest i newRoot tolerance = Some insertIndex ->
    exists before after,
      rest = before ++ after
      /\ insertIndex = (i + length before)%nat
      /\ (forall r, r ∈ before -> tolerance < Qabs (newRoot - r) /\ r <= newRoot)
      /\ match after with
         | [] => True
         | r :: _ => tolerance < Qabs (newRoot - r) /\ newRoot < r
         end.
Proof.
  induction rest as [|r rest IH]; intros i idx Hscan; cbn [scanRoots] in Hscan.
  - inversion Hscan; subst. exists [], []. simpl.
    split; [reflexivity|]. split; [lia|]. split; [|exact I].
    intros r Hr. apply elem_of_nil in Hr. contradiction.
  - destruct (Qle_bool (Qabs (newRoot - r)) tolerance) eqn:Enear; [discriminate|].
    assert (Hfar : tolerance < Qabs (newRoot - r)).
    { apply Qnot_le_lt. intros Hle. apply Qle_bool_iff in Hle. congruence. }
    destruct (Qltb newRoot r) eqn:Elt.
    + inversion Hscan; subst. apply Qltb_true in Elt.
      exists [], (r :: rest). simpl.
      split; [reflexivity|]. split; [lia|]. split; [|auto].
      intros r' Hr'. apply elem_of_nil in Hr'. contradiction.
    + apply Qltb_false in Elt.
      destruct (IH (S i) idx Hscan) as (before & after & -> & -> & Hbefore & Hafter).
      exists (r :: before), after. simpl.
      split; [reflexivity|]. split; [lia|]. split; [|exact Hafter].
      intros r' Hr'. apply elem_of_cons in Hr' as [->|Hr']; [auto|apply Hbefore, Hr'].
Qed.

Lemma scanRoots_None (rest : list Q) :
  forall i,
    scanRoots rest i newRoot tolerance = None ->
    exists r, r ∈ rest /\ Qabs (newRoot - r) <= tolerance.
Proof.
  induction rest as [|r rest IH]; intros i Hscan; cbn [scanRoots] in Hscan; [discriminate|].
  destruct (Qle_bool (Qabs (newRoot - r)) tolerance) eqn:Enear.
  - apply Qle_bool_iff in Enear. exists r. split; [apply elem_of_cons; auto|exact Enear].
  - destruct (Qltb newRoot r); [discriminate|].
    destruct (IH (S i) Hscan) as (r' & Hin & Hnear).
    exists r'. split; [apply elem_of_cons; auto|exact Hnear].
Qed.
End Scan.

Lemma root_list_tail (tolerance a : Q) (rest : list Q) :
  root_list tolerance (a :: rest) -> root_list tolerance rest.
Proof. intros [_ H]. exact H. Qed.

(** With a tolerance that is not negative, every later entry is more than
    the tolerance above the first. *)
Lemma root_list_above_head (tolerance : Q) (rest : list Q) :
  0 <= tolerance ->
  forall a, root_list tolerance (a :: rest) ->
            forall r, r ∈ rest -> tolerance < r - a.
Proof.
  intros Htol. induction rest as [|b rest IH]; intros a [Hab Hrest] r Hr.
  - apply elem_of_nil in Hr. contradiction.
  - apply elem_of_cons in Hr as [->|Hr]; [lra|].
    pose proof (IH b Hrest r Hr). lra.
Qed.

Lemma root_list_insert (tolerance newRoot : Q) (before after : list Q) :
  0 <= tolerance ->
  root_list tolerance (before ++ after) ->
  (forall r, r ∈ before -> tolerance < newRoot - r) ->
  (forall r, r ∈ after -> tolerance < r - newRoot) ->
  root_list tolerance (before ++ newRoot :: after).
Proof.
  intros Htol. induction before as [|a before IH]; intros Hlist Hbefore Hafter.
  - simpl in *. split; [|exact Hlist].
    destruct after as [|b after]; [exact I|].
    pose proof (Hafter b ltac:(apply elem_of_cons; auto)). split; lra.
  - simpl app in *. destruct Hlist as [Hhead Htail].
    assert (Ha : tolerance < newRoot - a) by (apply Hbefore, elem_of_cons; auto).
    split.
    + destruct before as [|b before]; simpl app in *; [split; lra|exact Hhead].
    + apply IH; [exact Htail| |exact Hafter].
      intros r Hr. apply Hbefore, elem_of_cons. auto.
Qed.

(** The pure content of C7 for a tolerance that is not negative. *)
Lemma insertedRoots_spec (tolerance newRoot : Q) (v : list Q) :
  0 <= tolerance ->
  root_list tolerance v ->
  root_list tolerance (insertedRoots v newRoot tolerance)
  /\ ((exists r, r ∈ v /\ Qabs (newRoot - r) <= tolerance) ->
      insertedRoots v newRoot tolerance = v)
  /\ ((forall r, r ∈ v -> tolerance < Qabs (newRoot - r)) ->
      exists before after,
        v = before ++ after
        /\ insertedRoots v newRoot tolerance = before ++ newRoot :: after
        /\ (forall r, r ∈ before -> r < newRoot)
        /\ (forall r, r ∈ after -> newRoot < r)).
Proof.
  intros Htol Hlist. unfold insertedRoots.
  destruct (scanRoots v 0 newRoot tolerance) as [idx|] eqn:Hscan.
  - destruct (scanRoots_Some newRoot tolerance v 0 idx Hscan)
      as (before & after & -> & -> & Hbefore & Hafter).
    simpl Nat.add. rewrite take_app_length, drop_app_length.
    assert (Hb : forall r, r ∈ before -> tolerance < newRoot - r).
    { intros r Hr. destruct (Hbefore r Hr) as [Hfar Hle].
      apply Qabs_gt in Hfar. destruct Hfar; lra. }
    assert (Ha : forall r, r ∈ after -> tolerance < r - newRoot).
    { destruct after as [|a after].
      - intros r Hr. apply elem_of_nil in Hr. contradiction.
      - destruct Hafter as [Hfar Hlt]. apply Qabs_gt in Hfar.
        assert (Hhead : tolerance < a - newRoot) by (destruct Hfar; lra).
        assert (Hsuffix : root_list tolerance (a :: after)).
        { clear - Hlist. induction before as [|b before IH]; [exact Hlist|].
          apply IH. eapply root_list_tail, Hlist. }
        intros r Hr. apply elem_of_cons in Hr as [->|Hr]; [exact Hhead|].
        pose proof (root_list_above_head tolerance after Htol a Hsuffix r Hr). lra. }
    split; [apply root_list_insert; auto|]. split.
    + intros (r & Hin & Hnear). exfalso.
      apply elem_of_app in Hin as [Hin|Hin].
      * pose proof (Hb r Hin). apply Qabs_Qle_condition in Hnear. lra.
      * pose proof (Ha r Hin). apply Qabs_Qle_condition in Hnear. lra.
    + intros _. exists before, after. repeat split; auto.
      * intros r Hr. pose proof (Hb r Hr). lra.
      * intros r Hr. pose proof (Ha r Hr). lra.
  - split; [exact Hlist|]. split; [reflexivity|].
    intros Hfar. exfalso.
    destruct (scanRoots_None newRoot tolerance v 0 Hscan) as (r & Hin & Hnear).
    pose proof (Hfar r Hin). lra.
Qed.
End RootList.

(* ===================================================================== *)
(** ** Running the orchestrator *)
(* ===================================================================== *)

Section Orchestrator.
Context {collaborators : Collaborators}.


(** What the rounding step gives, in any store. *)
Definition roundingOutcome (num precision : Q) : outcome Q :=
  fst (roundToPrecisionBasedOnDecimal num precision (State [] ∅)).

(** The root list after [processRoots] has gone through [intervals], and
    whether the rounding step threw on the way. *)
Fixpoint processedRoots (p : list Q) (isNegative : bool) (precision : Q)
    (intervals : list (Q * Q)) (roots : list Q) : outcome unit * list Q :=
  match intervals with
  | [] => (Normal tt, roots)
  | interval :: rest =>
      let rawRoot :=
        refineRootIntervalBisection (fun x => evaluatePolynomial p x) interval precision in
      let root := if isNegative then (- rawRoot)%Q else rawRoot in
      match roundingOutcome root precision with
      | Normal rounded =>
          processedRoots p isNegative precision rest
            (insertedRoots roots rounded precision)
      | Throw e => (Throw e, roots)
      end
  end.

(** The coefficients of [scaleInput(p, -1)]. *)
Definition negatedContents (p : list Q) : list Q :=
  imap (fun i c => (Math_pow (-1)%Q i * c)%num) p.

(** The root list that [findAllRealRoots] builds from the square-free
    polynomial, starting from [roots]. *)
Definition rootsFromSquareFree (squareFree : list Q) (precision : Q) (roots : list Q)
  : outcome unit * list Q :=
  let afterNegative :=
    if hasStrictlyNegativeRoots squareFree
    then processedRoots (negatedContents squareFree) true precision
           (isolatePositiveRealRootsContinuedFractions (negatedContents squareFree)) roots
    else (Normal tt, roots) in
  match fst afterNegative with
  | Throw e => (Throw e, snd afterNegative)
  | Normal _ =>
      if hasStrictlyPositiveRoots squareFree
      then processedRoots squareFree false precision
             (isolatePositiveRealRootsContinuedFractions squareFree) (snd afterNegative)
      else (Normal tt, snd afterNegative)
  end.

Lemma forOf_processRoots_run (roots polynomial : loc) (p : list Q)
    (isNegative : bool) (precision : Q) (intervals : list (Q * Q)) :
  roots <> polynomial ->
  forall (rs : list Q) (st : state Q),
    heap st !! roots = Some rs ->
    heap st !! polynomial = Some p ->
    forOf intervals (fun interval =>
      let! p := readArray polynomial in
      let evaluateFunc := fun x => evaluatePolynomial p x in
      let rawRoot := refineRootIntervalBisection evaluateFunc interval precision in
      let root := if isNegative then (- rawRoot)%Q else rawRoot in
      let! rounded := roundToPrecisionBasedOnDecimal root precision in
      insertRootSorted roots rounded precision) st
    = (fst (processedRoots p isNegative precision intervals rs),
       State (<[roots := snd (processedRoots p isNegative precision intervals rs)]> (heap st))
             (binomialCache st)).
Proof.
  intros Hne. induction intervals as [|interval rest IH]; intros rs st Hroots Hpoly.
  - simpl. unfold ret. rewrite list_insert_id by exact Hroots. destruct st; reflexivity.
  - cbn [forOf processedRoots]. unfold bind at 1. unfold bind at 1.
    rewrite (readArray_run _ _ _ Hpoly). cbv zeta. unfold bind at 1.
    rewrite roundToPrecisionBasedOnDecimal_state. fold (roundingOutcome
      (if isNegative
       then (- refineRootIntervalBisection (fun x => evaluatePolynomial p x) interval precision)%Q
       else refineRootIntervalBisection (fun x => evaluatePolynomial p x) interval precision)
      precision).
    destruct (roundingOutcome _ precision) as [rounded|e].
    + rewrite (insertRootSorted_run _ _ rs) by exact Hroots.
      assert (Hlt : roots < length (heap st)) by (eapply lookup_lt_Some, Hroots).
      rewrite IH with (rs := insertedRoots rs rounded precision).
      * simpl. rewrite list_insert_insert_eq. reflexivity.
      * simpl. apply list_lookup_insert_eq, Hlt.
      * simpl. rewrite list_lookup_insert_ne by exact Hne. exact Hpoly.
    + simpl. rewrite list_insert_id by exact Hroots. destruct st; reflexivity.
Qed.

Lemma processRoots_run (roots polynomial : loc) (p rs : list Q)
    (isNegative : bool) (precision : Q) (st : state Q) :
  roots <> polynomial ->
  heap st !! roots = Some rs ->
  heap st !! polynomial = Some p ->
  processRoots roots precision polynomial isNegative st
  = (fst (processedRoots p isNegative precision
            (isolatePositiveRealRootsContinuedFractions p) rs),
     State (<[roots := snd (processedRoots p isNegative precision
                              (isolatePositiveRealRootsContinuedFractions p) rs)]> (heap st))
           (binomialCache st)).
Proof.
  intros Hne Hroots Hpoly. unfold processRoots. unfold bind at 1.
  unfold callOn. unfold bind at 1. rewrite (readArray_run _ _ _ Hpoly). unfold ret at 1.
  apply forOf_processRoots_run; assumption.
Qed.
(** The store seen from the orchestrator: the caller's arrays [h], then the
    root list, the square-free polynomial and what was allocated later. *)
Lemma lookup_roots (h : list (list Q)) (rs : list Q) (later : list (list Q)) :
  (h ++ rs :: later) !! length h = Some rs.
Proof. apply list_lookup_middle. reflexivity. Qed.

Lemma lookup_squareFree (h : list (list Q)) (rs sq : list Q) (later : list (list Q)) :
  (h ++ rs :: sq :: later) !! S (length h) = Some sq.
Proof.
  rewrite lookup_app_r by lia. replace (S (length h) - length h) with 1 by lia. reflexivity.
Qed.

Lemma lookup_negated (h : list (list Q)) (rs sq neg : list Q) (later : list (list Q)) :
  (h ++ rs :: sq :: neg :: later) !! S (S (length h)) = Some neg.
Proof.
  rewrite lookup_app_r by lia. replace (S (S (length h)) - length h) with 2 by lia.
  reflexivity.
Qed.

Lemma insert_roots (h : list (list Q)) (rs rs' : list Q) (later : list (list Q)) :
  <[length h := rs']> (h ++ rs :: later) = h ++ rs' :: later.
Proof. rewrite insert_app_r_alt by lia. rewrite Nat.sub_diag. reflexivity. Qed.

Lemma findAllRealRoots_tail (h : list (list Q)) (rs sq : list Q)
    (c : gmap string nat) (precision : Q) (roots squareFreePolynomial : loc) :
  roots = length h ->
  squareFreePolynomial = S (length h) ->
  exists later,
    (let! negative := callOn hasStrictlyNegativeRoots squareFreePolynomial in
     let! _ := (if negative
                then let! negatedPolynomial := scaleInput squareFreePolynomial (-1)%Q in
                     processRoots roots precision negatedPolynomial true
                else ret tt) in
     let! positive := callOn hasStrictlyPositiveRoots squareFreePolynomial in
     let! _ := (if positive
                then processRoots roots precision squareFreePolynomial false
                else ret tt) in
     ret roots) (State (h ++ [rs; sq]) c)
    = (match fst (rootsFromSquareFree sq precision rs) with
       | Normal _ => Normal roots
       | Throw e => Throw e
       end,
       State (h ++ snd (rootsFromSquareFree sq precision rs) :: sq :: later) c).
Proof.
  intros -> ->. unfold rootsFromSquareFree.
  unfold bind at 1. unfold callOn at 1. unfold bind at 1.
  rewrite (readArray_run _ (S (length h)) sq) by apply lookup_squareFree.
  unfold ret at 1.
  assert (Hpositive : forall (rs1 : list Q) (later : list (list Q)),
    exists later',
      (let! positive := callOn hasStrictlyPositiveRoots (S (length h)) in
       let! _ := (if positive
                  then processRoots (length h) precision (S (length h)) false
                  else ret tt) in
       ret (length h)) (State (h ++ rs1 :: sq :: later) c)
      = (match fst (if hasStrictlyPositiveRoots sq
                    then processedRoots sq false precision
                           (isolatePositiveRealRootsContinuedFractions sq) rs1
                    else (Normal tt, rs1)) with
         | Normal _ => Normal (length h)
         | Throw e => Throw e
         end,
         State (h ++ snd (if hasStrictlyPositiveRoots sq
                          then processedRoots sq false precision
                                 (isolatePositiveRealRootsContinuedFractions sq) rs1
                          else (Normal tt, rs1)) :: sq :: later') c)).
  { intros rs1 later. exists later.
    unfold bind at 1. unfold callOn at 1. unfold bind at 1.
    rewrite (readArray_run _ (S (length h)) sq) by apply lookup_squareFree.
    unfold ret at 1.
    destruct (hasStrictlyPositiveRoots sq).
    - unfold bind at 1.
      rewrite (processRoots_run (length h) (S (length h)) sq rs1);
        [|lia|apply lookup_roots|apply lookup_squareFree].
      simpl heap. simpl binomialCache. rewrite insert_roots.
      destruct (fst (processedRoots sq false precision _ rs1)); reflexivity.
    - reflexivity. }
  destruct (hasStrictlyNegativeRoots sq).
  - unfold bind at 1. unfold bind at 1.
    rewrite (scaleInput_run _ (S (length h)) sq) by apply lookup_squareFree.
    simpl heap. simpl binomialCache.
    replace (length (h ++ [rs; sq])) with (S (S (length h)))
      by (rewrite length_app; simpl; lia).
    rewrite <- app_assoc. simpl app. fold (negatedContents sq).
    rewrite (processRoots_run (length h) (S (S (length h))) (negatedContents sq) rs);
      [|lia|apply lookup_roots|apply lookup_negated].
    simpl heap. simpl binomialCache. rewrite insert_roots.
    destruct (processedRoots (negatedContents sq) true precision _ rs) as [[[]|e] rs1].
    + simpl fst. simpl snd. cbv iota. apply Hpositive.
    + simpl. eexists. reflexivity.
  - unfold bind at 1. unfold ret at 1. simpl fst. simpl snd. cbv iota. apply Hpositive.
Qed.

(** The whole run on a polynomial that is not empty.  The caller's array
    loses its first entry when the constant term is numerically zero; the
    square-free reduction is the one of the polynomial as it was passed. *)
Lemma findAllRealRoots_run (st : state Q) (polynomial : loc)
    (constantTerm : Q) (higher : list Q) (precision : Q) :
  heap st !! polynomial = Some (constantTerm :: higher) ->
  let atZero := Qltb (Qabs constantTerm) EPSILON in
  let squareFree := makeSquareFree (constantTerm :: higher) in
  let result := rootsFromSquareFree squareFree precision (if atZero then [0%Q] else []) in
  exists later,
    findAllRealRoots polynomial precision st
    = (match fst result with
       | Normal _ => Normal (length (heap st))
       | Throw e => Throw e
       end,
       State (<[polynomial := if atZero then higher else constantTerm :: higher]> (heap st)
              ++ snd result :: squareFree :: later)
             (binomialCache st)).
Proof.
  intros Hl atZero squareFree result. destruct st as [h c]. simpl in Hl. simpl heap.
  simpl binomialCache.
  assert (Hlt : polynomial < length h) by (eapply lookup_lt_Some, Hl).
  unfold findAllRealRoots.
  unfold bind at 1. unfold newArray at 1. simpl heap. simpl binomialCache.
  unfold bind at 1.
  rewrite (arrayLength_run _ polynomial (constantTerm :: higher))
    by (simpl; apply lookup_heap_old, Hl).
  change (length (constantTerm :: higher) =? 0) with false. cbv iota.
  unfold bind at 1. unfold callNew at 1. unfold bind at 1.
  rewrite (readArray_run _ polynomial (constantTerm :: higher))
    by (simpl; apply lookup_heap_old, Hl).
  unfold newArray at 1. simpl heap. simpl binomialCache.
  replace (length (h ++ [[]])) with (S (length h)) by (rewrite length_app; simpl; lia).
  rewrite <- app_assoc. simpl app. fold squareFree.
  unfold bind at 1.
  rewrite (getIndex_run _ polynomial (constantTerm :: higher) 0 constantTerm);
    [|simpl; rewrite lookup_app_l by exact Hlt; exact Hl|reflexivity].
  fold atZero. unfold bind at 1.
  destruct atZero.
  - unfold bind at 1.
    rewrite (push_run _ (length h) []) by apply lookup_roots.
    simpl heap. simpl binomialCache. rewrite insert_roots. simpl app.
    rewrite (spliceDelete_run _ polynomial (constantTerm :: higher))
      by (simpl; rewrite lookup_app_l by exact Hlt; exact Hl).
    simpl heap. simpl binomialCache. rewrite insert_app_l by exact Hlt.
    simpl take. simpl drop. simpl app.
    destruct (findAllRealRoots_tail (<[polynomial := higher]> h) [0%Q] squareFree c precision
                (length h) (S (length h))) as (later & Hrun);
      [rewrite length_insert; reflexivity|rewrite length_insert; reflexivity|].
    exists later. exact Hrun.
  - unfold ret at 1. rewrite (list_insert_id h polynomial) by exact Hl.
    destruct (findAllRealRoots_tail h [] squareFree c precision
                (length h) (S (length h))) as (later & Hrun); [reflexivity|reflexivity|].
    exists later. exact Hrun.
Qed.

Lemma findAllRealRoots_empty (st : state Q) (polynomial : loc) (precision : Q) :
  heap st !! polynomial = Some [] ->
  findAllRealRoots polynomial precision st
  = (Throw (Error "The polynomial cannot be empty."),
     State (heap st ++ [[]]) (binomialCache st)).
Proof.
  intros Hl. unfold findAllRealRoots.
  unfold bind at 1. unfold newArray at 1. unfold bind at 1.
  rewrite (arrayLength_run _ polynomial []) by (simpl; apply lookup_heap_old, Hl).
  reflexivity.
Qed.
End Orchestrator.

(* ===================================================================== *)
(** ** The orchestrator: errors, the caller's array, the root list *)
(* ===================================================================== *)

Section OrchestratorProperties.
Context {collaborators : Collaborators}.


(** The rounding step returns a number or raises a RangeError. *)
Lemma roundingOutcome_cases (num precision : Q) :
  (exists r, roundingOutcome num precision = Normal r)
  \/ roundingOutcome num precision = Throw RangeError.
Proof.
  unfold roundingOutcome, roundToPrecisionBasedOnDecimal, bind, toFixed.
  destruct ((_ <? 0)%Z || (100 <? _)%Z); [right; reflexivity|].
  destruct (Qle_bool _ _); left; eexists; reflexivity.
Qed.

Lemma processedRoots_throws (p : list Q) (isNegative : bool) (precision : Q)
    (intervals : list (Q * Q)) :
  forall (roots : list Q) (e : exn),
    fst (processedRoots p isNegative precision intervals roots) = Throw e ->
    e = RangeError.
Proof.
  induction intervals as [|interval rest IH]; intros roots e; cbn [processedRoots].
  - discriminate.
  - cbv zeta.
    destruct (roundingOutcome_cases
                (if isNegative
                 then (- refineRootIntervalBisection (fun x => evaluatePolynomial p x)
                           interval precision)%Q
                 else refineRootIntervalBisection (fun x => evaluatePolynomial p x)
                        interval precision) precision) as [[r Hr]|Hr]; rewrite Hr.
    + apply IH.
    + simpl. congruence.
Qed.

Lemma rootsFromSquareFree_throws (squareFree : list Q) (precision : Q) (roots : list Q)
    (e : exn) :
  fst (rootsFromSquareFree squareFree precision roots) = Throw e -> e = RangeError.
Proof.
  unfold rootsFromSquareFree.
  destruct (hasStrictlyNegativeRoots squareFree).
  - destruct (fst (processedRoots _ true precision _ roots)) as [[]|e1] eqn:E1.
    + destruct (hasStrictlyPositiveRoots squareFree); [|discriminate].
      apply processedRoots_throws.
    + simpl. intros He. inversion He; subst. eapply processedRoots_throws, E1.
  - simpl fst. cbv iota.
    destruct (hasStrictlyPositiveRoots squareFree); [|discriminate].
    apply processedRoots_throws.
Qed.

(** C10. [findAllRealRoots] raises the error "The polynomial cannot be
    empty." exactly when the polynomial has no coefficient.  It does so
    before any root is produced: the root list it has just created is still
    empty and the caller's arrays are as they were.  A polynomial with a
    coefficient never raises this error. *)
Theorem findAllRealRoots_empty_input_error
    (st : state Q) (polynomial : loc) (p : list Q) (precision : Q) :
  heap st !! polynomial = Some p ->
  (fst (findAllRealRoots polynomial precision st)
   = Throw (Error "The polynomial cannot be empty.") <-> length p = 0)
  /\ (length p = 0 ->
      snd (findAllRealRoots polynomial precision st)
      = State (heap st ++ [[]]) (binomialCache st)).
Proof.
  intros Hl. destruct p as [|constantTerm higher].
  - rewrite (findAllRealRoots_empty st polynomial precision Hl). simpl.
    split; [split; reflexivity|reflexivity].
  - destruct (findAllRealRoots_run st polynomial constantTerm higher precision Hl)
      as (later & Hrun).
    rewrite Hrun. simpl fst. simpl length. split; [|discriminate].
    split; [|discriminate].
    destruct (fst (rootsFromSquareFree _ precision _)) as [[]|e] eqn:E; [discriminate|].
    apply rootsFromSquareFree_throws in E. subst. discriminate.
Qed.

(** The run on [0, -1, 0, 1], the polynomial x^3 - x, whose constant term
    is zero. *)
Lemma findAllRealRoots_run_cubic (precision : Q) :
  exists later,
    findAllRealRoots 0 precision (State [[0; -1; 0; 1]%Q] ∅)
    = (match fst (rootsFromSquareFree (makeSquareFree [0; -1; 0; 1]%Q) precision [0%Q]) with
       | Normal _ => Normal 1
       | Throw e => Throw e
       end,
       State ([-1; 0; 1]%Q
              :: snd (rootsFromSquareFree (makeSquareFree [0; -1; 0; 1]%Q) precision [0%Q])
              :: makeSquareFree [0; -1; 0; 1]%Q :: later) ∅).
Proof.
  destruct (findAllRealRoots_run (State [[0; -1; 0; 1]%Q] ∅) 0 0%Q [-1; 0; 1]%Q
              precision eq_refl) as (later & Hrun).
  exists later. exact Hrun.
Qed.

(** C3, at the input [0, -1, 0, 1]: whatever the collaborators and the
    precision are, after [findAllRealRoots] the caller's array is
    [-1, 0, 1]; its first entry has been spliced away. *)
Theorem findAllRealRoots_splices_the_argument (precision : Q) :
  heap (snd (findAllRealRoots 0 precision (State [[0; -1; 0; 1]%Q] ∅))) !! 0
  = Some [-1; 0; 1]%Q.
Proof.
  destruct (findAllRealRoots_run_cubic precision) as (later & Hrun).
  rewrite Hrun. reflexivity.
Qed.

(** C6, at the input [0, -1, 0, 1]: the root 0 is recorded and the constant
    term is dropped from the caller's array (array 0), but the array of the
    square-free polynomial (array 2) holds the reduction of [0, -1, 0, 1],
    the polynomial with its constant term, and the root list (array 1) is
    built from that reduction. *)
Theorem findAllRealRoots_reduces_before_dropping (precision : Q) :
  let final := snd (findAllRealRoots 0 precision (State [[0; -1; 0; 1]%Q] ∅)) in
  heap final !! 0 = Some [-1; 0; 1]%Q
  /\ heap final !! 2 = Some (makeSquareFree [0; -1; 0; 1]%Q)
  /\ heap final !! 1
     = Some (snd (rootsFromSquareFree (makeSquareFree [0; -1; 0; 1]%Q) precision [0%Q])).
Proof.
  destruct (findAllRealRoots_run_cubic precision) as (later & Hrun).
  rewrite Hrun. repeat split.
Qed.

Lemma processedRoots_root_list (p : list Q) (isNegative : bool) (precision : Q)
    (intervals : list (Q * Q)) :
  (0 <= precision)%Q ->
  forall roots : list Q,
    root_list precision roots ->
    root_list precision (snd (processedRoots p isNegative precision intervals roots)).
Proof.
  intros Hprecision. induction intervals as [|interval rest IH]; intros roots Hroots;
    cbn [processedRoots].
  - exact Hroots.
  - cbv zeta. destruct (roundingOutcome _ precision) as [rounded|e].
    + apply IH. apply insertedRoots_spec; assumption.
    + exact Hroots.
Qed.

Lemma rootsFromSquareFree_root_list (squareFree : list Q) (precision : Q) (roots : list Q) :
  (0 <= precision)%Q ->
  root_list precision roots ->
  root_list precision (snd (rootsFromSquareFree squareFree precision roots)).
Proof.
  intros Hprecision Hroots. unfold rootsFromSquareFree.
  assert (Hnegative :
    root_list precision
      (snd (if hasStrictlyNegativeRoots squareFree
            then processedRoots (negatedContents squareFree) true precision
                   (isolatePositiveRealRootsContinuedFractions (negatedContents squareFree))
                   roots
            else (Normal tt, roots)))).
  { destruct (hasStrictlyNegativeRoots squareFree); [|exact Hroots].
    apply processedRoots_root_list; assumption. }
  destruct (fst (if hasStrictlyNegativeRoots squareFree then _ else _)) as [[]|e].
  - destruct (hasStrictlyPositiveRoots squareFree); [|exact Hnegative].
    apply processedRoots_root_list; assumption.
  - exact Hnegative.
Qed.

(** C7, for a tolerance that is not negative.  [insertRootSorted] keeps a
    root list a root list.  When some entry is within the tolerance of the
    new root the array is left as it is, so the root computed first stays;
    when none is, the new root goes between the entries below it and the
    entries above it.  Hence the list that [findAllRealRoots] returns for a
    precision that is not negative is strictly increasing with neighbours
    more than the precision apart. *)
Theorem insertRootSorted_keeps_root_list (tolerance : Q) :
  (0 <= tolerance)%Q ->
  (forall (st : state Q) (roots : loc) (v : list Q) (newRoot : Q),
     heap st !! roots = Some v ->
     root_list tolerance v ->
     exists v',
       insertRootSorted roots newRoot tolerance st
       = (Normal tt, State (<[roots := v']> (heap st)) (binomialCache st))
       /\ root_list tolerance v'
       /\ ((exists r, r ∈ v /\ (Qabs (newRoot - r) <= tolerance)%Q) -> v' = v)
       /\ ((forall r, r ∈ v -> (tolerance < Qabs (newRoot - r))%Q) ->
           exists before after,
             v = before ++ after
             /\ v' = before ++ newRoot :: after
             /\ (forall r, r ∈ before -> (r < newRoot)%Q)
             /\ (forall r, r ∈ after -> (newRoot < r)%Q)))
  /\ (forall (st st' : state Q) (polynomial result : loc) (p : list Q),
        heap st !! polynomial = Some p ->
        findAllRealRoots polynomial tolerance st = (Normal result, st') ->
        exists roots, heap st' !! result = Some roots /\ root_list tolerance roots).
Proof.
  intros Htolerance. split.
  - intros st roots v newRoot Hl Hlist.
    exists (insertedRoots v newRoot tolerance).
    split; [apply insertRootSorted_run, Hl|].
    apply insertedRoots_spec; assumption.
  - intros st st' polynomial result p Hl Hrun.
    destruct p as [|constantTerm higher].
    + rewrite (findAllRealRoots_empty st polynomial tolerance Hl) in Hrun.
      discriminate.
    + destruct (findAllRealRoots_run st polynomial constantTerm higher tolerance Hl)
        as (later & Hrun').
      rewrite Hrun' in Hrun.
      destruct (fst (rootsFromSquareFree _ tolerance _)) as [[]|e]; [|discriminate].
      inversion Hrun; subst result st'. clear Hrun.
      eexists. split.
      * simpl heap.
        replace (length (heap st))
          with (length (<[polynomial := if Qltb (Qabs constantTerm) EPSILON
                                        then higher else constantTerm :: higher]> (heap st)))
          by apply length_insert.
        apply lookup_roots.
      * apply rootsFromSquareFree_root_list; [exact Htolerance|].
        destruct (Qltb (Qabs constantTerm) EPSILON); simpl; auto.
Qed.
End OrchestratorProperties.

Lemma findAllRealRoots_empty_input_error_witness :
  (fst (findAllRealRoots (collaborators := exampleCollaborators) 0 (1 # 100000)%Q
          (State [[]] ∅))
   = Throw (Error "The polynomial cannot be empty.") <-> length (@nil Q) = 0)
  /\ (length (@nil Q) = 0 ->
      snd (findAllRealRoots (collaborators := exampleCollaborators) 0 (1 # 100000)%Q
             (State [[]] ∅))
      = State ([[]] ++ [[]]) ∅).
Proof.
  apply (findAllRealRoots_empty_input_error (collaborators := exampleCollaborators)
           (State [[]] ∅) 0 [] (1 # 100000)%Q).
  reflexivity.
Defined.

Lemma insertRootSorted_keeps_root_list_witness :
  exists v',
    insertRootSorted 0 2%Q (1 # 100000)%Q (State [[1; 3]%Q] ∅)
    = (Normal tt, State (<[0 := v']> [[1; 3]%Q]) ∅)
    /\ root_list (1 # 100000)%Q v'.
Proof.
  destruct (insertRootSorted_keeps_root_list (collaborators := exampleCollaborators)
              (1 # 100000)%Q) as [Hinsert _]; [discriminate|].
  destruct (Hinsert (State [[1; 3]%Q] ∅) 0 [1; 3]%Q 2%Q eq_refl) as (v' & Hrun & Hlist & _).
  - simpl. repeat split; reflexivity.
  - exists v'. split; assumption.
Defined.

(** C7 as stated fails for a negative tolerance: nothing is within a
    negative tolerance, so a root that is already in the list is inserted
    again and the list is no longer strictly increasing. *)
Lemma insertRootSorted_negative_tolerance_duplicates :
  root_list (-1)%Q [0%Q]
  /\ insertRootSorted 0 0%Q (-1)%Q (State [[0%Q]] ∅) = (Normal tt, State [[0; 0]%Q] ∅)
  /\ ~ root_list (-1)%Q [0; 0]%Q.
Proof.
  split; [simpl; auto|]. split; [reflexivity|].
  simpl. intros [[Hlt _] _]. discriminate Hlt.
Qed.

(* ===================================================================== *)
(** ** The one-sided finders *)
(* ===================================================================== *)

(** Ascending numerical order, the order the specification asks of
    [findStrictlyNegativeRoots]: an insertion sort on the numbers. *)
Fixpoint insertAscending (x : Q) (sorted : list Q) : list Q :=
  match sorted with
  | [] => [x]
  | y :: rest => if Qle_bool x y then x :: y :: rest else y :: insertAscending x rest
  end.

Definition sortAscending (v : list Q) : list Q := foldr insertAscending [] v.

Section OneSided.
Context {collaborators : Collaborators}.


(** The refined roots of the intervals, in the order of the intervals. *)
Definition refinedRoots (p : list Q) (precision : Q) (intervals : list (Q * Q)) : list Q :=
  map (fun interval =>
         refineRootIntervalBisection (fun x => evaluatePolynomial p x) interval precision)
      intervals.

Lemma forOf_push_run (roots polynomial : loc) (p : list Q) (precision : Q)
    (intervals : list (Q * Q)) :
  roots <> polynomial ->
  forall (rs : list Q) (st : state Q),
    heap st !! roots = Some rs ->
    heap st !! polynomial = Some p ->
    forOf intervals (fun interval =>
      let! p := readArray polynomial in
      let evaluateFunc := fun x => evaluatePolynomial p x in
      let root := refineRootIntervalBisection evaluateFunc interval precision in
      push roots root) st
    = (Normal tt,
       State (<[roots := rs ++ refinedRoots p precision intervals]> (heap st))
             (binomialCache st)).
Proof.
  intros Hne. induction intervals as [|interval rest IH]; intros rs st Hroots Hpoly.
  - simpl. unfold ret. rewrite app_nil_r, list_insert_id by exact Hroots.
    destruct st; reflexivity.
  - cbn [forOf]. unfold bind at 1. unfold bind at 1.
    rewrite (readArray_run _ _ _ Hpoly). cbv zeta.
    rewrite (push_run _ _ rs) by exact Hroots.
    assert (Hlt : roots < length (heap st)) by (eapply lookup_lt_Some, Hroots).
    rewrite IH with (rs := rs ++ [refineRootIntervalBisection
                                    (fun x => evaluatePolynomial p x) interval precision]).
    + simpl. rewrite list_insert_insert_eq, <- app_assoc. reflexivity.
    + simpl. apply list_lookup_insert_eq, Hlt.
    + simpl. rewrite list_lookup_insert_ne by exact Hne. exact Hpoly.
Qed.

(** [findStrictlyPositiveRoots]: the argument is untouched, the result is the
    fresh array of the refined roots of the square-free polynomial. *)
Lemma findStrictlyPositiveRoots_run (st : state Q) (polynomial : loc) (p : list Q)
    (precision : Q) :
  heap st !! polynomial = Some p ->
  findStrictlyPositiveRoots polynomial precision st
  = if hasStrictlyPositiveRoots p
    then (Normal (length (heap st)),
          State (heap st
                 ++ [refinedRoots (makeSquareFree p) precision
                       (isolatePositiveRealRootsContinuedFractions (makeSquareFree p));
                     makeSquareFree p])
                (binomialCache st))
    else (Normal (length (heap st)), State (heap st ++ [[]]) (binomialCache st)).
Proof.
  intros Hl. destruct st as [h c]. simpl in Hl. simpl heap. simpl binomialCache.
  assert (Hlt : polynomial < length h) by (eapply lookup_lt_Some, Hl).
  unfold findStrictlyPositiveRoots.
  unfold bind at 1. unfold callOn at 1. unfold bind at 1.
  rewrite (readArray_run _ polynomial p) by exact Hl. unfold ret at 1.
  destruct (hasStrictlyPositiveRoots p); [|reflexivity]. change (negb true) with false. cbv beta iota.
  unfold bind at 1. unfold newArray at 1. simpl heap. simpl binomialCache.
  unfold bind at 1. unfold callNew at 1. unfold bind at 1.
  rewrite (readArray_run _ polynomial p) by (simpl; apply lookup_heap_old, Hl).
  unfold newArray at 1. simpl heap. simpl binomialCache.
  replace (length (h ++ [[]])) with (S (length h)) by (rewrite length_app; simpl; lia).
  rewrite <- app_assoc. simpl app.
  unfold bind at 1. unfold callOn at 1. unfold bind at 1.
  rewrite (readArray_run _ (S (length h)) (makeSquareFree p)) by apply lookup_squareFree.
  unfold ret at 1. unfold bind at 1.
  rewrite (forOf_push_run (length h) (S (length h)) (makeSquareFree p) precision _
             ltac:(lia) []); [|apply lookup_roots|apply lookup_squareFree].
  simpl heap. simpl binomialCache. rewrite insert_roots. reflexivity.
Qed.

(** [findStrictlyNegativeRoots]: the argument is untouched, the result is a
    fresh array: the refined roots of the negated square-free polynomial,
    negated, in the order of the default sort. *)
Lemma findStrictlyNegativeRoots_run (st : state Q) (polynomial : loc) (p : list Q)
    (precision : Q) :
  heap st !! polynomial = Some p ->
  let negated := negatedContents (makeSquareFree p) in
  let raw := refinedRoots negated precision
               (isolatePositiveRealRootsContinuedFractions negated) in
  findStrictlyNegativeRoots polynomial precision st
  = if hasStrictlyNegativeRoots p
    then (Normal (S (S (S (length (heap st))))),
          State (heap st
                 ++ [raw; makeSquareFree p; negated;
                     defaultSort Number_toString (map Qopp raw)])
                (binomialCache st))
    else (Normal (length (heap st)), State (heap st ++ [[]]) (binomialCache st)).
Proof.
  intros Hl negated raw. destruct st as [h c]. simpl in Hl. cbn [heap binomialCache].
  assert (Hlt : polynomial < length h) by (eapply lookup_lt_Some, Hl).
  unfold findStrictlyNegativeRoots.
  unfold bind at 1. unfold callOn at 1. unfold bind at 1.
  rewrite (readArray_run _ polynomial p) by exact Hl. unfold ret at 1.
  destruct (hasStrictlyNegativeRoots p); [|reflexivity]. change (negb true) with false. cbv beta iota.
  unfold bind at 1. unfold newArray at 1. cbn [heap binomialCache].
  unfold bind at 1. unfold callNew at 1. unfold bind at 1.
  rewrite (readArray_run _ polynomial p) by (simpl; apply lookup_heap_old, Hl).
  unfold newArray at 1. cbn [heap binomialCache].
  replace (length (h ++ [[]])) with (S (length h)) by (rewrite length_app; simpl; lia).
  rewrite <- app_assoc. cbn [app].
  unfold bind at 1.
  rewrite (scaleInput_run _ (S (length h)) (makeSquareFree p)) by apply lookup_squareFree.
  cbn [heap binomialCache].
  replace (length (h ++ [[]; makeSquareFree p])) with (S (S (length h)))
    by (rewrite length_app; simpl; lia).
  rewrite <- app_assoc. cbn [app]. fold (negatedContents (makeSquareFree p)). fold negated.
  unfold bind at 1. unfold callOn at 1. unfold bind at 1.
  rewrite (readArray_run _ (S (S (length h))) negated) by apply lookup_negated.
  unfold ret at 1. unfold bind at 1.
  rewrite (forOf_push_run (length h) (S (S (length h))) negated precision _
             ltac:(lia) []); [|apply lookup_roots|apply lookup_negated].
  cbn [heap binomialCache]. rewrite insert_roots. cbn [app]. fold raw.
  unfold bind at 1.
  rewrite (mapArray_run _ (length h) raw) by apply lookup_roots.
  cbn [heap binomialCache].
  replace (length (h ++ [raw; makeSquareFree p; negated])) with (S (S (S (length h))))
    by (rewrite length_app; simpl; lia).
  unfold bind at 1. unfold sortInPlace. unfold bind at 1.
  assert (Hmapped : ((h ++ [raw; makeSquareFree p; negated])
                     ++ [imap (fun (_ : nat) (x : Q) => (- x)%Q) raw])
                    !! S (S (S (length h)))
                    = Some (imap (fun (_ : nat) (x : Q) => (- x)%Q) raw)).
  { apply list_lookup_middle. rewrite length_app. simpl. lia. }
  rewrite (readArray_run _ (S (S (S (length h))))
             (imap (fun (_ : nat) (x : Q) => (- x)%Q) raw)) by exact Hmapped.
  unfold writeArray, ret. cbn [heap binomialCache].
  f_equal. f_equal.
  rewrite insert_app_r_alt by (rewrite length_app; simpl; lia).
  replace (S (S (S (length h))) - length (h ++ [raw; makeSquareFree p; negated])) with 0
    by (rewrite length_app; simpl; lia).
  simpl. rewrite <- app_assoc. cbn [app].
  change (imap (fun (_ : nat) (x : Q) => (- x)%Q) raw) with (imap (const Qopp) raw).
  rewrite imap_const. reflexivity.
Qed.

(** The negative finder on [2, 3, 1], for collaborators that find the roots
    1 and 2 of the negated polynomial 2 - 3x + x^2. *)
Lemma findStrictlyNegativeRoots_run_quadratic (precision : Q) (first second : Q * Q) :
  hasStrictlyNegativeRoots [2; 3; 1]%Q = true ->
  makeSquareFree [2; 3; 1]%Q = [2; 3; 1]%Q ->
  isolatePositiveRealRootsContinuedFractions [2; -3; 1]%Q = [first; second] ->
  refineRootIntervalBisection (fun x => evaluatePolynomial [2; -3; 1]%Q x) first precision
  = 1%Q ->
  refineRootIntervalBisection (fun x => evaluatePolynomial [2; -3; 1]%Q x) second precision
  = 2%Q ->
  Number_toString (-1)%Q = "-1"%string ->
  Number_toString (-2)%Q = "-2"%string ->
  findStrictlyNegativeRoots 0 precision (State [[2; 3; 1]%Q] ∅)
  = (Normal 4,
     State [[2; 3; 1]; [1; 2]; [2; 3; 1]; [2; -3; 1]; [-1; -2]]%Q ∅).
Proof.
  intros Hnegative HsquareFree Hisolate Hfirst Hsecond Hs1 Hs2.
  rewrite (findStrictlyNegativeRoots_run (State [[2; 3; 1]%Q] ∅) 0 [2; 3; 1]%Q precision
             eq_refl).
  rewrite Hnegative, HsquareFree.
  change (negatedContents [2; 3; 1]%Q) with [2; -3; 1]%Q.
  rewrite Hisolate. unfold refinedRoots. cbn [map]. rewrite Hfirst, Hsecond.
  unfold defaultSort. cbn [foldr sortInsert].
  change (Qopp 1) with (-1)%Q. change (Qopp 2) with (-2)%Q. rewrite Hs1, Hs2.
  reflexivity.
Qed.

(** C4, at the input [2, 3, 1], the polynomial (x + 1)(x + 2).  When the
    collaborators find the roots 1 and 2 of the negated polynomial
    2 - 3x + x^2, [findStrictlyNegativeRoots] returns the fresh array 4 with
    the contents [-1, -2]: the values are the negative roots themselves, but
    the order is the one of their strings ("-1" before "-2"), which is
    descending. *)
Theorem findStrictlyNegativeRoots_orders_by_string (precision : Q) (first second : Q * Q) :
  hasStrictlyNegativeRoots [2; 3; 1]%Q = true ->
  makeSquareFree [2; 3; 1]%Q = [2; 3; 1]%Q ->
  isolatePositiveRealRootsContinuedFractions [2; -3; 1]%Q = [first; second] ->
  refineRootIntervalBisection (fun x => evaluatePolynomial [2; -3; 1]%Q x) first precision
  = 1%Q ->
  refineRootIntervalBisection (fun x => evaluatePolynomial [2; -3; 1]%Q x) second precision
  = 2%Q ->
  Number_toString (-1)%Q = "-1"%string ->
  Number_toString (-2)%Q = "-2"%string ->
  let run := findStrictlyNegativeRoots 0 precision (State [[2; 3; 1]%Q] ∅) in
  fst run = Normal 4
  /\ heap (snd run) !! 4 = Some [-1; -2]%Q
  /\ (-2 < -1)%Q.
Proof.
  intros Hnegative HsquareFree Hisolate Hfirst Hsecond Hs1 Hs2 run. subst run.
  rewrite (findStrictlyNegativeRoots_run_quadratic precision first second) by assumption.
  repeat split.
Qed.

(** C5, at the same input.  The positive finder run on [scaleInput(p, -1)]
    gives the roots 1 and 2 in the fresh array 2; negated and sorted in
    ascending numerical order they are [-2, -1].  [findStrictlyNegativeRoots]
    returns [-1, -2]. *)
Theorem findStrictlyNegativeRoots_differs_from_sorted_negation
    (precision : Q) (first second : Q * Q) :
  hasStrictlyNegativeRoots [2; 3; 1]%Q = true ->
  hasStrictlyPositiveRoots [2; -3; 1]%Q = true ->
  makeSquareFree [2; 3; 1]%Q = [2; 3; 1]%Q ->
  makeSquareFree [2; -3; 1]%Q = [2; -3; 1]%Q ->
  isolatePositiveRealRootsContinuedFractions [2; -3; 1]%Q = [first; second] ->
  refineRootIntervalBisection (fun x => evaluatePolynomial [2; -3; 1]%Q x) first precision
  = 1%Q ->
  refineRootIntervalBisection (fun x => evaluatePolynomial [2; -3; 1]%Q x) second precision
  = 2%Q ->
  Number_toString (-1)%Q = "-1"%string ->
  Number_toString (-2)%Q = "-2"%string ->
  let negativeRun := findStrictlyNegativeRoots 0 precision (State [[2; 3; 1]%Q] ∅) in
  let positiveRun :=
    (let! negatedInput := scaleInput 0 (-1)%Q in
     findStrictlyPositiveRoots negatedInput precision) (State [[2; 3; 1]%Q] ∅) in
  heap (snd negativeRun) !! 4 = Some [-1; -2]%Q
  /\ fst positiveRun = Normal 2
  /\ heap (snd positiveRun) !! 2 = Some [1; 2]%Q
  /\ sortAscending (map Qopp [1; 2]%Q) = [-2; -1]%Q
  /\ [-1; -2]%Q <> [-2; -1]%Q.
Proof.
  intros Hnegative Hpositive Hsf1 Hsf2 Hisolate Hfirst Hsecond Hs1 Hs2 negativeRun positiveRun.
  split.
  { subst negativeRun.
    rewrite (findStrictlyNegativeRoots_run_quadratic precision first second) by assumption.
    reflexivity. }
  subst positiveRun. unfold bind.
  rewrite (scaleInput_run (State [[2; 3; 1]%Q] ∅) 0 [2; 3; 1]%Q (-1)%Q eq_refl).
  cbn [heap binomialCache length app].
  change (imap (fun i c => (Math_pow (-1)%Q i * c)%num) [2; 3; 1]%Q) with [2; -3; 1]%Q.
  rewrite (findStrictlyPositiveRoots_run (State [[2; 3; 1]%Q; [2; -3; 1]%Q] ∅) 1
             [2; -3; 1]%Q precision eq_refl).
  rewrite Hpositive, Hsf2, Hisolate. unfold refinedRoots. cbn [map].
  rewrite Hfirst, Hsecond.
  split; [reflexivity|]. split; [reflexivity|]. split; [reflexivity|]. discriminate.
Qed.
End OneSided.

Lemma findStrictlyNegativeRoots_orders_by_string_witness :
  let run :=
    findStrictlyNegativeRoots (collaborators := exampleCollaborators) 0 (1 # 100000)%Q
      (State [[2; 3; 1]%Q] ∅) in
  fst run = Normal 4
  /\ heap (snd run) !! 4 = Some [-1; -2]%Q
  /\ (-2 < -1)%Q.
Proof.
  apply (findStrictlyNegativeRoots_orders_by_string (collaborators := exampleCollaborators)
           (1 # 100000)%Q (1 # 2, 3 # 2)%Q (3 # 2, 5 # 2)%Q);
    reflexivity.
Defined.

Lemma findStrictlyNegativeRoots_differs_from_sorted_negation_witness :
  let negativeRun :=
    findStrictlyNegativeRoots (collaborators := exampleCollaborators) 0 (1 # 100000)%Q
      (State [[2; 3; 1]%Q] ∅) in
  let positiveRun :=
    (let! negatedInput := scaleInput 0 (-1)%Q in
     findStrictlyPositiveRoots (collaborators := exampleCollaborators) negatedInput
       (1 # 100000)%Q) (State [[2; 3; 1]%Q] ∅) in
  heap (snd negativeRun) !! 4 = Some [-1; -2]%Q
  /\ fst positiveRun = Normal 2
  /\ heap (snd positiveRun) !! 2 = Some [1; 2]%Q
  /\ sortAscending (map Qopp [1; 2]%Q) = [-2; -1]%Q
  /\ [-1; -2]%Q <> [-2; -1]%Q.
Proof.
  apply (findStrictlyNegativeRoots_differs_from_sorted_negation
           (collaborators := exampleCollaborators)
           (1 # 100000)%Q (1 # 2, 3 # 2)%Q (3 # 2, 5 # 2)%Q);
    reflexivity.
Defined.

(* ********************************************************************* *)
(** * Part III: further properties of the kernels and of the orchestrator *)
(* ********************************************************************* *)

(* ===================================================================== *)
(** ** Values of the transformed polynomials *)
(* ===================================================================== *)

Section Values.
Context {A : Type} `{NumberRing A}.

Add Ring number_ring_values : number_ring.

Lemma Math_pow_one (n : nat) : Math_pow (one : A) n = one.
Proof. induction n as [|n IH]; simpl; [reflexivity|]. rewrite IH. ring. Qed.

Lemma Math_pow_mul (x y : A) (n : nat) :
  Math_pow (x * y)%num n = (Math_pow x n * Math_pow y n)%num.
Proof. induction n as [|n IH]; simpl; [ring|]. rewrite IH. ring. Qed.

Lemma evaluatePolynomial_app (p q : list A) (x : A) :
  evaluatePolynomial (p ++ q) x
  = (evaluatePolynomial p x + Math_pow x (length p) * evaluatePolynomial q x)%num.
Proof.
  induction p as [|a p IH]; simpl app; simpl length.
  - simpl. ring.
  - rewrite !evaluatePolynomial_cons, IH. simpl. ring.
Qed.

(** Multiplying the coefficient of index [i] by [s^(n+i)] multiplies the
    value by [s^n] and the point by [s]. *)
Lemma evaluatePolynomial_powers (s x : A) (p : list A) :
  forall n,
    evaluatePolynomial (imap (fun i c => (Math_pow s (n + i)%nat * c)%num) p) x
    = (Math_pow s n * evaluatePolynomial p (s * x))%num.
Proof.
  induction p as [|a p IH]; intros n.
  - simpl. ring.
  - cbn [imap]. rewrite !evaluatePolynomial_cons.
    rewrite (imap_ext _ (fun i c => (Math_pow s (S n + i)%nat * c)%num)).
    2:{ intros i c _. simpl. replace (n + S i)%nat with (S (n + i)) by lia. reflexivity. }
    rewrite IH, Nat.add_0_r. simpl. ring.
Qed.

Lemma evaluatePolynomial_scaled (s x : A) (p : list A) :
  evaluatePolynomial (imap (fun i c => (Math_pow s i * c)%num) p) x
  = evaluatePolynomial p (s * x)%num.
Proof.
  rewrite <- (imap_ext (fun i c => (Math_pow s (0 + i)%nat * c)%num)) by reflexivity.
  rewrite evaluatePolynomial_powers. simpl. ring.
Qed.

(** Multiplying the coefficient of index [i] by [s^(d-k-i)], for exponents
    that stay non-negative, against the point [s * x]. *)
Lemma evaluatePolynomial_copowers (s x : A) (d : nat) (p : list A) :
  forall k,
    k + length p <= S d ->
    evaluatePolynomial (imap (fun i c => (Math_pow s (d - (k + i))%nat * c)%num) p)
      (s * x)%num
    = (Math_pow s (d - k)%nat * evaluatePolynomial p x)%num.
Proof.
  induction p as [|a p IH]; intros k Hk.
  - simpl. ring.
  - cbn [imap]. rewrite !evaluatePolynomial_cons.
    rewrite (imap_ext _ (fun i c => (Math_pow s (d - (S k + i))%nat * c)%num)).
    2:{ intros i c _. simpl. replace (k + S i)%nat with (S (k + i)) by lia. reflexivity. }
    rewrite Nat.add_0_r. destruct p as [|b p].
    + simpl. ring.
    + rewrite IH by (simpl in *; lia). simpl in Hk.
      replace (d - k)%nat with (S (d - S k)) by lia. simpl. ring.
Qed.

(** The value of the reversed polynomial at [x], for [x * y = 1]. *)
Lemma evaluatePolynomial_reverse (x y : A) (p : list A) :
  (x * y)%num = one ->
  (evaluatePolynomial (reverse p) x * x)%num
  = (Math_pow x (length p) * evaluatePolynomial p y)%num.
Proof.
  intros Hxy. induction p as [|a p IH].
  - simpl. ring.
  - rewrite reverse_cons, evaluatePolynomial_app, length_reverse.
    rewrite evaluatePolynomial_cons. simpl evaluatePolynomial. simpl length. simpl Math_pow.
    transitivity (evaluatePolynomial (reverse p) x * x
                  + Math_pow x (length p) * a * x)%num; [ring|].
    rewrite IH.
    transitivity (Math_pow x (length p) * evaluatePolynomial p y * (x * y)
                  + Math_pow x (length p) * a * x)%num; [rewrite Hxy; ring|ring].
Qed.

(** Over a ring [scale] computes the coefficients of [scaleInput]: the
    factor of the constant term is [s^0 = 1]. *)
Lemma scaleContents_scaleInput (s : A) (v : list A) :
  scaleContents s v = imap (fun i c => (Math_pow s i * c)%num) v.
Proof.
  unfold scaleContents. apply imap_ext. intros i c _.
  destruct i; simpl; [ring|reflexivity].
Qed.
End Values.

Section Lists.
Context {A : Type} `{Number A}.

(** Scaling the reversed polynomial and reversing again puts the power
    [s^(degree - i)] on the coefficient of index [i]. *)
Lemma reverse_scaled_reverse (s : A) (p : list A) :
  reverse (imap (fun i c => (Math_pow s i * c)%num) (reverse p))
  = imap (fun i c => (Math_pow s (length p - 1 - i)%nat * c)%num) p.
Proof.
  apply list_eq. intros i.
  destruct (Nat.lt_ge_cases i (length p)) as [Hlt|Hge].
  - rewrite reverse_lookup by (rewrite length_imap, length_reverse; exact Hlt).
    rewrite length_imap, length_reverse, !list_lookup_imap.
    rewrite reverse_lookup by lia.
    replace (length p - S (length p - S i))%nat with i by lia.
    replace (length p - S i)%nat with (length p - 1 - i)%nat by lia. reflexivity.
  - rewrite !lookup_ge_None_2; [reflexivity| |].
    + rewrite length_imap. exact Hge.
    + rewrite length_reverse, length_imap, length_reverse. exact Hge.
Qed.

Lemma bind_ext {X Y} (m : M A X) (f g : X -> M A Y) (st : state A) :
  (forall x st', f x st' = g x st') -> bind m f st = bind m g st.
Proof. intros Hfg. unfold bind. destruct (m st) as [[x|e] st']; [apply Hfg|reflexivity]. Qed.

Lemma bind_ext_l {X Y} (m1 m2 : M A X) (f : X -> M A Y) (st : state A) :
  m1 st = m2 st -> bind m1 f st = bind m2 f st.
Proof. intros Hm. unfold bind. rewrite Hm. reflexivity. Qed.

Lemma for_count_ext (body1 body2 : nat -> M A unit) :
  (forall i st, body1 i st = body2 i st) ->
  forall count i st, for_count count i body1 st = for_count count i body2 st.
Proof.
  intros Hbody. induction count as [|c IH]; intros i st; simpl; [reflexivity|].
  unfold bind. rewrite Hbody. destruct (body2 i st) as [[[]|e] st']; [apply IH|reflexivity].
Qed.
End Lists.

(** X1. Horner's scheme computes the sum of the monomials: for real
    coefficients [evaluatePolynomial(p, x)] is the sum of [p[i] * x^i] over
    the indices of [p]; the empty polynomial evaluates to 0 and the value at
    0 is the constant term. *)
Theorem evaluatePolynomial_sums_the_monomials (p : list R) (x : R) :
  evaluatePolynomial p x = sum_range 0 (length p) (fun i => (coef p i * Math_pow x i)%R)
  /\ evaluatePolynomial [] x = 0%R
  /\ evaluatePolynomial p 0%R = coef p 0.
Proof.
  split; [exact (evaluatePolynomial_sum p x)|]. split; [reflexivity|].
  destruct p as [|a q]; [reflexivity|].
  rewrite evaluatePolynomial_cons. unfold coef. simpl. Lra.lra.
Qed.

(** X2. [reversed(reversed(p))] has the coefficients of [p]: the two calls
    allocate two fresh arrays, the reversed coefficients and then the
    original ones, and leave [p] and every other array as they were. *)
Theorem reversed_twice_restores {A : Type} (st : state A) (polynomial : loc) (p : list A) :
  heap st !! polynomial = Some p ->
  (let! flipped := reversed polynomial in reversed flipped) st
  = (Normal (S (length (heap st))),
     State (heap st ++ [reverse p; p]) (binomialCache st)).
Proof.
  intros Hl. unfold bind. rewrite (reversed_run st polynomial p Hl).
  rewrite (reversed_run _ (length (heap st)) (reverse p)) by (simpl; apply lookup_heap_new).
  simpl. rewrite length_app, reverse_involutive, <- app_assoc. simpl.
  replace (length (heap st) + 1) with (S (length (heap st))) by lia. reflexivity.
Qed.

Lemma reversed_twice_restores_witness :
  (let! flipped := reversed 0 in reversed flipped) (State [[1; 2; 3]%Z] ∅)
  = (Normal 2, State ([[1; 2; 3]%Z] ++ [reverse [1; 2; 3]%Z; [1; 2; 3]%Z]) ∅).
Proof.
  apply (reversed_twice_restores (State [[1; 2; 3]%Z] ∅) 0 [1; 2; 3]%Z).
  reflexivity.
Defined.

(** X3. The polynomial returned by [reversed(p)] is a fresh array of the
    same length; for a real [x] that is not zero its value satisfies
    [q(x) * x = x^n * p(1/x)] with [n] the number of coefficients, that is
    [q(x) = x^degree * p(1/x)]: the non-zero roots of [q] are the
    reciprocals of those of [p]. *)
Theorem reversed_evaluates_at_reciprocal
    (st : state R) (polynomial : loc) (p : list R) (x : R) :
  heap st !! polynomial = Some p ->
  x <> 0%R ->
  exists q,
    reversed polynomial st
    = (Normal (length (heap st)), State (heap st ++ [q]) (binomialCache st))
    /\ length q = length p
    /\ (evaluatePolynomial q x * x
        = Math_pow x (length p) * evaluatePolynomial p (/ x))%R
    /\ (evaluatePolynomial p (/ x) = 0 -> evaluatePolynomial q x = 0)%R.
Proof.
  intros Hl Hx. exists (reverse p).
  split; [apply reversed_run, Hl|]. split; [apply length_reverse|].
  assert (Hvalue : (evaluatePolynomial (reverse p) x * x
                    = Math_pow x (length p) * evaluatePolynomial p (/ x))%R).
  { exact (evaluatePolynomial_reverse x (/ x)%R p (Rinv_r x Hx)). }
  split; [exact Hvalue|].
  intros Hroot. rewrite Hroot, Rmult_0_r in Hvalue.
  apply Rmult_integral in Hvalue. destruct Hvalue as [Hq|Hzero]; [exact Hq|contradiction].
Qed.

Lemma reversed_evaluates_at_reciprocal_witness :
  exists q,
    reversed 0 (State [[-2; 1]%R] ∅)
    = (Normal 1, State ([[-2; 1]%R] ++ [q]) ∅)
    /\ length q = 2
    /\ (evaluatePolynomial q (/ 2) * / 2
        = Math_pow (/ 2) 2 * evaluatePolynomial [-2; 1] (/ / 2))%R
    /\ (evaluatePolynomial [-2; 1] (/ / 2) = 0 -> evaluatePolynomial q (/ 2) = 0)%R.
Proof.
  apply (reversed_evaluates_at_reciprocal (State [[-2; 1]%R] ∅) 0 [-2; 1]%R (/ 2)%R).
  - reflexivity.
  - Lra.lra.
Defined.

(** X4. [scaleInput(p, s)] returns a fresh array of the same length whose
    polynomial takes at every real [x] the value of [p] at [s * x]; [p] and
    every other array are as they were. *)
Theorem scaleInput_evaluates_scaled
    (st : state R) (polynomial : loc) (p : list R) (scaleFactor : R) :
  heap st !! polynomial = Some p ->
  exists q,
    scaleInput polynomial scaleFactor st
    = (Normal (length (heap st)), State (heap st ++ [q]) (binomialCache st))
    /\ length q = length p
    /\ (forall x : R, evaluatePolynomial q x = evaluatePolynomial p (scaleFactor * x)%R).
Proof.
  intros Hl. eexists. split; [apply scaleInput_run, Hl|].
  split; [apply length_imap|].
  intros x. exact (evaluatePolynomial_scaled scaleFactor x p).
Qed.

Lemma scaleInput_evaluates_scaled_witness :
  exists q,
    scaleInput 0 (-1)%R (State [[2; 3; 1]%R] ∅)
    = (Normal 1, State ([[2; 3; 1]%R] ++ [q]) ∅)
    /\ length q = 3
    /\ (forall x : R, evaluatePolynomial q x = evaluatePolynomial [2; 3; 1]%R (-1 * x)%R).
Proof.
  apply (scaleInput_evaluates_scaled (State [[2; 3; 1]%R] ∅) 0 [2; 3; 1]%R (-1)%R).
  reflexivity.
Defined.

(** X5. [scaleInputInReverseOrder(p, s)] returns a fresh array of the same
    length whose polynomial [q] satisfies [q(s * x) = s^degree * p(x)] for
    every real [x], with [degree] the number of coefficients less one (0 for
    the empty polynomial); [p] is untouched. *)
Theorem scaleInputInReverseOrder_evaluates
    (st : state R) (polynomial : loc) (p : list R) (scaleFactor : R) :
  heap st !! polynomial = Some p ->
  exists q,
    scaleInputInReverseOrder polynomial scaleFactor st
    = (Normal (length (heap st)), State (heap st ++ [q]) (binomialCache st))
    /\ length q = length p
    /\ (forall x : R,
          evaluatePolynomial q (scaleFactor * x)%R
          = (Math_pow scaleFactor (length p - 1) * evaluatePolynomial p x)%R).
Proof.
  intros Hl. eexists. split; [apply scaleInputInReverseOrder_run, Hl|].
  split; [apply length_imap|].
  intros x.
  pose proof (evaluatePolynomial_copowers scaleFactor x (length p - 1) p 0) as Hvalue.
  rewrite Nat.sub_0_r in Hvalue. apply Hvalue. lia.
Qed.

Lemma scaleInputInReverseOrder_evaluates_witness :
  exists q,
    scaleInputInReverseOrder 0 2%R (State [[1; 1; 1]%R] ∅)
    = (Normal 1, State ([[1; 1; 1]%R] ++ [q]) ∅)
    /\ length q = 3
    /\ (forall x : R,
          evaluatePolynomial q (2 * x)%R
          = (Math_pow 2 (3 - 1) * evaluatePolynomial [1; 1; 1] x)%R).
Proof.
  apply (scaleInputInReverseOrder_evaluates (State [[1; 1; 1]%R] ∅) 0 [1; 1; 1]%R 2%R).
  reflexivity.
Defined.

(** X6. [scaleInputInReverseOrder(p, s)] has the coefficients of
    [reversed(scaleInput(reversed(p), s))], over any type of numbers: the
    composition leaves the reversed and the scaled polynomial in two more
    arrays and ends with the same contents. *)
Theorem scaleInputInReverseOrder_is_scaleInput_between_reversals
    {A : Type} `{Number A} (st : state A) (polynomial : loc) (p : list A) (scaleFactor : A) :
  heap st !! polynomial = Some p ->
  exists q flipped scaled,
    scaleInputInReverseOrder polynomial scaleFactor st
    = (Normal (length (heap st)), State (heap st ++ [q]) (binomialCache st))
    /\ (let! flipped := reversed polynomial in
        let! scaled := scaleInput flipped scaleFactor in
        reversed scaled) st
       = (Normal (S (S (length (heap st)))),
          State (heap st ++ [flipped; scaled; q]) (binomialCache st)).
Proof.
  intros Hl.
  exists (imap (fun i c => (Math_pow scaleFactor (length p - 1 - i)%nat * c)%num) p),
    (reverse p), (imap (fun i c => (Math_pow scaleFactor i * c)%num) (reverse p)).
  split; [apply scaleInputInReverseOrder_run, Hl|].
  unfold bind at 1. rewrite (reversed_run st polynomial p Hl).
  unfold bind at 1.
  rewrite (scaleInput_run _ (length (heap st)) (reverse p)) by (simpl; apply lookup_heap_new).
  cbn [heap binomialCache].
  rewrite (reversed_run _ (length (heap st ++ [reverse p])) _)
    by (cbn [heap]; apply lookup_heap_new).
  cbn [heap binomialCache]. rewrite reverse_scaled_reverse.
  rewrite !length_app. simpl length. rewrite <- !app_assoc. simpl app.
  replace (length (heap st) + 1 + 1) with (S (S (length (heap st)))) by lia. reflexivity.
Qed.

Lemma scaleInputInReverseOrder_is_scaleInput_between_reversals_witness :
  exists q flipped scaled,
    scaleInputInReverseOrder 0 2%Z (State [[1; 1; 1]%Z] ∅)
    = (Normal 1, State ([[1; 1; 1]%Z] ++ [q]) ∅)
    /\ (let! flipped := reversed 0 in
        let! scaled := scaleInput flipped 2%Z in
        reversed scaled) (State [[1; 1; 1]%Z] ∅)
       = (Normal 3, State ([[1; 1; 1]%Z] ++ [flipped; scaled; q]) ∅).
Proof.
  apply (scaleInputInReverseOrder_is_scaleInput_between_reversals
           (State [[1; 1; 1]%Z] ∅) 0 [1; 1; 1]%Z 2%Z).
  reflexivity.
Defined.

(** X7. The in-place helpers [scale] and [scaleCoefficients] are the same
    function, and on real coefficients they leave in their argument exactly
    the coefficients that [scaleInput] returns in a fresh array; no other
    array changes and the length stays. *)
Theorem scale_in_place_agrees_with_scaleInput
    (st : state R) (coefficients : loc) (p : list R) (scaleFactor : R) :
  heap st !! coefficients = Some p ->
  exists q,
    scaleInput coefficients scaleFactor st
    = (Normal (length (heap st)), State (heap st ++ [q]) (binomialCache st))
    /\ scale coefficients scaleFactor st
       = (Normal tt, State (<[coefficients := q]> (heap st)) (binomialCache st))
    /\ scaleCoefficients coefficients scaleFactor st = scale coefficients scaleFactor st
    /\ length q = length p.
Proof.
  intros Hl. eexists. split; [apply scaleInput_run, Hl|].
  split; [|split; [reflexivity|apply length_imap]].
  rewrite (scale_run st coefficients p scaleFactor Hl).
  rewrite (scaleContents_scaleInput scaleFactor p). reflexivity.
Qed.

Lemma scale_in_place_agrees_with_scaleInput_witness :
  exists q,
    scaleInput 0 2%R (State [[1; 1; 1]%R] ∅)
    = (Normal 1, State ([[1; 1; 1]%R] ++ [q]) ∅)
    /\ scale 0 2%R (State [[1; 1; 1]%R] ∅) = (Normal tt, State (<[0 := q]> [[1; 1; 1]%R]) ∅)
    /\ scaleCoefficients 0 2%R (State [[1; 1; 1]%R] ∅) = scale 0 2%R (State [[1; 1; 1]%R] ∅)
    /\ length q = 3.
Proof.
  apply (scale_in_place_agrees_with_scaleInput (State [[1; 1; 1]%R] ∅) 0 [1; 1; 1]%R 2%R).
  reflexivity.
Defined.

(** X8. Two input scalings in a row scale by the product: the array
    returned by [scaleInput(scaleInput(p, s), t)] holds the real
    coefficients that [scaleInput(p, t * s)] returns, and scaling by 1
    returns a copy of [p]. *)
Theorem scaleInput_composes
    (st : state R) (polynomial : loc) (p : list R) (s t : R) :
  heap st !! polynomial = Some p ->
  exists q1 q2,
    (let! first := scaleInput polynomial s in scaleInput first t) st
    = (Normal (S (length (heap st))), State (heap st ++ [q1; q2]) (binomialCache st))
    /\ scaleInput polynomial (t * s)%R st
       = (Normal (length (heap st)), State (heap st ++ [q2]) (binomialCache st))
    /\ (s = 1%R -> q1 = p).
Proof.
  intros Hl. unfold bind. rewrite (scaleInput_run st polynomial p s Hl).
  rewrite (scaleInput_run _ (length (heap st)) _ t) by (cbn [heap]; apply lookup_heap_new).
  rewrite (scaleInput_run st polynomial p (t * s)%R Hl). cbn [heap binomialCache].
  assert (Hproduct : imap (fun i c => (Math_pow (t * s)%R i * c)%num) p
                     = imap (fun i c => (Math_pow t i * c)%num)
                         (imap (fun i c => (Math_pow s i * c)%num) p)).
  { apply list_eq. intros i. rewrite !list_lookup_imap.
    destruct (p !! i) as [c|]; [|reflexivity]. simpl. f_equal.
    pose proof (Math_pow_mul t s i) as Hpow. simpl in Hpow. rewrite Hpow. Lra.lra. }
  do 2 eexists. split; [|split].
  - rewrite length_app, <- app_assoc. simpl.
    replace (length (heap st) + 1) with (S (length (heap st))) by lia. reflexivity.
  - rewrite Hproduct. reflexivity.
  - intros ->. apply list_eq. intros i. rewrite list_lookup_imap.
    destruct (p !! i) as [c|]; [|reflexivity]. simpl. f_equal.
    pose proof (Math_pow_one (A := R) i) as Hone. simpl in Hone. rewrite Hone. Lra.lra.
Qed.

Lemma scaleInput_composes_witness :
  exists q1 q2,
    (let! first := scaleInput 0 2%R in scaleInput first 3%R) (State [[1; 1; 1]%R] ∅)
    = (Normal 2, State ([[1; 1; 1]%R] ++ [q1; q2]) ∅)
    /\ scaleInput 0 (3 * 2)%R (State [[1; 1; 1]%R] ∅)
       = (Normal 1, State ([[1; 1; 1]%R] ++ [q2]) ∅)
    /\ (2%R = 1%R -> q1 = [1; 1; 1]%R).
Proof.
  apply (scaleInput_composes (State [[1; 1; 1]%R] ∅) 0 [1; 1; 1]%R 2%R 3%R).
  reflexivity.
Defined.

Section RealPolynomials.
Local Open Scope R_scope.

(** On the unit interval the values of a polynomial are bounded. *)
Lemma evaluatePolynomial_bounded (d : list R) :
  exists bound, 0 <= bound /\ forall x, Rabs x <= 1 -> Rabs (evaluatePolynomial d x) <= bound.
Proof.
  induction d as [|a d (bound & Hbound & IH)].
  - exists 0. split; [Lra.lra|]. intros x _. simpl. rewrite Rabs_R0. Lra.lra.
  - exists (bound + Rabs a). pose proof (Rabs_pos a) as Ha.
    split; [Lra.lra|]. intros x Hx. rewrite evaluatePolynomial_cons. simpl.
    pose proof (IH x Hx) as Hd. pose proof (Rabs_pos x) as Hx0.
    pose proof (Rabs_pos (evaluatePolynomial d x)) as Hd0.
    eapply Rle_trans; [apply Rabs_triang|]. rewrite Rabs_mult.
    assert (Rabs (evaluatePolynomial d x) * Rabs x <= bound * 1)
      by (apply Rmult_le_compat; Lra.lra).
    Lra.lra.
Qed.

(** Two real polynomials with the same number of coefficients and the same
    values away from 0 have the same coefficients. *)
Lemma evaluatePolynomial_injective (p : list R) :
  forall q : list R,
    length p = length q ->
    (forall x, x <> 0 -> evaluatePolynomial p x = evaluatePolynomial q x) ->
    p = q.
Proof.
  induction p as [|a p IH]; intros [|b q] Hlen Hvalues; try discriminate; [reflexivity|].
  destruct (evaluatePolynomial_bounded p) as (boundP & HboundP & HP).
  destruct (evaluatePolynomial_bounded q) as (boundQ & HboundQ & HQ).
  assert (Hab : a = b).
  { destruct (Req_dec a b) as [Heq|Hne]; [exact Heq|exfalso].
    set (gap := Rabs (a - b)).
    assert (Hgap : 0 < gap) by (apply Rabs_pos_lt; Lra.lra).
    set (bound := boundP + boundQ + 1).
    set (x := gap / (2 * bound + gap)).
    assert (Hden : 0 < 2 * bound + gap) by (unfold bound; Lra.lra).
    assert (Hx : x * (2 * bound + gap) = gap) by (unfold x; field; Lra.lra).
    assert (Hx0 : 0 < x) by (unfold x; apply Rdiv_lt_0_compat; assumption).
    assert (Hx1 : x <= 1).
    { destruct (Rle_dec x 1) as [Hle|Hgt]; [exact Hle|exfalso].
      assert (1 * (2 * bound + gap) < x * (2 * bound + gap))
        by (apply Rmult_lt_compat_r; Lra.lra).
      unfold bound in *. Lra.lra. }
    assert (Hxabs : Rabs x = x) by (apply Rabs_right; Lra.lra).
    assert (Hunit : Rabs x <= 1) by (rewrite Hxabs; exact Hx1).
    pose proof (HP x Hunit) as HPx. pose proof (HQ x Hunit) as HQx.
    pose proof (Hvalues x ltac:(Lra.lra)) as Hvalue.
    rewrite !evaluatePolynomial_cons in Hvalue. simpl in Hvalue.
    assert (Hdiff : a - b = (evaluatePolynomial q x - evaluatePolynomial p x) * x)
      by Lra.lra.
    assert (Hle : gap <= (boundP + boundQ) * x).
    { unfold gap. rewrite Hdiff, Rabs_mult, Hxabs.
      apply Rmult_le_compat_r; [Lra.lra|].
      eapply Rle_trans; [apply Rabs_triang|]. rewrite Rabs_Ropp. Lra.lra. }
    assert (Hhalf : (boundP + boundQ) * x <= bound * x)
      by (apply Rmult_le_compat_r; unfold bound; Lra.lra).
    assert (Hexpand : x * (2 * bound + gap) = 2 * (bound * x) + gap * x) by ring.
    assert (Hpos : 0 < gap * x) by (apply Rmult_lt_0_compat; assumption).
    Lra.lra. }
  subst b. f_equal. apply IH; [simpl in Hlen; lia|].
  intros x Hx. pose proof (Hvalues x Hx) as Hvalue.
  rewrite !evaluatePolynomial_cons in Hvalue. simpl in Hvalue.
  apply (Rmult_eq_reg_r x); [Lra.lra|exact Hx].
Qed.
End RealPolynomials.

(* ===================================================================== *)
(** ** The Taylor shifts together *)
(* ===================================================================== *)

(** X9. [taylorShiftBy1(p)] is [taylorShift(p, 1)]: on real coefficients
    the two calls have the same outcome and leave the same store and the
    same binomial cache, in every state. *)
Theorem taylorShiftBy1_is_taylorShift_by_one (st : state R) (polynomial : loc) :
  taylorShiftBy1 polynomial st = taylorShift polynomial 1%R st.
Proof.
  unfold taylorShiftBy1, taylorShift.
  apply bind_ext. intros newCoefficients st1.
  apply bind_ext. intros len st2.
  apply bind_ext_l. unfold for_range. apply for_count_ext. intros i st3.
  apply for_count_ext. intros k st4.
  apply bind_ext. intros old st5.
  apply bind_ext. intros p_i st6.
  apply bind_ext. intros b st7.
  f_equal. pose proof (Math_pow_one (A := R) (i - k)) as Hone.
  change (@one R Number_R) with 1%R in Hone. rewrite Hone. simpl. Lra.lra.
Qed.

(** X10. Two Taylor shifts in a row shift by the sum: the array returned by
    [taylorShift(taylorShift(p, s), t)] holds the coefficients that
    [taylorShift(p, t + s)] returns, and its polynomial takes at every real
    [x] the value of [p] at [x + (t + s)].  The shift by [-s] undoes the
    shift by [s]: the result has the coefficients of [p] again.  [p] is
    untouched and the two results are fresh arrays. *)
Theorem taylorShift_composes
    (st : state R) (polynomial : loc) (p : list R) (s t : R) :
  heap st !! polynomial = Some p ->
  cache_ok (binomialCache st) ->
  exists q1 q2 c' c'',
    (let! first := taylorShift polynomial s in taylorShift first t) st
    = (Normal (S (length (heap st))), State (heap st ++ [q1; q2]) c')
    /\ cache_ok c'
    /\ taylorShift polynomial (t + s)%R st
       = (Normal (length (heap st)), State (heap st ++ [q2]) c'')
    /\ (forall x : R, evaluatePolynomial q2 x = evaluatePolynomial p (x + (t + s))%R)
    /\ (t = (- s)%R -> q2 = p).
Proof.
  intros Hl Hc.
  destruct (taylorShift_run st polynomial p s Hl Hc)
    as (q1 & c1 & Hrun1 & Hc1 & Hlen1 & Hev1 & _).
  destruct (taylorShift_run (State (heap st ++ [q1]) c1) (length (heap st)) q1 t)
    as (q2 & c2 & Hrun2 & Hc2 & Hlen2 & Hev2 & _); [apply lookup_heap_new|exact Hc1|].
  destruct (taylorShift_run st polynomial p (t + s)%R Hl Hc)
    as (q3 & c3 & Hrun3 & _ & Hlen3 & Hev3 & _).
  assert (Hvalue : forall x : R, evaluatePolynomial q2 x = evaluatePolynomial p (x + (t + s))%R).
  { intros x. rewrite Hev2, Hev1. simpl. f_equal. Lra.lra. }
  assert (Hsame : q3 = q2).
  { apply evaluatePolynomial_injective; [congruence|].
    intros x _. rewrite Hev3, Hvalue. reflexivity. }
  exists q1, q2, c2, c3. unfold bind. rewrite Hrun1, Hrun2. cbn [heap].
  split.
  { rewrite length_app, <- app_assoc. simpl.
    replace (length (heap st) + 1) with (S (length (heap st))) by lia. reflexivity. }
  split; [exact Hc2|]. split; [rewrite <- Hsame; exact Hrun3|]. split; [exact Hvalue|].
  intros ->. apply evaluatePolynomial_injective; [congruence|].
  intros x _. rewrite Hvalue. f_equal. Lra.lra.
Qed.

Lemma taylorShift_composes_witness :
  exists q1 q2 c' c'',
    (let! first := taylorShift 0 2%R in taylorShift first (-2)%R) (State [[1; 2; 3]%R] ∅)
    = (Normal 2, State ([[1; 2; 3]%R] ++ [q1; q2]) c')
    /\ cache_ok c'
    /\ taylorShift 0 (-2 + 2)%R (State [[1; 2; 3]%R] ∅)
       = (Normal 1, State ([[1; 2; 3]%R] ++ [q2]) c'')
    /\ (forall x : R, evaluatePolynomial q2 x = evaluatePolynomial [1; 2; 3]%R (x + (-2 + 2))%R)
    /\ ((-2)%R = (- 2)%R -> q2 = [1; 2; 3]%R).
Proof.
  apply (taylorShift_composes (State [[1; 2; 3]%R] ∅) 0 [1; 2; 3]%R 2%R (-2)%R).
  - reflexivity.
  - apply cache_ok_empty.
Defined.

(** X11. [transformedForLowerInterval(p, s)] returns a fresh array [q] that
    holds the coefficients of [scaleInput(p, s)] in reverse order, so that
    [q(x) * x = x^n * p(s / x)] for a real [x] that is not zero ([n] the
    number of coefficients).  The polynomial shifted by 1, whose value at
    [x] is [q(x + 1)], is left in one more array that is not returned; [p]
    is untouched. *)
Theorem transformedForLowerInterval_returns_scaled_reversed
    (st : state R) (polynomial : loc) (p : list R) (scaleFactor : R) :
  heap st !! polynomial = Some p ->
  cache_ok (binomialCache st) ->
  exists q scaled shifted c',
    transformedForLowerInterval polynomial scaleFactor st
    = (Normal (length (heap st)), State (heap st ++ [q; shifted]) c')
    /\ cache_ok c'
    /\ scaleInput polynomial scaleFactor st
       = (Normal (length (heap st)), State (heap st ++ [scaled]) (binomialCache st))
    /\ q = reverse scaled
    /\ (forall x : R, x <> 0%R ->
          (evaluatePolynomial q x * x
           = Math_pow x (length p) * evaluatePolynomial p (scaleFactor * / x))%R)
    /\ (forall x : R, evaluatePolynomial shifted x = evaluatePolynomial q (x + 1)%R).
Proof.
  intros Hl Hc. destruct st as [h c]. cbn [heap binomialCache] in *.
  set (scaled := imap (fun i c => (Math_pow scaleFactor i * c)%num) p).
  unfold transformedForLowerInterval.
  unfold bind at 1. rewrite (spread_run _ polynomial p) by exact Hl.
  cbn [heap binomialCache]. unfold bind at 1.
  rewrite (scaleCoefficients_run _ (length h) p) by apply lookup_heap_new.
  cbn [heap binomialCache]. rewrite insert_heap_new.
  unfold bind at 1.
  rewrite (reverseInPlace_run _ (length h) (scaleContents scaleFactor p))
    by apply lookup_heap_new.
  cbn [heap binomialCache]. rewrite insert_heap_new.
  rewrite (scaleContents_scaleInput scaleFactor p). fold scaled.
  destruct (taylorShift_run (State (h ++ [reverse scaled]) c) (length h) (reverse scaled) 1%R)
    as (shifted & c' & Hrun & Hc' & _ & Hev & _); [apply lookup_heap_new|exact Hc|].
  exists (reverse scaled), scaled, shifted, c'.
  split.
  { unfold bind. change (@one R Number_R) with 1%R. rewrite Hrun. cbn [heap].
    unfold ret. rewrite <- app_assoc. reflexivity. }
  split; [exact Hc'|].
  split; [apply (scaleInput_run (State h c) polynomial p scaleFactor Hl)|].
  split; [reflexivity|]. split; [|exact Hev].
  intros x Hx.
  pose proof (evaluatePolynomial_reverse x (/ x)%R scaled (Rinv_r x Hx)) as Hvalue.
  unfold scaled in Hvalue at 2 3. rewrite length_imap in Hvalue.
  rewrite (evaluatePolynomial_scaled scaleFactor (/ x)%R p) in Hvalue. exact Hvalue.
Qed.

Lemma transformedForLowerInterval_returns_scaled_reversed_witness :
  exists q scaled shifted c',
    transformedForLowerInterval 0 2%R (State [[1; 1; 1]%R] ∅)
    = (Normal 1, State ([[1; 1; 1]%R] ++ [q; shifted]) c')
    /\ cache_ok c'
    /\ scaleInput 0 2%R (State [[1; 1; 1]%R] ∅)
       = (Normal 1, State ([[1; 1; 1]%R] ++ [scaled]) ∅)
    /\ q = reverse scaled
    /\ (forall x : R, x <> 0%R ->
          (evaluatePolynomial q x * x
           = Math_pow x 3 * evaluatePolynomial [1; 1; 1] (2 * / x))%R)
    /\ (forall x : R, evaluatePolynomial shifted x = evaluatePolynomial q (x + 1)%R).
Proof.
  apply (transformedForLowerInterval_returns_scaled_reversed
           (State [[1; 1; 1]%R] ∅) 0 [1; 1; 1]%R 2%R).
  - reflexivity.
  - apply cache_ok_empty.
Defined.

(* ===================================================================== *)
(** ** The binomial cache *)
(* ===================================================================== *)


Section BinomialCache.
Context {A : Type}.



End BinomialCache.


(** X13. The numbers [binomial] returns obey the laws of the binomial
    coefficients: [binomial(n, k)] is 0 for [k > n], it is symmetric,
    [binomial(n, n - k) = binomial(n, k)] for [k <= n], and it follows
    Pascal's rule, [binomial(n + 1, k + 1) = binomial(n, k) + binomial(n, k + 1)]. *)
Theorem binomial_symmetric_and_pascal {A : Type} (n k : nat) (st : state A) :
  cache_ok (binomialCache st) ->
  (n < k -> fst (binomial n k st) = Normal 0)
  /\ (k <= n -> fst (binomial n (n - k) st) = fst (binomial n k st))
  /\ exists a b,
       fst (binomial n k st) = Normal a
       /\ fst (binomial n (S k) st) = Normal b
       /\ fst (binomial (S n) (S k) st) = Normal (a + b).
Proof.
  intros Hc.
  assert (Hvalue : forall m j, fst (binomial m j st) = Normal (choose m j)).
  { intros m j. destruct (binomial_correct m j st Hc) as (c' & Hrun & _).
    rewrite Hrun. reflexivity. }
  split; [|split].
  - intros Hlt. rewrite Hvalue, choose_gt by exact Hlt. reflexivity.
  - intros Hle. rewrite !Hvalue, choose_sym by exact Hle. reflexivity.
  - exists (choose n k), (choose n (S k)). rewrite !Hvalue. auto.
Qed.

Lemma binomial_symmetric_and_pascal_witness :
  (12 < 5 -> fst (binomial 12 5 (State (A := Z) [] ∅)) = Normal 0)
  /\ (5 <= 12 ->
      fst (binomial 12 (12 - 5) (State (A := Z) [] ∅))
      = fst (binomial 12 5 (State (A := Z) [] ∅)))
  /\ exists a b,
       fst (binomial 12 5 (State (A := Z) [] ∅)) = Normal a
       /\ fst (binomial 12 6 (State (A := Z) [] ∅)) = Normal b
       /\ fst (binomial 13 6 (State (A := Z) [] ∅)) = Normal (a + b).
Proof.
  apply (binomial_symmetric_and_pascal 12 5 (State (A := Z) [] ∅)).
  apply cache_ok_empty.
Defined.

(* ===================================================================== *)
(** ** Decimal places and rounding *)
(* ===================================================================== *)

Section DecimalPlaces.
Local Open Scope Q_scope.

Lemma Math_floor_log10_power (e : Z) : Math_floor_log10 (10 ^ e) = e.
Proof.
  pose proof (Qpow10_pos e) as Hpos.
  destruct (Math_floor_log10_spec (10 ^ e) Hpos) as [Hlo Hhi].
  apply Qpower_le_compat_l_inv in Hlo; [|reflexivity].
  apply Qpower_lt_compat_l_inv in Hhi; [lia|reflexivity].
Qed.

Lemma calculateDecimalPlacesFromPrecision_positive (precision : Q) :
  0 < precision ->
  calculateDecimalPlacesFromPrecision precision = (- Math_floor_log10 precision)%Z.
Proof.
  intros Hpos. unfold calculateDecimalPlacesFromPrecision.
  destruct (Qle_bool precision 0) eqn:E; [|reflexivity].
  apply Qle_bool_iff in E. lra.
Qed.

End DecimalPlaces.

(** X14. At a power of ten the number of decimal places is the exponent
    negated: [calculateDecimalPlacesFromPrecision(10^-d) = d] for every
    integer [d], so 1e-5 gives 5 places, 1 gives 0 and 100 gives -2. *)
Theorem calculateDecimalPlacesFromPrecision_at_power_of_ten (d : Z) :
  calculateDecimalPlacesFromPrecision (10 ^ (- d))%Q = d.
Proof.
  rewrite calculateDecimalPlacesFromPrecision_positive by apply Qpow10_pos.
  rewrite Math_floor_log10_power. lia.
Qed.

(** X15. A finer precision never asks for fewer decimal places: for
    positive precisions [p1 <= p2] the number of places for [p2] is at most
    the number for [p1]. *)
Theorem calculateDecimalPlacesFromPrecision_antitone (p1 p2 : Q) :
  (0 < p1)%Q -> (p1 <= p2)%Q ->
  (calculateDecimalPlacesFromPrecision p2 <= calculateDecimalPlacesFromPrecision p1)%Z.
Proof.
  intros Hpos Hle.
  assert (Hpos2 : (0 < p2)%Q) by (apply Qlt_le_trans with p1; assumption).
  rewrite !calculateDecimalPlacesFromPrecision_positive by assumption.
  destruct (Math_floor_log10_spec p1 Hpos) as [Hlo _].
  assert (Hge : (Math_floor_log10 p1 <= Math_floor_log10 p2)%Z).
  { apply (Math_floor_log10_ge p2 _ Hpos2). apply Qle_trans with p1; assumption. }
  lia.
Qed.

Lemma calculateDecimalPlacesFromPrecision_antitone_witness :
  (calculateDecimalPlacesFromPrecision (1 # 100)
   <= calculateDecimalPlacesFromPrecision (1 # 100000))%Z.
Proof.
  apply (calculateDecimalPlacesFromPrecision_antitone (1 # 100000) (1 # 100)).
  - reflexivity.
  - discriminate.
Defined.

Section RoundingTwice.
Local Open Scope Q_scope.

Lemma Qfloor_half (z : Z) : Qfloor (inject_Z z + (1 # 2)) = z.
Proof.
  pose proof (Qfloor_le (inject_Z z + (1 # 2))) as Hlo.
  pose proof (Qlt_floor (inject_Z z + (1 # 2))) as Hhi.
  set (f := Qfloor (inject_Z z + (1 # 2))) in *. clearbody f.
  unfold Qle, Qlt, inject_Z, Qplus in *. simpl in *. lia.
Qed.

Lemma Qle_bool_Qeq (a b b' : Q) : b == b' -> Qle_bool a b = Qle_bool a b'.
Proof.
  intros Hb. destruct (Qle_bool a b') eqn:E.
  - apply Qle_bool_iff. apply Qle_bool_iff in E. rewrite Hb. exact E.
  - destruct (Qle_bool a b) eqn:E'; [|reflexivity].
    apply Qle_bool_iff in E'. rewrite Hb in E'. apply Qle_bool_iff in E'. congruence.
Qed.

(** The sign test on a quotient [z / s] with [s > 0] is the sign test on
    [z]. *)
Lemma Qltb_quotient (x s : Q) (z : Z) :
  0 < s -> x == inject_Z z / s -> Qltb x 0 = (z <? 0)%Z.
Proof.
  intros Hs Hx.
  assert (Hne : ~ s == 0) by (intros Hz; rewrite Hz in Hs; discriminate).
  assert (Hxs : x * s == inject_Z z) by (rewrite Hx; field; exact Hne).
  destruct (Z.ltb_spec z 0) as [Hlt|Hge].
  - apply Qltb_true. rewrite Zlt_Qlt in Hlt. change (inject_Z 0) with 0 in Hlt.
    rewrite <- Hxs in Hlt. apply Qnot_le_lt. intros Hle.
    assert (0 <= x * s) by (apply Qmult_le_0_compat; lra). lra.
  - apply Qltb_false. rewrite Zle_Qle in Hge. change (inject_Z 0) with 0 in Hge.
    rewrite <- Hxs in Hge. apply Qnot_lt_le. intros Hlt.
    assert (Hneg : x * s < 0 * s) by (apply Qmult_lt_compat_r; assumption). lra.
Qed.

(** The string that [toFixed] gives parses to a number that [toFixed] maps
    to the same number. *)
Lemma toFixed_idempotent {A : Type} (num : Q) (digits : Z) (st : state A) (r : Q) :
  toFixed num digits st = (Normal r, st) ->
  exists r', toFixed (Qred r) digits st = (Normal r', st) /\ r' == r.
Proof.
  unfold toFixed.
  destruct ((digits <? 0)%Z || (100 <? digits)%Z) eqn:Erange; [discriminate|].
  apply orb_false_iff in Erange. destruct Erange as [E0 E100].
  apply Z.ltb_ge in E0.
  destruct (Qle_bool (10 ^ 21) (Qabs num)) eqn:Ebig.
  - intros Hrun. inversion Hrun; subst r. clear Hrun.
    rewrite (Qle_bool_Qeq _ (Qabs (Qred num)) (Qabs num))
      by (rewrite Qred_correct; reflexivity).
    rewrite Ebig. eexists. split; [reflexivity|]. apply Qred_correct.
  - set (s := inject_Z (10 ^ digits)).
    set (n := Qfloor (Qabs num * s + (1 # 2))).
    set (signed := if Qltb num 0 then (- n)%Z else n).
    intros Hrun.
    assert (Hr : inject_Z signed / s = r) by (unfold ret in Hrun; congruence).
    clear Hrun.
    assert (Hs : 0 < s).
    { unfold s. change 0 with (inject_Z 0). rewrite <- Zlt_Qlt.
      apply Z.pow_pos_nonneg; lia. }
    assert (Hne : ~ s == 0) by (intros Hz; rewrite Hz in Hs; discriminate).
    assert (Hn : (0 <= n)%Z).
    { change 0%Z with (Qfloor 0). apply Qfloor_resp_le.
      assert (0 <= Qabs num * s) by (apply Qmult_le_0_compat; [apply Qabs_nonneg|lra]).
      lra. }
    assert (Habs : Z.abs signed = n) by (unfold signed; destruct (Qltb num 0); lia).
    assert (Hx : Qred r == inject_Z signed / s) by (rewrite Qred_correct, <- Hr; reflexivity).
    destruct (Qle_bool (10 ^ 21) (Qabs (Qred r))).
    { eexists. split; [reflexivity|]. apply Qred_correct. }
    eexists. split; [reflexivity|].
    assert (Hn' : Qfloor (Qabs (Qred r) * s + (1 # 2)) = n).
    { rewrite <- Habs, <- (Qfloor_half (Z.abs signed)). apply Qfloor_comp.
      apply Qplus_comp; [|reflexivity].
      rewrite <- (Qabs_pos s) at 1 by lra. rewrite <- Qabs_Qmult.
      assert (Hxs : Qred r * s == inject_Z signed) by (rewrite Hx; field; exact Hne).
      rewrite Hxs. reflexivity. }
    rewrite Hn', (Qltb_quotient (Qred r) s signed Hs Hx).
    assert (Hsigned : (if (signed <? 0)%Z then (- n)%Z else n) = signed).
    { destruct (Z.ltb_spec signed 0); unfold signed in *; destruct (Qltb num 0); lia. }
    rewrite Hsigned, <- Hr. reflexivity.
Qed.
End RoundingTwice.

(** X16. Rounding is idempotent: when
    [roundToPrecisionBasedOnDecimal(num, precision)] returns [r], rounding
    [r] again to the same precision returns [r] itself. *)
Theorem roundToPrecisionBasedOnDecimal_idempotent (num precision r : Q) (st st' : state Q) :
  roundToPrecisionBasedOnDecimal num precision st = (Normal r, st') ->
  roundToPrecisionBasedOnDecimal r precision st = (Normal r, st).
Proof.
  unfold roundToPrecisionBasedOnDecimal, bind. intros Hrun.
  destruct (toFixed num (calculateDecimalPlacesFromPrecision precision) st)
    as [[fixed|e] st1] eqn:Hfixed; [|discriminate].
  assert (Hst : st1 = st).
  { unfold toFixed in Hfixed.
    destruct ((_ <? 0)%Z || (100 <? _)%Z); [discriminate|].
    destruct (Qle_bool _ _); inversion Hfixed; reflexivity. }
  subst st1. unfold ret in Hrun.
  assert (Hr : r = parseFloat fixed) by congruence. subst r. clear Hrun.
  destruct (toFixed_idempotent num _ st fixed Hfixed) as (r' & Hrun' & Heq).
  unfold parseFloat. rewrite Hrun'. unfold ret. f_equal. f_equal.
  apply Qred_complete, Heq.
Qed.

Lemma roundToPrecisionBasedOnDecimal_idempotent_witness :
  roundToPrecisionBasedOnDecimal (123457 # 100000) (1 # 100000) (State [] ∅)
  = (Normal (123457 # 100000)%Q, State [] ∅).
Proof.
  apply (roundToPrecisionBasedOnDecimal_idempotent
           (1234567 # 1000000) (1 # 100000) (123457 # 100000) (State [] ∅) (State [] ∅)).
  reflexivity.
Defined.

(* ===================================================================== *)
(** ** More on the sorted insertion *)
(* ===================================================================== *)

(** Ascending order, equal neighbours allowed. *)
Fixpoint ascending (v : list Q) : Prop :=
  match v with
  | a :: rest =>
      match rest with
      | b :: _ => (a <= b)%Q
      | [] => True
      end /\ ascending rest
  | [] => True
  end.

Section Insertion.
Local Open Scope Q_scope.

Lemma ascending_suffix (before after : list Q) :
  ascending (before ++ after) -> ascending after.
Proof.
  induction before as [|a before IH]; [auto|]. intros [_ Htail]. apply IH, Htail.
Qed.

Lemma ascending_insert (newRoot : Q) (before after : list Q) :
  ascending (before ++ after) ->
  (forall r, r ∈ before -> r <= newRoot) ->
  match after with
  | [] => True
  | r :: _ => newRoot <= r
  end ->
  ascending (before ++ newRoot :: after).
Proof.
  induction before as [|a before IH]; intros Hlist Hbefore Hafter.
  - simpl in *. split; [|exact Hlist]. destruct after; [exact I|exact Hafter].
  - simpl app in *. destruct Hlist as [Hhead Htail]. split.
    + destruct before as [|b before]; simpl app in *; [|exact Hhead].
      apply Hbefore, elem_of_cons. auto.
    + apply IH; [exact Htail| |exact Hafter].
      intros r Hr. apply Hbefore, elem_of_cons. auto.
Qed.

(** What the insertion does to the contents, whatever the tolerance. *)
Lemma insertedRoots_cases (v : list Q) (newRoot tolerance : Q) :
  insertedRoots v newRoot tolerance = v
  \/ exists before after,
       v = before ++ after
       /\ insertedRoots v newRoot tolerance = before ++ newRoot :: after
       /\ (forall r, r ∈ before -> r <= newRoot)
       /\ match after with
          | [] => True
          | r :: _ => newRoot < r
          end.
Proof.
  unfold insertedRoots.
  destruct (scanRoots v 0 newRoot tolerance) as [idx|] eqn:Hscan; [right|left; reflexivity].
  destruct (scanRoots_Some newRoot tolerance v 0 idx Hscan)
    as (before & after & -> & -> & Hbefore & Hafter).
  exists before, after. simpl Nat.add. rewrite take_app_length, drop_app_length.
  split; [reflexivity|]. split; [reflexivity|]. split.
  - intros r Hr. apply Hbefore, Hr.
  - destruct after; [exact I|apply Hafter].
Qed.

Lemma insertedRoots_ascending (v : list Q) (newRoot tolerance : Q) :
  ascending v -> ascending (insertedRoots v newRoot tolerance).
Proof.
  intros Hlist.
  destruct (insertedRoots_cases v newRoot tolerance)
    as [->|(before & after & -> & -> & Hbefore & Hafter)]; [exact Hlist|].
  apply ascending_insert; [exact Hlist|exact Hbefore|].
  destruct after; [exact I|lra].
Qed.

Lemma insertedRoots_keeps (v : list Q) (newRoot tolerance r : Q) :
  r ∈ v -> r ∈ insertedRoots v newRoot tolerance.
Proof.
  intros Hr.
  destruct (insertedRoots_cases v newRoot tolerance)
    as [->|(before & after & -> & -> & _)]; [exact Hr|].
  apply elem_of_app in Hr. apply elem_of_app. destruct Hr as [Hr|Hr]; [auto|].
  right. apply elem_of_cons. auto.
Qed.

Lemma insertedRoots_from (v : list Q) (newRoot tolerance r : Q) :
  r ∈ insertedRoots v newRoot tolerance -> r = newRoot \/ r ∈ v.
Proof.
  destruct (insertedRoots_cases v newRoot tolerance)
    as [->|(before & after & -> & -> & _)]; [auto|].
  intros Hr. apply elem_of_app in Hr. destruct Hr as [Hr|Hr].
  - right. apply elem_of_app. auto.
  - apply elem_of_cons in Hr. destruct Hr as [->|Hr]; [auto|].
    right. apply elem_of_app. auto.
Qed.

(** With a tolerance that is not negative, the root inserted last is found
    again: a second insertion of the same root changes nothing. *)
Lemma insertedRoots_idempotent (v : list Q) (newRoot tolerance : Q) :
  0 <= tolerance ->
  root_list tolerance v ->
  insertedRoots (insertedRoots v newRoot tolerance) newRoot tolerance
  = insertedRoots v newRoot tolerance.
Proof.
  intros Htol Hlist.
  destruct (insertedRoots_spec tolerance newRoot v Htol Hlist) as (Hlist' & _ & _).
  destruct (insertedRoots_spec tolerance newRoot _ Htol Hlist') as (_ & Hnear & _).
  apply Hnear. clear Hnear Hlist'. unfold insertedRoots.
  destruct (scanRoots v 0 newRoot tolerance) as [idx|] eqn:Hscan.
  - exists newRoot. split.
    + apply elem_of_app. right. apply elem_of_cons. auto.
    + setoid_replace (newRoot - newRoot) with 0 using relation Qeq by ring.
      exact Htol.
  - destruct (scanRoots_None newRoot tolerance v 0 Hscan) as (r & Hin & Hr).
    exists r. auto.
Qed.
End Insertion.

(** X17. Whatever the tolerance, [insertRootSorted] leaves the array as it
    is or puts the new root at one place among the old entries, in their
    order, after the entries that are at most the new root and before an
    entry that is greater.  It never removes an entry, and an array in
    ascending order stays in ascending order. *)
Theorem insertRootSorted_keeps_ascending
    (st : state Q) (roots : loc) (v : list Q) (newRoot tolerance : Q) :
  heap st !! roots = Some v ->
  exists v',
    insertRootSorted roots newRoot tolerance st
    = (Normal tt, State (<[roots := v']> (heap st)) (binomialCache st))
    /\ (v' = v
        \/ exists before after,
             v = before ++ after /\ v' = before ++ newRoot :: after
             /\ (forall r, r ∈ before -> (r <= newRoot)%Q)
             /\ match after with
                | [] => True
                | r :: _ => (newRoot < r)%Q
                end)
    /\ (forall r, r ∈ v -> r ∈ v')
    /\ (ascending v -> ascending v').
Proof.
  intros Hl. exists (insertedRoots v newRoot tolerance).
  split; [apply insertRootSorted_run, Hl|].
  split; [apply insertedRoots_cases|].
  split; [intros r; apply insertedRoots_keeps|apply insertedRoots_ascending].
Qed.

Lemma insertRootSorted_keeps_ascending_witness :
  exists v',
    insertRootSorted 0 2%Q (-1)%Q (State [[1; 2; 3]%Q] ∅)
    = (Normal tt, State (<[0 := v']> [[1; 2; 3]%Q]) ∅)
    /\ (forall r, r ∈ [1; 2; 3]%Q -> r ∈ v')
    /\ (ascending [1; 2; 3]%Q -> ascending v').
Proof.
  destruct (insertRootSorted_keeps_ascending (State [[1; 2; 3]%Q] ∅) 0 [1; 2; 3]%Q 2%Q (-1)%Q)
    as (v' & Hrun & _ & Hkeeps & Hascending); [reflexivity|].
  exists v'. auto.
Defined.

(** X18. For a tolerance that is not negative and a root list,
    [insertRootSorted] is idempotent: inserting the same root a second time
    leaves the store as the first insertion left it. *)
Theorem insertRootSorted_twice
    (st : state Q) (roots : loc) (v : list Q) (newRoot tolerance : Q) :
  heap st !! roots = Some v ->
  (0 <= tolerance)%Q ->
  root_list tolerance v ->
  (let! _ := insertRootSorted roots newRoot tolerance in
   insertRootSorted roots newRoot tolerance) st
  = insertRootSorted roots newRoot tolerance st.
Proof.
  intros Hl Htol Hlist. unfold bind.
  rewrite (insertRootSorted_run st roots v newRoot tolerance Hl).
  assert (Hlt : roots < length (heap st)) by (eapply lookup_lt_Some, Hl).
  rewrite (insertRootSorted_run _ roots (insertedRoots v newRoot tolerance))
    by (cbn [heap]; apply list_lookup_insert_eq, Hlt).
  cbn [heap binomialCache].
  rewrite list_insert_insert_eq, insertedRoots_idempotent by assumption. reflexivity.
Qed.

Lemma insertRootSorted_twice_witness :
  (let! _ := insertRootSorted 0 2%Q (1 # 100000)%Q in
   insertRootSorted 0 2%Q (1 # 100000)%Q) (State [[1; 3]%Q] ∅)
  = insertRootSorted 0 2%Q (1 # 100000)%Q (State [[1; 3]%Q] ∅).
Proof.
  apply (insertRootSorted_twice (State [[1; 3]%Q] ∅) 0 [1; 3]%Q 2%Q (1 # 100000)%Q).
  - reflexivity.
  - discriminate.
  - simpl. repeat split; reflexivity.
Defined.

(* ===================================================================== *)
(** ** More on the orchestrator *)
(* ===================================================================== *)

(** Collaborators that find no root on either side. *)
Definition quietCollaborators : Collaborators := {|
  hasStrictlyNegativeRoots := fun _ => false;
  hasStrictlyPositiveRoots := fun _ => false;
  makeSquareFree := fun p => p;
  isolatePositiveRealRootsContinuedFractions := fun _ => [];
  refineRootIntervalBisection := fun _ interval _ => fst interval;
  Number_toString := fun q => pretty (Qnum q)
|}.

Section OrchestratorRuns.
Context {collaborators : Collaborators}.

(** The root that [processRoots] rounds for an interval. *)
Definition signedRefinedRoot (p : list Q) (isNegative : bool) (precision : Q)
    (interval : Q * Q) : Q :=
  let rawRoot :=
    refineRootIntervalBisection (fun x => evaluatePolynomial p x) interval precision in
  if isNegative then (- rawRoot)%Q else rawRoot.




Lemma processedRoots_keeps (p : list Q) (isNegative : bool) (precision : Q)
    (intervals : list (Q * Q)) (r : Q) :
  forall roots,
    r ∈ roots -> r ∈ snd (processedRoots p isNegative precision intervals roots).
Proof.
  induction intervals as [|interval rest IH]; intros roots Hr; cbn [processedRoots];
    [exact Hr|].
  cbv zeta. destruct (roundingOutcome _ precision) as [rounded|e]; [|exact Hr].
  apply IH, insertedRoots_keeps, Hr.
Qed.

Lemma processedRoots_from (p : list Q) (isNegative : bool) (precision : Q)
    (intervals : list (Q * Q)) (r : Q) :
  forall roots,
    r ∈ snd (processedRoots p isNegative precision intervals roots) ->
    r ∈ roots
    \/ exists interval,
         interval ∈ intervals
         /\ roundingOutcome (signedRefinedRoot p isNegative precision interval) precision
            = Normal r.
Proof.
  induction intervals as [|interval rest IH]; intros roots; cbn [processedRoots];
    [auto|].
  cbv zeta. fold (signedRefinedRoot p isNegative precision interval).
  destruct (roundingOutcome (signedRefinedRoot p isNegative precision interval) precision)
    as [rounded|e] eqn:Hrounded; [|auto].
  intros Hr. destruct (IH _ Hr) as [Hin|(other & Hother & Hrun)].
  - apply insertedRoots_from in Hin. destruct Hin as [->|Hin]; [|auto].
    right. exists interval. split; [apply elem_of_cons; auto|exact Hrounded].
  - right. exists other. split; [apply elem_of_cons; auto|exact Hrun].
Qed.

Lemma rootsFromSquareFree_keeps (squareFree : list Q) (precision : Q) (roots : list Q)
    (r : Q) :
  r ∈ roots -> r ∈ snd (rootsFromSquareFree squareFree precision roots).
Proof.
  intros Hr. unfold rootsFromSquareFree.
  assert (Hnegative :
    r ∈ snd (if hasStrictlyNegativeRoots squareFree
             then processedRoots (negatedContents squareFree) true precision
                    (isolatePositiveRealRootsContinuedFractions (negatedContents squareFree))
                    roots
             else (Normal tt, roots))).
  { destruct (hasStrictlyNegativeRoots squareFree); [|exact Hr].
    apply processedRoots_keeps, Hr. }
  destruct (fst (if hasStrictlyNegativeRoots squareFree then _ else _)) as [[]|e].
  - destruct (hasStrictlyPositiveRoots squareFree); [|exact Hnegative].
    apply processedRoots_keeps, Hnegative.
  - exact Hnegative.
Qed.

Lemma rootsFromSquareFree_from (squareFree : list Q) (precision : Q) (roots : list Q)
    (r : Q) :
  r ∈ snd (rootsFromSquareFree squareFree precision roots) ->
  r ∈ roots
  \/ (hasStrictlyNegativeRoots squareFree = true
      /\ exists interval,
           interval ∈ isolatePositiveRealRootsContinuedFractions (negatedContents squareFree)
           /\ roundingOutcome
                (signedRefinedRoot (negatedContents squareFree) true precision interval)
                precision = Normal r)
  \/ (hasStrictlyPositiveRoots squareFree = true
      /\ exists interval,
           interval ∈ isolatePositiveRealRootsContinuedFractions squareFree
           /\ roundingOutcome (signedRefinedRoot squareFree false precision interval)
                precision = Normal r).
Proof.
  unfold rootsFromSquareFree.
  assert (Hnegative : forall afterNegative,
    afterNegative
    = (if hasStrictlyNegativeRoots squareFree
       then processedRoots (negatedContents squareFree) true precision
              (isolatePositiveRealRootsContinuedFractions (negatedContents squareFree))
              roots
       else (Normal tt, roots)) ->
    r ∈ snd afterNegative ->
    r ∈ roots
    \/ (hasStrictlyNegativeRoots squareFree = true
        /\ exists interval,
             interval ∈ isolatePositiveRealRootsContinuedFractions (negatedContents squareFree)
             /\ roundingOutcome
                  (signedRefinedRoot (negatedContents squareFree) true precision interval)
                  precision = Normal r)).
  { intros afterNegative ->. destruct (hasStrictlyNegativeRoots squareFree); [|auto].
    intros Hr. apply processedRoots_from in Hr. destruct Hr; auto. }
  specialize (Hnegative _ eq_refl).
  destruct (fst (if hasStrictlyNegativeRoots squareFree then _ else _)) as [[]|e].
  - destruct (hasStrictlyPositiveRoots squareFree).
    + intros Hr. apply processedRoots_from in Hr. destruct Hr as [Hr|Hr]; [|auto].
      destruct (Hnegative Hr); auto.
    + intros Hr. destruct (Hnegative Hr); auto.
  - intros Hr. destruct (Hnegative Hr); auto.
Qed.
End OrchestratorRuns.

Section OrchestratorFacts.
Context {collaborators : Collaborators}.

(** What a call that returns has in its result array. *)
Lemma findAllRealRoots_result (st st' : state Q) (polynomial result : loc)
    (constantTerm : Q) (higher : list Q) (precision : Q) :
  heap st !! polynomial = Some (constantTerm :: higher) ->
  findAllRealRoots polynomial precision st = (Normal result, st') ->
  result = length (heap st)
  /\ heap st' !! result
     = Some (snd (rootsFromSquareFree (makeSquareFree (constantTerm :: higher)) precision
                    (if Qltb (Qabs constantTerm) EPSILON then [0%Q] else []))).
Proof.
  intros Hl Hrun.
  destruct (findAllRealRoots_run st polynomial constantTerm higher precision Hl)
    as (later & Hrun').
  rewrite Hrun' in Hrun.
  destruct (fst (rootsFromSquareFree _ precision _)) as [[]|e]; [|discriminate].
  assert (Hresult : result = length (heap st)) by congruence.
  assert (Hst : st' = State (<[polynomial := if Qltb (Qabs constantTerm) EPSILON
                                              then higher else constantTerm :: higher]>
                               (heap st)
                             ++ snd (rootsFromSquareFree
                                       (makeSquareFree (constantTerm :: higher)) precision
                                       (if Qltb (Qabs constantTerm) EPSILON
                                        then [0%Q] else []))
                                :: makeSquareFree (constantTerm :: higher) :: later)
                            (binomialCache st)) by congruence.
  split; [exact Hresult|]. rewrite Hresult, Hst. cbn [heap].
  replace (length (heap st))
    with (length (<[polynomial := if Qltb (Qabs constantTerm) EPSILON
                                  then higher else constantTerm :: higher]> (heap st)))
    by apply length_insert.
  apply lookup_roots.
Qed.

(** X19. When neither side of the square-free polynomial has a root,
    [findAllRealRoots] returns a fresh array that holds the root 0 alone if
    the constant term is numerically zero and nothing otherwise, for every
    precision: the precision is not looked at and nothing is thrown. *)
Theorem findAllRealRoots_without_roots
    (st : state Q) (polynomial : loc) (constantTerm : Q) (higher : list Q) (precision : Q) :
  heap st !! polynomial = Some (constantTerm :: higher) ->
  hasStrictlyNegativeRoots (makeSquareFree (constantTerm :: higher)) = false ->
  hasStrictlyPositiveRoots (makeSquareFree (constantTerm :: higher)) = false ->
  exists later,
    findAllRealRoots polynomial precision st
    = (Normal (length (heap st)),
       State (<[polynomial := if Qltb (Qabs constantTerm) EPSILON
                              then higher else constantTerm :: higher]> (heap st)
              ++ (if Qltb (Qabs constantTerm) EPSILON then [0%Q] else [])
                 :: makeSquareFree (constantTerm :: higher) :: later)
             (binomialCache st)).
Proof.
  intros Hl Hnegative Hpositive.
  destruct (findAllRealRoots_run st polynomial constantTerm higher precision Hl)
    as (later & Hrun).
  exists later. rewrite Hrun. unfold rootsFromSquareFree.
  rewrite Hnegative, Hpositive. reflexivity.
Qed.


(** X21. A constant term that is numerically zero puts the root 0 into the
    result: whenever [findAllRealRoots] returns for a polynomial with
    [|p[0]| < Number.EPSILON], the returned list contains 0. *)
Theorem findAllRealRoots_records_the_zero_root
    (st st' : state Q) (polynomial result : loc) (constantTerm : Q) (higher : list Q)
    (precision : Q) :
  heap st !! polynomial = Some (constantTerm :: higher) ->
  Qltb (Qabs constantTerm) EPSILON = true ->
  findAllRealRoots polynomial precision st = (Normal result, st') ->
  exists roots, heap st' !! result = Some roots /\ 0%Q ∈ roots.
Proof.
  intros Hl Hzero Hrun.
  destruct (findAllRealRoots_result st st' polynomial result constantTerm higher precision
              Hl Hrun) as [_ Hroots].
  eexists. split; [exact Hroots|].
  apply rootsFromSquareFree_keeps. rewrite Hzero. apply list_elem_of_singleton. reflexivity.
Qed.

(** X22. [findAllRealRoots] invents no root: every entry of the list it
    returns is 0, recorded for a constant term that is numerically zero, or
    the rounded value of the root refined in an isolating interval, of the
    negated square-free polynomial with the sign flipped, or of the
    square-free polynomial itself. *)
Theorem findAllRealRoots_roots_have_a_source
    (st st' : state Q) (polynomial result : loc) (constantTerm : Q) (higher : list Q)
    (precision : Q) :
  heap st !! polynomial = Some (constantTerm :: higher) ->
  findAllRealRoots polynomial precision st = (Normal result, st') ->
  let squareFree := makeSquareFree (constantTerm :: higher) in
  exists roots,
    heap st' !! result = Some roots
    /\ forall r, r ∈ roots ->
         (r = 0%Q /\ Qltb (Qabs constantTerm) EPSILON = true)
         \/ (hasStrictlyNegativeRoots squareFree = true
             /\ exists interval,
                  interval ∈ isolatePositiveRealRootsContinuedFractions
                               (negatedContents squareFree)
                  /\ roundingOutcome
                       (signedRefinedRoot (negatedContents squareFree) true precision interval)
                       precision = Normal r)
         \/ (hasStrictlyPositiveRoots squareFree = true
             /\ exists interval,
                  interval ∈ isolatePositiveRealRootsContinuedFractions squareFree
                  /\ roundingOutcome (signedRefinedRoot squareFree false precision interval)
                       precision = Normal r).
Proof.
  intros Hl Hrun squareFree.
  destruct (findAllRealRoots_result st st' polynomial result constantTerm higher precision
              Hl Hrun) as [_ Hroots].
  eexists. split; [exact Hroots|].
  intros r Hr. apply rootsFromSquareFree_from in Hr. destruct Hr as [Hr|Hr]; [left|right; exact Hr].
  destruct (Qltb (Qabs constantTerm) EPSILON).
  - apply list_elem_of_singleton in Hr. auto.
  - apply elem_of_nil in Hr. contradiction.
Qed.

End OrchestratorFacts.

Lemma findAllRealRoots_without_roots_witness :
  exists later,
    findAllRealRoots (collaborators := quietCollaborators) 0 10%Q (State [[0; 1]%Q] ∅)
    = (Normal 1,
       State (<[0 := if Qltb (Qabs 0) EPSILON then [1%Q] else [0; 1]%Q]> [[0; 1]%Q]
              ++ (if Qltb (Qabs 0) EPSILON then [0%Q] else [])
                 :: makeSquareFree (Collaborators := quietCollaborators) [0; 1]%Q :: later)
             ∅).
Proof.
  apply (findAllRealRoots_without_roots (collaborators := quietCollaborators)
           (State [[0; 1]%Q] ∅) 0 0%Q [1%Q] 10%Q); reflexivity.
Defined.


Lemma findAllRealRoots_records_the_zero_root_witness :
  exists roots,
    heap (snd (findAllRealRoots (collaborators := exampleCollaborators) 0 (1 # 100000)%Q
                 (State [[0; -1; 0; 1]%Q] ∅))) !! 1 = Some roots
    /\ 0%Q ∈ roots.
Proof.
  apply (findAllRealRoots_records_the_zero_root (collaborators := exampleCollaborators)
           (State [[0; -1; 0; 1]%Q] ∅) _ 0 1 0%Q [-1; 0; 1]%Q (1 # 100000)%Q);
    reflexivity.
Defined.

Lemma findAllRealRoots_roots_have_a_source_witness :
  exists roots,
    heap (snd (findAllRealRoots (collaborators := exampleCollaborators) 0 (1 # 100000)%Q
                 (State [[0; -1; 0; 1]%Q] ∅))) !! 1 = Some roots
    /\ forall r, r ∈ roots ->
         (r = 0%Q /\ Qltb (Qabs 0) EPSILON = true)
         \/ (true = true
             /\ exists interval,
                  interval ∈ [(1 # 2, 3 # 2); (3 # 2, 5 # 2)]%Q
                  /\ roundingOutcome
                       (signedRefinedRoot (collaborators := exampleCollaborators)
                          (negatedContents [0; -1; 0; 1]%Q) true (1 # 100000)%Q interval)
                       (1 # 100000)%Q = Normal r)
         \/ (true = true
             /\ exists interval,
                  interval ∈ [(1 # 2, 3 # 2); (3 # 2, 5 # 2)]%Q
                  /\ roundingOutcome
                       (signedRefinedRoot (collaborators := exampleCollaborators)
                          [0; -1; 0; 1]%Q false (1 # 100000)%Q interval)
                       (1 # 100000)%Q = Normal r).
Proof.
  apply (findAllRealRoots_roots_have_a_source (collaborators := exampleCollaborators)
           (State [[0; -1; 0; 1]%Q] ∅) _ 0 1 0%Q [-1; 0; 1]%Q (1 # 100000)%Q);
    reflexivity.
Defined.


(* ===================================================================== *)
(** ** More on the one-sided finders *)
(* ===================================================================== *)


Section DefaultSortFacts.
Context {X : Type} (toString : X -> string).




End DefaultSortFacts.

Section OneSidedFacts.
Context {collaborators : Collaborators}.


End OneSidedFacts.


